(** * Spotify playlist mirror: the accessor and the reconciliation engine

    A shallow embedding of [src/spotify-client.ts] (the remote collection
    accessor), [src/playlist-sync.ts] (the reconciliation engine) and the
    start of the process in [src/index.ts], and the properties of the
    specification checked against them.

    Conventions of the embedding:
    - a JavaScript [Date] is its time value, an integer number of
      milliseconds since the epoch ([Z]); the local time zone adjustment of
      the runtime is a constant offset [tza], in milliseconds;
    - an [async] function is a computation in the monad [M]: it reads and
      updates a [World] (the remote host, the module state of the client,
      the console, the list of requests sent) and ends with a value, a
      thrown error, or runs out of fuel (the model of a loop that does not
      stop);
    - a JavaScript [Set] of strings is a [gset string]; the [Map] used to
      remove duplicates keeps insertion order and is an association list;
    - the clock does not advance during a run: every [new Date()] and
      [Date.now()] of a run reads the same time value;
    - the definitions of module [Spec] follow the words of the
      specification (the two windows, [eligible], [lockedItems],
      [desired], [toAdd], [toRemove]); the theorems compare what the engine
      does with them.

    The file has the program first (the [Date] arithmetic, the data, the
    monad, the accessor, the engine), then a model of the host and the
    definitions the properties are stated with, then the lemmas and the
    theorems. *)

From Stdlib Require Import ZArith Lia.
From stdpp Require Import base decidable option list sorting gmap strings.

Local Open Scope Z_scope.

(** ** Time values and the [Date] arithmetic used by the engine *)

Module JSDate.

Definition msPerDay : Z := 86400000.

(** [Day(t)] and [TimeWithinDay(t)] of ECMAScript. *)
Definition Day (t : Z) : Z := t / msPerDay.
Definition TimeWithinDay (t : Z) : Z := t mod msPerDay.

(** Number of days from the epoch to the civil date [y]-[m]-[d], months
    counted from 1, in the proleptic Gregorian calendar. *)
Definition days_from_civil (y m d : Z) : Z :=
  let y' := if m <=? 2 then y - 1 else y in
  let era := y' / 400 in
  let yoe := y' - era * 400 in
  let mp := (m + 9) mod 12 in
  let doy := (153 * mp + 2) / 5 + d - 1 in
  let doe := yoe * 365 + yoe / 4 - yoe / 100 + doy in
  era * 146097 + doe - 719468.

(** The civil date (year, month 1..12, day 1..31) of a day number. *)
Definition civil_from_days (z : Z) : Z * Z * Z :=
  let z' := z + 719468 in
  let era := z' / 146097 in
  let doe := z' - era * 146097 in
  let yoe := (doe - doe / 1460 + doe / 36524 - doe / 146096) / 365 in
  let doy := doe - (365 * yoe + yoe / 4 - yoe / 100) in
  let mp := (5 * doy + 2) / 153 in
  let d := doy - (153 * mp + 2) / 5 + 1 in
  let m := if mp <? 10 then mp + 3 else mp - 9 in
  let y := yoe + era * 400 in
  ((if m <=? 2 then y + 1 else y), m, d).

Definition YearFromTime (t : Z) : Z := (civil_from_days (Day t)).1.1.
(** Months are counted from 0 in ECMAScript. *)
Definition MonthFromTime (t : Z) : Z := (civil_from_days (Day t)).1.2 - 1.
Definition DateFromTime (t : Z) : Z := (civil_from_days (Day t)).2.

(** [MakeDay(year, month, date)]: the day number of the first of the
    month, plus [date - 1]; a [date] outside the month overflows into the
    neighbouring months. *)
Definition MakeDay (year month date : Z) : Z :=
  let ym := year + month / 12 in
  let mn := month mod 12 in
  days_from_civil ym (mn + 1) 1 + date - 1.

Definition MakeDate (day time : Z) : Z := day * msPerDay + time.

Definition LocalTime (tza t : Z) : Z := t + tza.
Definition UTC (tza t : Z) : Z := t - tza.

Definition getFullYear (tza t : Z) : Z := YearFromTime (LocalTime tza t).
Definition getDate (tza t : Z) : Z := DateFromTime (LocalTime tza t).

(** [d.setFullYear(year)] *)
Definition setFullYear (tza t year : Z) : Z :=
  let lt := LocalTime tza t in
  UTC tza (MakeDate (MakeDay year (MonthFromTime lt) (DateFromTime lt))
                    (TimeWithinDay lt)).

(** [d.setDate(date)] *)
Definition setDate (tza t date : Z) : Z :=
  let lt := LocalTime tza t in
  UTC tza (MakeDate (MakeDay (YearFromTime lt) (MonthFromTime lt) date)
                    (TimeWithinDay lt)).

End JSDate.

(** ** The two predicates of the engine *)

(** [oneYearAgo]: [new Date()] with its year decreased by one. *)
Definition oneYearAgo (tza now : Z) : Z :=
  JSDate.setFullYear tza now (JSDate.getFullYear tza now - 1).

(** [isAddedWithinLastYear(addedAt)]; [now] is the value of [new Date()]. *)
Definition isAddedWithinLastYear (tza now addedAt : Z) : bool :=
  addedAt >=? oneYearAgo tza now.

(** [fiveDaysAgo]: [new Date()] with its day of the month decreased by 5. *)
Definition fiveDaysAgo (tza now : Z) : Z :=
  JSDate.setDate tza now (JSDate.getDate tza now - 5).

(** [isPlayedRecentlyWithinLockPeriod(playedAt)] *)
Definition isPlayedRecentlyWithinLockPeriod (tza now playedAt : Z) : bool :=
  playedAt >=? fiveDaysAgo tza now.


Local Close Scope Z_scope.

(** ** Data of the host API and of the client *)

(** A track object of the host; only its [uri] is read by the client. *)
Record TrackObject := { track_uri : string }.

(** One entry of a page of [getPlaylistTracks]: [added_at] is the time
    value of the ISO date string; [track] can be [null]. *)
Record PlaylistItem := { added_at : Z; item_track : option TrackObject }.

(** One entry of a page of [getMyRecentlyPlayedTracks]; [played_at] is
    [None] when the field is missing or empty. *)
Record PlayHistory := { ph_track : option TrackObject; played_at : option Z }.

(** Body of the answer of [refreshAccessToken]. *)
Record TokenResponse := { access_token : string; expires_in : option Z }.

(** Elements of the array returned by [getSourcePlaylistTracks]. *)
Record SourceTrack := { addedAt : Z; track : TrackObject; uri : string }.

(** Elements of the array returned by [getMirrorPlaylistTracks]. *)
Record MirrorTrack := { m_uri : string; position : nat }.

(** Elements of the array returned by [getRecentlyPlayedTracks]. *)
Record PlayedTrack := { p_uri : string; playedAt : Z }.

Global Instance TrackObject_eq_dec : EqDecision TrackObject.
Proof. solve_decision. Defined.
Global Instance PlaylistItem_eq_dec : EqDecision PlaylistItem.
Proof. solve_decision. Defined.
Global Instance PlayedTrack_eq_dec : EqDecision PlayedTrack.
Proof. solve_decision. Defined.

(** Errors thrown by the client or returned by the host. *)
Inductive Error :=
| EnvNotSet (name : string)
| ApiError (status : nat).

(** Answer of the host to one request. *)
Inductive Response (A : Type) :=
| Resolved (a : A)
| Rejected (e : Error).
Arguments Resolved {A} a.
Arguments Rejected {A} e.

(** Requests sent to the host, in the order they are sent. *)
Inductive Request :=
| ReqRefreshAccessToken
| ReqGetPlaylistTracks (id : string) (offset limit : nat)
| ReqAddTracksToPlaylist (id : string) (uris : list string) (pos : option nat)
| ReqRemoveTracksFromPlaylist (id : string) (uris : list string)
| ReqGetMyRecentlyPlayedTracks (limit : nat) (before : option Z).

Definition is_write (r : Request) : bool :=
  match r with
  | ReqAddTracksToPlaylist _ _ _ | ReqRemoveTracksFromPlaylist _ _ => true
  | _ => false
  end.

(** The write requests of a list of requests. *)
Definition writes (rs : list Request) : list Request := List.filter is_write rs.

(** Lines written to the console, with the numbers they print. *)
Inductive LogLine :=
| LogTokenRefreshed (expiresIn : Z)
| LogErrorRefreshing (e : Error)
| LogMakingRequest (requestCount : nat)
| LogRetrievedSoFar (n : nat)
| LogRetrievedUnique (n : nat)
| LogErrorRetrieving (e : Error)
| LogStarting
| LogFoundSource (n : nat)
| LogWithinLastYear (n : nat)
| LogFoundRecentlyPlayed (n : nat)
| LogInLockPeriod (n : nat)
| LogFoundMirror (n : nat)
| LogEligible (n : nat)
| LogChangesDetected
| LogRemovingAll
| LogAddingNewestFirst
| LogAdded (done total : nat)
| LogPlaylistUpdated
| LogExcluded (n : nat)
| LogNoChanges
| LogCompleted
| LogErrorSyncing (e : Error).

(** The operations of the host used by the client ([spotify-web-api-node]),
    as transitions of a host state [H]. *)
Record HostApi (H : Type) := {
  refreshAccessToken : H → Response TokenResponse * H;
  getPlaylistTracks : string → nat → nat → H → Response (list PlaylistItem) * H;
  addTracksToPlaylist : string → list string → option nat → H → Response unit * H;
  removeTracksFromPlaylist : string → list string → H → Response unit * H;
  getMyRecentlyPlayedTracks : nat → option Z → H → Response (list PlayHistory) * H
}.
Arguments refreshAccessToken {H} _ _.
Arguments getPlaylistTracks {H} _ _ _ _ _.
Arguments addTracksToPlaylist {H} _ _ _ _ _.
Arguments removeTracksFromPlaylist {H} _ _ _ _.
Arguments getMyRecentlyPlayedTracks {H} _ _ _ _.

(** ** The world a run executes in *)

Record World (H : Type) := {
  host : H;                         (* the remote service *)
  now : Z;                          (* the clock, [Date.now()] *)
  tza : Z;                          (* local time zone adjustment *)
  SOURCE_PLAYLIST_ID : option string;   (* [process.env] *)
  MIRROR_PLAYLIST_ID : option string;
  tokenExpirationTime : Z;          (* module variable of the client *)
  accessToken : option string;      (* token held by [spotifyApi] *)
  console : list LogLine;
  requests : list Request
}.
Arguments host {H} _.
Arguments now {H} _.
Arguments tza {H} _.
Arguments SOURCE_PLAYLIST_ID {H} _.
Arguments MIRROR_PLAYLIST_ID {H} _.
Arguments tokenExpirationTime {H} _.
Arguments accessToken {H} _.
Arguments console {H} _.
Arguments requests {H} _.

Section Updates.
Context {H : Type}.
Implicit Type w : World H.

Definition set_host (h : H) w : World H :=
  {| host := h; now := now w; tza := tza w;
     SOURCE_PLAYLIST_ID := SOURCE_PLAYLIST_ID w;
     MIRROR_PLAYLIST_ID := MIRROR_PLAYLIST_ID w;
     tokenExpirationTime := tokenExpirationTime w;
     accessToken := accessToken w;
     console := console w; requests := requests w |}.

Definition set_tokenExpirationTime (t : Z) w : World H :=
  {| host := host w; now := now w; tza := tza w;
     SOURCE_PLAYLIST_ID := SOURCE_PLAYLIST_ID w;
     MIRROR_PLAYLIST_ID := MIRROR_PLAYLIST_ID w;
     tokenExpirationTime := t;
     accessToken := accessToken w;
     console := console w; requests := requests w |}.

Definition set_accessToken (t : string) w : World H :=
  {| host := host w; now := now w; tza := tza w;
     SOURCE_PLAYLIST_ID := SOURCE_PLAYLIST_ID w;
     MIRROR_PLAYLIST_ID := MIRROR_PLAYLIST_ID w;
     tokenExpirationTime := tokenExpirationTime w;
     accessToken := Some t;
     console := console w; requests := requests w |}.

Definition add_console (l : LogLine) w : World H :=
  {| host := host w; now := now w; tza := tza w;
     SOURCE_PLAYLIST_ID := SOURCE_PLAYLIST_ID w;
     MIRROR_PLAYLIST_ID := MIRROR_PLAYLIST_ID w;
     tokenExpirationTime := tokenExpirationTime w;
     accessToken := accessToken w;
     console := console w ++ [l]; requests := requests w |}.

Definition add_request (r : Request) w : World H :=
  {| host := host w; now := now w; tza := tza w;
     SOURCE_PLAYLIST_ID := SOURCE_PLAYLIST_ID w;
     MIRROR_PLAYLIST_ID := MIRROR_PLAYLIST_ID w;
     tokenExpirationTime := tokenExpirationTime w;
     accessToken := accessToken w;
     console := console w; requests := requests w ++ [r] |}.
End Updates.

(** ** The monad of asynchronous computations *)

Inductive Outcome (A : Type) :=
| Ok (a : A)          (* the promise resolves *)
| Throw (e : Error)   (* the promise rejects *)
| Diverge.            (* out of fuel: the loop did not stop *)
Arguments Ok {A} a.
Arguments Throw {A} e.
Arguments Diverge {A}.

Definition M (H : Type) (A : Type) : Type := World H → Outcome A * World H.

Section Monad.
Context {H : Type}.

Definition ret {A} (a : A) : M H A := λ w, (Ok a, w).

Definition bind {A B} (m : M H A) (f : A → M H B) : M H B := λ w,
  match m w with
  | (Ok a, w') => f a w'
  | (Throw e, w') => (Throw e, w')
  | (Diverge, w') => (Diverge, w')
  end.

Definition throw {A} (e : Error) : M H A := λ w, (Throw e, w).

Definition diverge {A} : M H A := λ w, (Diverge, w).

(** [try { m } catch (error) { handler error }] *)
Definition try_catch {A} (m : M H A) (handler : Error → M H A) : M H A := λ w,
  match m w with
  | (Throw e, w') => handler e w'
  | r => r
  end.

Definition get : M H (World H) := λ w, (Ok w, w).
Definition modify (f : World H → World H) : M H unit := λ w, (Ok tt, f w).

(** [console.log] and [console.error] *)
Definition log (l : LogLine) : M H unit := modify (add_console l).

(** Sending request [r]: it is recorded, the host [op] answers. *)
Definition request {A} (r : Request) (op : H → Response A * H) : M H A := λ w,
  let w1 := add_request r w in
  match op (host w1) with
  | (Resolved a, h) => (Ok a, set_host h w1)
  | (Rejected e, h) => (Throw e, set_host h w1)
  end.
End Monad.

Declare Scope prog_scope.
Delimit Scope prog_scope with prog.
Notation "x <- c1 ;; c2" := (bind c1 (λ x, c2))
  (at level 100, c1 at next level, right associativity) : prog_scope.
Notation "c1 ;;; c2" := (bind c1 (λ _, c2))
  (at level 100, right associativity) : prog_scope.

(** ** JavaScript helpers *)

(** [!s] is false for a non-empty string. *)
Definition truthy_string (s : string) : bool := negb (bool_decide (s = ""%string)).

(** Truth value of [process.env.X]: set and not empty. *)
Definition truthy_env (v : option string) : bool :=
  match v with Some s => truthy_string s | None => false end.

(** Truth value of a number that can be [undefined] or [NaN] ([None]). *)
Definition truthy_number (n : option Z) : bool :=
  match n with Some z => negb (z =? 0)%Z | None => false end.

(** [a || b] on a number. *)
Definition number_or (a : option Z) (b : Z) : Z :=
  match a with Some z => if (z =? 0)%Z then b else z | None => b end.

(** [l.slice(i, j)] for [0 <= i <= j]. *)
Definition slice {A} (i j : nat) (l : list A) : list A := take (j - i) (drop i l).

(** The [Map] of JavaScript, keys in order of first insertion. *)
Section JSMap.
Context {V : Type}.

Fixpoint Map_set (k : string) (v : V) (m : list (string * V)) : list (string * V) :=
  match m with
  | [] => [(k, v)]
  | (k', v') :: m' =>
      if decide (k = k') then (k, v) :: m' else (k', v') :: Map_set k v m'
  end.

(** [new Map(entries)] *)
Definition Map_new (entries : list (string * V)) : list (string * V) :=
  fold_left (λ m e, Map_set e.1 e.2 m) entries [].

(** [Array.from(m.values())] *)
Definition Map_values (m : list (string * V)) : list V := map snd m.
End JSMap.

(** ** The accessor: [spotify-client.ts] *)

Section Client.
Context {H : Type} (api : HostApi H).
Local Open Scope prog_scope.

(** [ensureAccessToken()] *)
Definition ensureAccessToken : M H unit :=
  w <- get ;;
  let now := (now w / 1000)%Z in
  if (tokenExpirationTime w >? now + 60)%Z then ret tt
  else
    try_catch
      (data <- request ReqRefreshAccessToken (refreshAccessToken api) ;;
       modify (set_accessToken (access_token data)) ;;;
       let expiresIn := number_or (expires_in data) 3600 in
       modify (set_tokenExpirationTime (now + expiresIn - 300)%Z) ;;;
       log (LogTokenRefreshed expiresIn))
      (λ error, log (LogErrorRefreshing error) ;;; throw error).

(** The [for] loop of [getSourcePlaylistTracks]: the tracks one page
    pushes. *)
Definition sourcePush (items : list PlaylistItem) : list SourceTrack :=
  flat_map (λ item,
    match item_track item with
    | Some t => [ {| addedAt := added_at item; track := t; uri := track_uri t |} ]
    | None => []
    end) items.

(** The [while (hasMoreTracks)] loop of [getSourcePlaylistTracks]; one
    unit of fuel per iteration. *)
Fixpoint sourceLoop (fuel : nat) (sourcePlaylistId : string)
    (tracks : list SourceTrack) (offset : nat) : M H (list SourceTrack) :=
  match fuel with
  | O => diverge
  | S fuel' =>
      let limit := 100 in
      items <- request (ReqGetPlaylistTracks sourcePlaylistId offset limit)
                       (getPlaylistTracks api sourcePlaylistId offset limit) ;;
      let tracks := tracks ++ sourcePush items in
      let offset := offset + limit in
      let hasMoreTracks := length items =? limit in
      if hasMoreTracks then sourceLoop fuel' sourcePlaylistId tracks offset
      else ret tracks
  end.

(** [getSourcePlaylistTracks()] *)
Definition getSourcePlaylistTracks (fuel : nat) : M H (list SourceTrack) :=
  ensureAccessToken ;;;
  w <- get ;;
  match SOURCE_PLAYLIST_ID w with
  | Some sourcePlaylistId =>
      if truthy_string sourcePlaylistId
      then sourceLoop fuel sourcePlaylistId [] 0
      else throw (EnvNotSet "SOURCE_PLAYLIST_ID")
  | None => throw (EnvNotSet "SOURCE_PLAYLIST_ID")
  end.

(** The [for] loop of [getMirrorPlaylistTracks] from index [i] on. *)
Fixpoint mirrorPush (offset i : nat) (items : list PlaylistItem) : list MirrorTrack :=
  match items with
  | [] => []
  | item :: items' =>
      match item_track item with
      | Some t =>
          if truthy_string (track_uri t)
          then {| m_uri := track_uri t; position := offset + i |}
                 :: mirrorPush offset (S i) items'
          else mirrorPush offset (S i) items'
      | None => mirrorPush offset (S i) items'
      end
  end.

(** The [while (hasMoreTracks)] loop of [getMirrorPlaylistTracks]. *)
Fixpoint mirrorLoop (fuel : nat) (mirrorPlaylistId : string)
    (tracks : list MirrorTrack) (offset : nat) : M H (list MirrorTrack) :=
  match fuel with
  | O => diverge
  | S fuel' =>
      let limit := 100 in
      items <- request (ReqGetPlaylistTracks mirrorPlaylistId offset limit)
                       (getPlaylistTracks api mirrorPlaylistId offset limit) ;;
      let tracks := tracks ++ mirrorPush offset 0 items in
      let offset' := offset + limit in
      let hasMoreTracks := length items =? limit in
      if hasMoreTracks then mirrorLoop fuel' mirrorPlaylistId tracks offset'
      else ret tracks
  end.

(** [getMirrorPlaylistTracks()] *)
Definition getMirrorPlaylistTracks (fuel : nat) : M H (list MirrorTrack) :=
  ensureAccessToken ;;;
  w <- get ;;
  match MIRROR_PLAYLIST_ID w with
  | Some mirrorPlaylistId =>
      if truthy_string mirrorPlaylistId
      then mirrorLoop fuel mirrorPlaylistId [] 0
      else throw (EnvNotSet "MIRROR_PLAYLIST_ID")
  | None => throw (EnvNotSet "MIRROR_PLAYLIST_ID")
  end.

(** The [for (let i = 0; i < trackUris.length; i += chunkSize)] loop of
    [addTracksToMirrorPlaylist], from [i] on. *)
Fixpoint addLoop (fuel : nat) (mirrorPlaylistId : string)
    (trackUris : list string) (pos : option nat) (i : nat) : M H unit :=
  let chunkSize := 100 in
  if i <? length trackUris then
    match fuel with
    | O => diverge
    | S fuel' =>
        let chunk := slice i (i + chunkSize) trackUris in
        let p := match pos with Some p => Some (p + i) | None => None end in
        request (ReqAddTracksToPlaylist mirrorPlaylistId chunk p)
                (addTracksToPlaylist api mirrorPlaylistId chunk p) ;;;
        addLoop fuel' mirrorPlaylistId trackUris pos (i + chunkSize)
    end
  else ret tt.

(** [addTracksToMirrorPlaylist(trackUris, position)] *)
Definition addTracksToMirrorPlaylist (trackUris : list string) (pos : option nat)
    : M H unit :=
  if length trackUris =? 0 then ret tt
  else
    ensureAccessToken ;;;
    w <- get ;;
    match MIRROR_PLAYLIST_ID w with
    | Some mirrorPlaylistId =>
        if truthy_string mirrorPlaylistId
        then addLoop (length trackUris) mirrorPlaylistId trackUris pos 0
        else throw (EnvNotSet "MIRROR_PLAYLIST_ID")
    | None => throw (EnvNotSet "MIRROR_PLAYLIST_ID")
    end.

(** The chunk loop of [removeTracksFromMirrorPlaylist], from [i] on; the
    objects [{ uri }] sent to the host are their [uri]. *)
Fixpoint removeLoop (fuel : nat) (mirrorPlaylistId : string)
    (tracks : list string) (i : nat) : M H unit :=
  let chunkSize := 100 in
  if i <? length tracks then
    match fuel with
    | O => diverge
    | S fuel' =>
        let chunk := slice i (i + chunkSize) tracks in
        request (ReqRemoveTracksFromPlaylist mirrorPlaylistId chunk)
                (removeTracksFromPlaylist api mirrorPlaylistId chunk) ;;;
        removeLoop fuel' mirrorPlaylistId tracks (i + chunkSize)
    end
  else ret tt.

(** [removeTracksFromMirrorPlaylist(trackUris)] *)
Definition removeTracksFromMirrorPlaylist (trackUris : list string) : M H unit :=
  if length trackUris =? 0 then ret tt
  else
    ensureAccessToken ;;;
    w <- get ;;
    match MIRROR_PLAYLIST_ID w with
    | Some mirrorPlaylistId =>
        if truthy_string mirrorPlaylistId
        then removeLoop (length trackUris) mirrorPlaylistId trackUris 0
        else throw (EnvNotSet "MIRROR_PLAYLIST_ID")
    | None => throw (EnvNotSet "MIRROR_PLAYLIST_ID")
    end.

(** The [for] loop of [getRecentlyPlayedTracks]: the events one page
    pushes. *)
Definition playedPush (items : list PlayHistory) : list PlayedTrack :=
  flat_map (λ item,
    match ph_track item, played_at item with
    | Some t, Some at_ => [ {| p_uri := track_uri t; playedAt := at_ |} ]
    | _, _ => []
    end) items.

(** The [while] loop of [getRecentlyPlayedTracks]. The state of the loop
    is [tracks], [beforeTimestamp] ([None] when undefined or [NaN]),
    [moreTracksAvailable] and [requestCount]. *)
Fixpoint playedLoop (fuel : nat) (tracks : list PlayedTrack)
    (beforeTimestamp : option Z) (moreTracksAvailable : bool)
    (requestCount : nat) : M H (list PlayedTrack) :=
  if moreTracksAvailable && (length tracks <? 100) && (requestCount <? 3) then
    match fuel with
    | O => diverge
    | S fuel' =>
        let limit := 50 in
        let requestCount := S requestCount in
        let before :=
          if truthy_number beforeTimestamp then beforeTimestamp else None in
        log (LogMakingRequest requestCount) ;;;
        items <- request (ReqGetMyRecentlyPlayedTracks limit before)
                         (getMyRecentlyPlayedTracks api limit before) ;;
        if length items =? 0 then
          playedLoop fuel' tracks beforeTimestamp false requestCount
        else
          let tracks := tracks ++ playedPush items in
          if (0 <? length items) && (length tracks <? 100) then
            let oldestPlayedAt := last items ≫= played_at in
            log (LogRetrievedSoFar (length tracks)) ;;;
            playedLoop fuel' tracks oldestPlayedAt moreTracksAvailable requestCount
          else
            log (LogRetrievedSoFar (length tracks)) ;;;
            playedLoop fuel' tracks beforeTimestamp false requestCount
    end
  else ret tracks.

(** [Array.from(new Map(tracks.map(track => [track.uri, track])).values())] *)
Definition uniqueTracks (tracks : list PlayedTrack) : list PlayedTrack :=
  Map_values (Map_new (map (λ track, (p_uri track, track)) tracks)).

(** [getRecentlyPlayedTracks()]; the loop makes at most 3 requests. *)
Definition getRecentlyPlayedTracks : M H (list PlayedTrack) :=
  ensureAccessToken ;;;
  try_catch
    (tracks <- playedLoop 3 [] None true 0 ;;
     let uniqueTracks := uniqueTracks tracks in
     log (LogRetrievedUnique (length uniqueTracks)) ;;;
     ret uniqueTracks)
    (λ error, log (LogErrorRetrieving error) ;;; throw error).

End Client.

(** ** The engine: [playlist-sync.ts] *)

(** [Array.prototype.sort] with comparator [cmp]: a stable sort. It is
    modelled as an insertion sort that places each element before the first
    element it does not have to follow. *)
Section JSSort.
Context {A : Type} (cmp : A → A → Z).

Fixpoint sort_insert (x : A) (l : list A) : list A :=
  match l with
  | [] => [x]
  | y :: l' => if (cmp x y >? 0)%Z then y :: sort_insert x l' else x :: l
  end.

Definition js_sort (l : list A) : list A := foldr sort_insert [] l.
End JSSort.

(** The values the engine computes from the three fetched arrays; each
    definition has the name of the constant of [syncMirrorPlaylist]. *)
Section Decision.
Variables (tz nw : Z).                        (* time zone, [new Date()] *)
Variable sourceTracks : list SourceTrack.
Variable recentlyPlayedTracks : list PlayedTrack.
Variable mirrorTracks : list MirrorTrack.

Definition tracksWithinLastYear : list SourceTrack :=
  List.filter (λ track, isAddedWithinLastYear tz nw (addedAt track)) sourceTracks.

Definition recentlyPlayedUris : gset string :=
  list_to_set
    (map p_uri
       (List.filter (λ track, isPlayedRecentlyWithinLockPeriod tz nw (playedAt track))
                    recentlyPlayedTracks)).

Definition eligibleTracks : list SourceTrack :=
  List.filter (λ track, negb (bool_decide (uri track ∈ recentlyPlayedUris)))
              tracksWithinLastYear.

Definition currentMirrorUris : gset string := list_to_set (map m_uri mirrorTracks).
Definition shouldBeInMirrorUris : gset string := list_to_set (map uri eligibleTracks).

Definition tracksToAdd : list SourceTrack :=
  List.filter (λ track, negb (bool_decide (uri track ∈ currentMirrorUris)))
              eligibleTracks.

Definition tracksToRemove : list MirrorTrack :=
  List.filter (λ track, negb (bool_decide (m_uri track ∈ shouldBeInMirrorUris)))
              mirrorTracks.

(** The condition of the [if]: changes detected. *)
Definition changesDetected : bool :=
  (0 <? length tracksToAdd) || (0 <? length tracksToRemove).

Definition allCurrentUris : list string := map m_uri mirrorTracks.

Definition sortedTracks : list SourceTrack :=
  js_sort (λ a b, (addedAt b - addedAt a)%Z) eligibleTracks.

Definition urisInOrder : list string := map uri sortedTracks.
End Decision.

Section Engine.
Context {H : Type} (api : HostApi H).
Local Open Scope prog_scope.

(** The loop that adds [urisInOrder] in chunks of 100, from [i] on. *)
Fixpoint syncAddLoop (fuel : nat) (urisInOrder : list string) (i : nat) : M H unit :=
  let chunkSize := 100 in
  if i <? length urisInOrder then
    match fuel with
    | O => diverge
    | S fuel' =>
        let chunk := slice i (i + chunkSize) urisInOrder in
        addTracksToMirrorPlaylist api chunk None ;;;
        (if (i mod 100 =? 0) || (length urisInOrder <=? i + chunkSize)
         then log (LogAdded (Nat.min (i + chunkSize) (length urisInOrder))
                            (length urisInOrder))
         else ret tt) ;;;
        syncAddLoop fuel' urisInOrder (i + chunkSize)
    end
  else ret tt.

(** [syncMirrorPlaylist()]; [fuel] bounds the iterations of each of the
    two pagination loops. *)
Definition syncMirrorPlaylist (fuel : nat) : M H unit :=
  try_catch
    (log LogStarting ;;;
     sourceTracks <- getSourcePlaylistTracks api fuel ;;
     log (LogFoundSource (length sourceTracks)) ;;;
     w <- get ;;
     let tz := tza w in
     let nw := now w in
     log (LogWithinLastYear (length (tracksWithinLastYear tz nw sourceTracks))) ;;;
     recentlyPlayedTracks <- getRecentlyPlayedTracks api ;;
     log (LogFoundRecentlyPlayed (length recentlyPlayedTracks)) ;;;
     let recentlyPlayedUris := recentlyPlayedUris tz nw recentlyPlayedTracks in
     log (LogInLockPeriod (size recentlyPlayedUris)) ;;;
     mirrorTracks <- getMirrorPlaylistTracks api fuel ;;
     log (LogFoundMirror (length mirrorTracks)) ;;;
     let eligibleTracks := eligibleTracks tz nw sourceTracks recentlyPlayedTracks in
     log (LogEligible (length eligibleTracks)) ;;;
     (if changesDetected tz nw sourceTracks recentlyPlayedTracks mirrorTracks then
        log LogChangesDetected ;;;
        let allCurrentUris := allCurrentUris mirrorTracks in
        (if 0 <? length allCurrentUris then
           log LogRemovingAll ;;;
           removeTracksFromMirrorPlaylist api allCurrentUris
         else ret tt) ;;;
        log LogAddingNewestFirst ;;;
        let urisInOrder := urisInOrder tz nw sourceTracks recentlyPlayedTracks in
        syncAddLoop (length urisInOrder) urisInOrder 0 ;;;
        log LogPlaylistUpdated ;;;
        (if 0 <? size recentlyPlayedUris
         then log (LogExcluded (size recentlyPlayedUris))
         else ret tt)
      else log LogNoChanges) ;;;
     log LogCompleted)
    (λ error, log (LogErrorSyncing error) ;;; throw error).
End Engine.

(** ** The start of the process: [index.ts] and the top of [spotify-client.ts] *)

(** [process.env], once [dotenv.config()] has read the [.env] file. *)
Definition Env := gmap string string.

(** [!process.env[envVar]] *)
Definition not_set (env : Env) (envVar : string) : bool :=
  negb (truthy_env (env !! envVar)).

(** [for (const envVar of requiredEnvVars) { if (!process.env[envVar]) ... }]:
    the variable the body of the [if] is run for, which leaves the loop. *)
Fixpoint firstNotSet (env : Env) (requiredEnvVars : list string) : option string :=
  match requiredEnvVars with
  | [] => None
  | envVar :: rest => if not_set env envVar then Some envVar else firstNotSet env rest
  end.

(** The top of [spotify-client.ts], run when the module is imported. *)
Module ClientModule.
Definition requiredEnvVars : list string :=
  ["CLIENT_ID"; "CLIENT_SECRET"; "REFRESH_TOKEN"; "USER_ID"]%string.

(** The variable named by the [Error] the import throws. *)
Definition load (env : Env) : option string := firstNotSet env requiredEnvVars.
End ClientModule.

Module Index.
Definition requiredEnvVars : list string :=
  ["CLIENT_ID"; "CLIENT_SECRET"; "REFRESH_TOKEN"; "SOURCE_PLAYLIST_ID";
   "MIRROR_PLAYLIST_ID"; "USER_ID"]%string.

(** How the process starts: the import of the client throws, naming a
    variable; or [index.ts] prints that a variable is missing and calls
    [process.exit(1)]; or the first run and the schedule are started. *)
Inductive Startup :=
| ImportThrows (envVar : string)
| Exits (code : nat) (envVar : string)
| Starts.

(** The imports run first, then the loop of [index.ts]. *)
Definition startup (env : Env) : Startup :=
  match ClientModule.load env with
  | Some envVar => ImportThrows envVar
  | None =>
      match firstNotSet env requiredEnvVars with
      | Some envVar => Exits 1 envVar
      | None => Starts
      end
  end.

(** The world of the process when the first run starts. *)
Definition process {H} (env : Env) (h : H) (now tza : Z) : World H :=
  {| host := h; now := now; tza := tza;
     SOURCE_PLAYLIST_ID := env !! "SOURCE_PLAYLIST_ID"%string;
     MIRROR_PLAYLIST_ID := env !! "MIRROR_PLAYLIST_ID"%string;
     tokenExpirationTime := 0; accessToken := None;
     console := []; requests := [] |}.
End Index.

(** ** A model of the host service

    The host is not code of the repository.  In this model the playlists
    are lists of entries and the play history is a list of events, newest
    first.  A page is the slice of a playlist from the offset on; adding
    appends the tracks (or inserts them at the position given), removing
    takes away every entry that holds one of the tracks; the play history is
    served newest first, restricted to the events before the timestamp
    given, at most 50 at a time.  A request fails when the head of [faults]
    says so; an unknown playlist and a batch of more than 100 items are
    refused.  The access token is not checked. *)
Module Spotify.

Record State := {
  playlists : gmap string (list PlaylistItem);
  history : list PlayHistory;
  clock : Z;                  (* stamps the entries the host adds *)
  faults : list bool          (* per coming request: does it fail *)
}.

Definition set_playlists (p : gmap string (list PlaylistItem)) (s : State) : State :=
  {| playlists := p; history := history s; clock := clock s; faults := faults s |}.

Definition set_faults (f : list bool) (s : State) : State :=
  {| playlists := playlists s; history := history s; clock := clock s; faults := f |}.

(** One request: it consumes the head of [faults]. *)
Definition answering {A} (op : State → Response A * State) (s : State)
    : Response A * State :=
  match faults s with
  | true :: f => (Rejected (ApiError 500), set_faults f s)
  | false :: f => op (set_faults f s)
  | [] => op s
  end.

Definition new_item (at_ : Z) (u : string) : PlaylistItem :=
  {| added_at := at_; item_track := Some {| track_uri := u |} |}.

(** Does entry [item] hold one of the tracks [uris]. *)
Definition holds (uris : list string) (item : PlaylistItem) : bool :=
  match item_track item with
  | Some t => bool_decide (track_uri t ∈ uris)
  | None => false
  end.

Definition played_before (before : option Z) (e : PlayHistory) : bool :=
  match before, played_at e with
  | Some b, Some t => (t <? b)%Z
  | _, _ => true
  end.

Definition refresh (s : State) : Response TokenResponse * State :=
  (Resolved {| access_token := "token"; expires_in := Some 3600%Z |}, s).

(** A page: [limit] entries from [offset] on. *)
Definition page (id : string) (offset limit : nat) (s : State)
    : Response (list PlaylistItem) * State :=
  match playlists s !! id with
  | Some items => (Resolved (take limit (drop offset items)), s)
  | None => (Rejected (ApiError 404), s)
  end.

(** Adding: at position [pos], at the end without one. *)
Definition add (id : string) (uris : list string) (pos : option nat) (s : State)
    : Response unit * State :=
  match playlists s !! id with
  | Some items =>
      if 100 <? length uris then (Rejected (ApiError 400), s)
      else
        let p := match pos with Some p => p | None => length items end in
        (Resolved tt,
         set_playlists
           (<[id := take p items ++ map (new_item (clock s)) uris ++ drop p items]>
              (playlists s)) s)
  | None => (Rejected (ApiError 404), s)
  end.

(** Removing: every entry that holds one of the tracks goes. *)
Definition remove (id : string) (uris : list string) (s : State)
    : Response unit * State :=
  match playlists s !! id with
  | Some items =>
      if 100 <? length uris then (Rejected (ApiError 400), s)
      else
        (Resolved tt,
         set_playlists
           (<[id := List.filter (λ item, negb (holds uris item)) items]>
              (playlists s)) s)
  | None => (Rejected (ApiError 404), s)
  end.

(** The events played before [before], newest first, at most 50. *)
Definition recent (limit : nat) (before : option Z) (s : State)
    : Response (list PlayHistory) * State :=
  (Resolved (take (Nat.min limit 50) (List.filter (played_before before) (history s))),
   s).

Definition api : HostApi State := {|
  refreshAccessToken := answering refresh;
  getPlaylistTracks id offset limit := answering (page id offset limit);
  addTracksToPlaylist id uris pos := answering (add id uris pos);
  removeTracksFromPlaylist id uris := answering (remove id uris);
  getMyRecentlyPlayedTracks limit before := answering (recent limit before)
|}.

(** A world around a host state: a process that just started. *)
Definition world (s : State) (now tza : Z) (src mir : string) : World State :=
  {| host := s; now := now; tza := tza;
     SOURCE_PLAYLIST_ID := Some src; MIRROR_PLAYLIST_ID := Some mir;
     tokenExpirationTime := 0; accessToken := None;
     console := []; requests := [] |}.

(** The entries of playlist [id], none when it does not exist. *)
Definition playlist (id : string) (s : State) : list PlaylistItem :=
  default [] (playlists s !! id).

(** The URIs of the entries of a playlist, in order. *)
Definition uris_of (items : list PlaylistItem) : list (option string) :=
  map (λ item, track_uri <$> item_track item) items.

End Spotify.

(** ** Models, relations and measures of the properties

    What follows is not code of the repository: the relations between
    worlds, the functions that say what a run fetches and decides, a second
    host that answers from a script, and the example worlds. *)

(** *** Reasoning about computations *)

(** Properties every step of a computation keeps.  [R w w'] relates the
    world before to the world after.  [ReadFrame] says that the elementary
    steps of the client other than the two write requests are in [R];
    [WriteFrame] adds the write requests. *)
Class ReadFrame {H : Type} (api : HostApi H) (R : World H → World H → Prop) := {
  R_refl : ∀ w, R w w;
  R_trans : ∀ w1 w2 w3, R w1 w2 → R w2 w3 → R w1 w3;
  R_console : ∀ l w, R w (add_console l w);
  R_accessToken : ∀ t w, R w (set_accessToken t w);
  R_tokenExpirationTime : ∀ t w, R w (set_tokenExpirationTime t w);
  R_refresh : ∀ w r h,
    refreshAccessToken api (host w) = (r, h) →
    R w (set_host h (add_request ReqRefreshAccessToken w));
  R_getPlaylistTracks : ∀ w id o l r h,
    getPlaylistTracks api id o l (host w) = (r, h) →
    R w (set_host h (add_request (ReqGetPlaylistTracks id o l) w));
  R_getMyRecentlyPlayedTracks : ∀ w l b r h,
    getMyRecentlyPlayedTracks api l b (host w) = (r, h) →
    R w (set_host h (add_request (ReqGetMyRecentlyPlayedTracks l b) w))
}.

Class WriteFrame {H : Type} (api : HostApi H) (R : World H → World H → Prop) := {
  R_addTracksToPlaylist : ∀ w id us p r h,
    addTracksToPlaylist api id us p (host w) = (r, h) →
    R w (set_host h (add_request (ReqAddTracksToPlaylist id us p) w));
  R_removeTracksFromPlaylist : ∀ w id us r h,
    removeTracksFromPlaylist api id us (host w) = (r, h) →
    R w (set_host h (add_request (ReqRemoveTracksFromPlaylist id us) w))
}.

(** A computation is in [R]: whatever its outcome, [R] relates the world
    before to the world after. *)
Definition preserves {H A} (R : World H → World H → Prop) (m : M H A) : Prop :=
  ∀ w r w', m w = (r, w') → R w w'.

(** *** Frames that hold for every host *)

(** The clock, the time zone and the environment are only read. *)
Definition same_env {H} (w w' : World H) : Prop :=
  now w' = now w ∧ tza w' = tza w ∧
  SOURCE_PLAYLIST_ID w' = SOURCE_PLAYLIST_ID w ∧
  MIRROR_PLAYLIST_ID w' = MIRROR_PLAYLIST_ID w.

(** The console only grows. *)
Definition logs_more {H} (w w' : World H) : Prop :=
  ∃ l, console w' = console w ++ l.

(** No write request is sent. *)
Definition no_write {H} (w w' : World H) : Prop :=
  writes (requests w') = writes (requests w).

(** *** Frames of the host model *)

(** Requests never change the play history or the clock of the host. *)
Definition same_history (w w' : World Spotify.State) : Prop :=
  Spotify.history (host w') = Spotify.history (host w) ∧
  Spotify.clock (host w') = Spotify.clock (host w).

(** Read requests leave the playlists as they are. *)
Definition same_playlists (w w' : World Spotify.State) : Prop :=
  Spotify.playlists (host w') = Spotify.playlists (host w).

(** *** What the accessor returns on the host model *)

(** What a fetch keeps: everything but the token, the console, the faults
    still to come and the read requests sent. *)
Definition read_only (w w' : World Spotify.State) : Prop :=
  same_env w w' ∧ (same_history w w' ∧ (same_playlists w w' ∧ no_write w w')).

(** The play history the client collects, as a function of the history of
    the host: the loop of [getRecentlyPlayedTracks] with the pages of the
    host model. *)
Fixpoint playedPages (fuel : nat) (history : list PlayHistory)
    (tracks : list PlayedTrack) (beforeTimestamp : option Z)
    (moreTracksAvailable : bool) (requestCount : nat) : list PlayedTrack :=
  if moreTracksAvailable && (length tracks <? 100) && (requestCount <? 3) then
    match fuel with
    | O => tracks
    | S fuel' =>
        let before := if truthy_number beforeTimestamp then beforeTimestamp else None in
        let items := take 50 (List.filter (Spotify.played_before before) history) in
        if length items =? 0 then
          playedPages fuel' history tracks beforeTimestamp false (S requestCount)
        else
          let tracks := tracks ++ playedPush items in
          if (0 <? length items) && (length tracks <? 100) then
            playedPages fuel' history tracks (last items ≫= played_at)
                        moreTracksAvailable (S requestCount)
          else playedPages fuel' history tracks beforeTimestamp false (S requestCount)
    end
  else tracks.

(** What [getRecentlyPlayedTracks] returns on the host model. *)
Definition recentlyPlayed (history : list PlayHistory) : list PlayedTrack :=
  uniqueTracks (playedPages 3 history [] None true 0).

(** *** What the write operations do on the host model *)

(** The batches of the chunk loops: [l.slice(i, i + 100)] for
    [i = 0, 100, ...] while [i < l.length]. *)
Fixpoint chunksFrom {A} (fuel : nat) (l : list A) (i : nat) : list (list A) :=
  if i <? length l then
    match fuel with
    | O => []
    | S fuel' => slice i (i + 100) l :: chunksFrom fuel' l (i + 100)
    end
  else [].

Definition chunks {A} (l : list A) : list (list A) := chunksFrom (length l) l 0.

(** What a computation with write requests keeps. *)
Definition env_kept (w w' : World Spotify.State) : Prop :=
  same_env w w' ∧ same_history w w'.

(** The effect of a sequence of write requests on playlist [id]: its
    entries become [items'], the other playlists stay, the requests [rs]
    are the write requests sent. *)
Definition rewrites (id : string) (f : list PlaylistItem → list PlaylistItem)
    (rs : list Request) (w w' : World Spotify.State) : Prop :=
  Spotify.playlist id (host w') = f (Spotify.playlist id (host w)) ∧
  (∀ id', id' ≠ id →
     Spotify.playlists (host w') !! id' = Spotify.playlists (host w) !! id') ∧
  writes (requests w') = writes (requests w) ++ rs.

(** *** What one run of the engine does on the host model *)

(** The three arrays a run fetches, as functions of the world. *)
Definition fetchedSource (src : string) (w : World Spotify.State) : list SourceTrack :=
  sourcePush (Spotify.playlist src (host w)).

Definition fetchedPlayed (w : World Spotify.State) : list PlayedTrack :=
  recentlyPlayed (Spotify.history (host w)).

Definition fetchedMirror (mir : string) (w : World Spotify.State) : list MirrorTrack :=
  mirrorPush 0 0 (Spotify.playlist mir (host w)).

(** The decision of the run and the list it wants in the mirror. *)
Definition rebuilds (src mir : string) (w : World Spotify.State) : bool :=
  changesDetected (tza w) (now w) (fetchedSource src w) (fetchedPlayed w)
                  (fetchedMirror mir w).

Definition desired (src : string) (w : World Spotify.State) : list string :=
  urisInOrder (tza w) (now w) (fetchedSource src w) (fetchedPlayed w).

(** The write requests of a rebuild. *)
Definition rebuildRequests (src mir : string) (w : World Spotify.State) : list Request :=
  map (ReqRemoveTracksFromPlaylist mir) (chunks (allCurrentUris (fetchedMirror mir w)))
  ++ map (λ c, ReqAddTracksToPlaylist mir c None) (chunks (desired src w)).

(** The entries of the mirror after a rebuild. *)
Definition rebuilt (src mir : string) (w : World Spotify.State)
    (items : list PlaylistItem) : list PlaylistItem :=
  List.filter (λ item, negb (Spotify.holds (allCurrentUris (fetchedMirror mir w)) item))
              items
  ++ map (Spotify.new_item (Spotify.clock (host w))) (desired src w).

(** *** The sort and the decision of the engine *)

(** Newest first: every track is at least as recent as the ones after it. *)
Definition newest_first (l : list SourceTrack) : Prop :=
  StronglySorted (λ a b, (addedAt b ≤ addedAt a)%Z) l.

Definition by_addedAt_desc (a b : SourceTrack) : Z := (addedAt b - addedAt a)%Z.

(** *** The entries of the mirror the client can see *)

(** The client only sees an entry that has a track with a non-empty URI. *)
Definition fetchable (item : PlaylistItem) : bool :=
  match item_track item with
  | Some t => truthy_string (track_uri t)
  | None => false
  end.


(** No track of the entries has an empty URI. *)
Definition uris_nonempty (items : list PlaylistItem) : Prop :=
  ∀ item t, item ∈ items → item_track item = Some t → track_uri t ≠ ""%string.

(** *** Example worlds *)

Module Examples.
Definition day : Z := 86400000.

(** The clock of the examples: 2026-11-02T00:00:00Z. *)
Definition today : Z := 1793577600000.

(** An entry with track [u], added [ago] days ago. *)
Definition entry (u : string) (ago : Z) : PlaylistItem :=
  {| added_at := today - ago * day; item_track := Some {| track_uri := u |} |}.

(** Track [u] was played [ago] days ago. *)
Definition played (u : string) (ago : Z) : PlayHistory :=
  {| ph_track := Some {| track_uri := u |}; played_at := Some (today - ago * day)%Z |}.

Definition service (source mirror : list PlaylistItem) (history : list PlayHistory)
    (faults : list bool) : Spotify.State :=
  {| Spotify.playlists := {[ "source"%string := source; "mirror"%string := mirror ]};
     Spotify.history := history;
     Spotify.clock := today;
     Spotify.faults := faults |}.

(** The world of a process that starts on [s], in UTC. *)
Definition start (s : Spotify.State) : World Spotify.State :=
  Spotify.world s today 0 "source" "mirror".

(** The mirror after a run. *)
Definition mirror_after (r : Outcome unit * World Spotify.State) : list (option string) :=
  Spotify.uris_of (Spotify.playlist "mirror" (host r.2)).

(** The example of the specification: A added 400 days ago, B 10 days
    ago and played yesterday, C 2 days ago; the mirror holds A. *)
Definition spec_example : World Spotify.State :=
  start (service [entry "A" 400; entry "B" 10; entry "C" 2] [entry "A" 0]
                 [played "B" 1] []).

(** The mirror holds the wanted tracks in the wrong order. *)
Definition misordered : World Spotify.State :=
  start (service [entry "A" 2; entry "B" 1] [entry "A" 0; entry "B" 0] [] []).

(** The source holds track A twice. *)
Definition twice : World Spotify.State :=
  start (service [entry "A" 2; entry "A" 1] [] [] []).
End Examples.

(** *** Failure of a fetch *)

(** The worlds in which the engine starts its second and third fetch: the
    console has the lines printed since the fetch before. *)
Definition after_source {H} (sourceTracks : list SourceTrack) (w1 : World H) : World H :=
  add_console
    (LogWithinLastYear (length (tracksWithinLastYear (tza w1) (now w1) sourceTracks)))
    (add_console (LogFoundSource (length sourceTracks)) w1).

Definition after_played {H} (tz nw : Z) (played : list PlayedTrack) (w2 : World H)
    : World H :=
  add_console
    (LogInLockPeriod (size (recentlyPlayedUris tz nw played)))
    (add_console (LogFoundRecentlyPlayed (length played)) w2).

(** One of the three fetches of a run from [w] throws [e], in world [wf]. *)
Inductive FetchFails {H} (api : HostApi H) (fuel : nat) (w : World H)
    (e : Error) (wf : World H) : Prop :=
| SourceFetchFails :
    getSourcePlaylistTracks api fuel (add_console LogStarting w) = (Throw e, wf) →
    FetchFails api fuel w e wf
| PlayedFetchFails sourceTracks w1 :
    getSourcePlaylistTracks api fuel (add_console LogStarting w) = (Ok sourceTracks, w1) →
    getRecentlyPlayedTracks api (after_source sourceTracks w1) = (Throw e, wf) →
    FetchFails api fuel w e wf
| MirrorFetchFails sourceTracks w1 played w2 :
    getSourcePlaylistTracks api fuel (add_console LogStarting w) = (Ok sourceTracks, w1) →
    getRecentlyPlayedTracks api (after_source sourceTracks w1) = (Ok played, w2) →
    getMirrorPlaylistTracks api fuel (after_played (tza w1) (now w1) played w2)
      = (Throw e, wf) →
    FetchFails api fuel w e wf.

(** What the three fetches keep on the host model. *)
Definition nothing_written (w w' : World Spotify.State) : Prop :=
  no_write w w' ∧ same_playlists w w'.

(** The example of the specification on a host that refuses the fifth
    request, the page of the mirror. *)
Definition mirror_page_refused : World Spotify.State :=
  Examples.start
    (Examples.service
       [Examples.entry "A" 400; Examples.entry "B" 10; Examples.entry "C" 2]
       [Examples.entry "A" 0] [Examples.played "B" 1]
       [false; false; false; false; true]).

(** *** Duplicates in the play history *)

(** Newest first, as the host returns the play history. *)
Definition newest_played_first (tracks : list PlayedTrack) : Prop :=
  StronglySorted (λ a b, (playedAt b ≤ playedAt a)%Z) tracks.

(** The specification wants the most recent event of a track to decide.
    Track A was played 1 day ago and 6 days ago: the accessor returns the
    event of 6 days ago, no track is locked, and A, played yesterday, is
    put in the mirror. *)
Definition played_twice : World Spotify.State :=
  Examples.start
    (Examples.service [Examples.entry "A" 10] []
       [Examples.played "A" 1; Examples.played "A" 6] []).

(** *** Hosts that answer from a script *)

(** The answers of the host are fixed in advance: the [n]-th page request
    gets [pages n], the [n]-th play history request gets [plays n]; the
    other requests are accepted. *)
Module Scripted.

Record State := {
  pages : nat → Response (list PlaylistItem);
  plays : nat → Response (list PlayHistory);
  asked_pages : nat;
  asked_plays : nat
}.

Definition next_page (s : State) : Response (list PlaylistItem) * State :=
  (pages s (asked_pages s),
   {| pages := pages s; plays := plays s;
      asked_pages := S (asked_pages s); asked_plays := asked_plays s |}).

Definition next_plays (s : State) : Response (list PlayHistory) * State :=
  (plays s (asked_plays s),
   {| pages := pages s; plays := plays s;
      asked_pages := asked_pages s; asked_plays := S (asked_plays s) |}).

Definition api : HostApi State := {|
  refreshAccessToken s :=
    (Resolved {| access_token := "token"; expires_in := Some 3600%Z |}, s);
  getPlaylistTracks _ _ _ := next_page;
  addTracksToPlaylist _ _ _ s := (Resolved tt, s);
  removeTracksFromPlaylist _ _ s := (Resolved tt, s);
  getMyRecentlyPlayedTracks _ _ := next_plays
|}.

(** The script of a list of answers; empty pages after them. *)
Definition script {A} (l : list (Response (list A))) (n : nat) : Response (list A) :=
  default (Resolved []) (l !! n).

(** The pages of a host that serves the entries [items], 100 a page. *)
Definition serving (items : list PlaylistItem) (n : nat) : Response (list PlaylistItem) :=
  Resolved (take 100 (drop (100 * n) items)).

(** A process that starts on a scripted host. *)
Definition world (pages : nat → Response (list PlaylistItem))
    (plays : nat → Response (list PlayHistory)) : World State :=
  {| host := {| pages := pages; plays := plays; asked_pages := 0; asked_plays := 0 |};
     now := 0; tza := 0;
     SOURCE_PLAYLIST_ID := Some "source"%string;
     MIRROR_PLAYLIST_ID := Some "mirror"%string;
     tokenExpirationTime := 0; accessToken := None;
     console := []; requests := [] |}.

End Scripted.

(** The page requests among the requests sent. *)
Definition page_requests (rs : list Request) : list Request :=
  List.filter (λ r, match r with ReqGetPlaylistTracks _ _ _ => true | _ => false end) rs.

(** The requests of [n] pages from page [first] on. *)
Definition pages_asked (id : string) (first n : nat) : list Request :=
  map (λ j, ReqGetPlaylistTracks id (100 * j) 100) (seq first n).

(** The pages tracks are pushed from: pages [n] to [k]. *)
Definition pushed_source (ps : nat → list PlaylistItem) (n k : nat) : list SourceTrack :=
  flat_map (λ j, sourcePush (ps j)) (seq n (S k - n)).

Definition pushed_mirror (ps : nat → list PlaylistItem) (n k : nat) : list MirrorTrack :=
  flat_map (λ j, mirrorPush (100 * j) 0 (ps j)) (seq n (S k - n)).

(** The pages of a host that serves a playlist, put together. *)
Definition served (items : list PlaylistItem) (j : nat) : list PlaylistItem :=
  take 100 (drop (100 * j) items).

(** *** Partial results of the play history *)


(** *** What a run returns and what it prints *)

(** The result the specification describes. *)
Record SyncResult := {
  fetched : nat; eligible : nat; locked : nat;
  added : nat; removed : nat; rebuild : bool
}.

(** The counts of a run from [w], as the specification lists them. *)
Definition counts (src mir : string) (w : World Spotify.State) : SyncResult :=
  {| fetched := length (fetchedSource src w);
     eligible := length (eligibleTracks (tza w) (now w) (fetchedSource src w)
                                        (fetchedPlayed w));
     locked := size (recentlyPlayedUris (tza w) (now w) (fetchedPlayed w));
     added := if rebuilds src mir w then length (desired src w) else 0;
     removed := if rebuilds src mir w then length (fetchedMirror mir w) else 0;
     rebuild := rebuilds src mir w |}.

(** The lines a run prints between its fetches. *)
Definition printed (src mir : string) (w : World Spotify.State)
    (l1 l2 l3 l4 : list LogLine) : list LogLine :=
  [LogStarting] ++ l1
  ++ [LogFoundSource (length (fetchedSource src w));
      LogWithinLastYear
        (length (tracksWithinLastYear (tza w) (now w) (fetchedSource src w)))]
  ++ l2
  ++ [LogFoundRecentlyPlayed (length (fetchedPlayed w));
      LogInLockPeriod (size (recentlyPlayedUris (tza w) (now w) (fetchedPlayed w)))]
  ++ l3
  ++ [LogFoundMirror (length (fetchedMirror mir w));
      LogEligible
        (length (eligibleTracks (tza w) (now w) (fetchedSource src w) (fetchedPlayed w)))]
  ++ (if rebuilds src mir w then LogChangesDetected :: l4 else [LogNoChanges])
  ++ [LogCompleted].

(** *** A run on a host without faults ends *)

(** A host that answers every request: no fault is scheduled. *)
Definition faultless (w : World Spotify.State) : Prop := Spotify.faults (host w) = [].

(** No fault appears and no playlist disappears. *)
Definition keeps_up (w w' : World Spotify.State) : Prop :=
  (faultless w → faultless w') ∧
  (∀ id, is_Some (Spotify.playlists (host w) !! id) →
         is_Some (Spotify.playlists (host w') !! id)).

(** What every step keeps on a faultless host. *)
Definition sound (w w' : World Spotify.State) : Prop := keeps_up w w' ∧ same_env w w'.

(** The facts an accessor call needs and the next call finds again. *)
Record Ready (src mir : string) (w : World Spotify.State) : Prop := {
  ready_faultless : faultless w;
  ready_source : SOURCE_PLAYLIST_ID w = Some src;
  ready_mirror : MIRROR_PLAYLIST_ID w = Some mir;
  ready_source_id : src ≠ ""%string;
  ready_mirror_id : mir ≠ ""%string;
  ready_source_playlist : is_Some (Spotify.playlists (host w) !! src);
  ready_mirror_playlist : is_Some (Spotify.playlists (host w) !! mir)
}.

(** *** The desired state, in the words of the specification *)

Module Spec.

(** [RETENTION_WINDOW], one year: the time from the same date and time of
    day of the year before to [now], in local time (from the first of March
    when [now] is on the 29th of February). *)
Definition RETENTION_WINDOW (tz nw : Z) : Z :=
  let '(y, m, d) := JSDate.civil_from_days (JSDate.Day (nw + tz)) in
  ((JSDate.days_from_civil y m d - JSDate.days_from_civil (y - 1) m d)
   * JSDate.msPerDay)%Z.

(** [COOLDOWN_WINDOW], five days. *)
Definition COOLDOWN_WINDOW : Z := (5 * JSDate.msPerDay)%Z.

Section Desired.
Variables (tz nw : Z).
Variable source : list SourceTrack.
Variable consumption : list PlayedTrack.
Variable mirror : list MirrorTrack.

(** [eligible = { s in source | age(now - s.addedAt) ≤ RETENTION_WINDOW }] *)
Definition eligible : list SourceTrack :=
  List.filter (λ s, (nw - addedAt s <=? RETENTION_WINDOW tz nw)%Z) source.

(** [lockedItems = { c.item | c in consumption,
                     age(now - c.consumedAt) ≤ COOLDOWN_WINDOW }] *)
Definition lockedItems : gset string :=
  list_to_set
    (map p_uri (List.filter (λ c, (nw - playedAt c <=? COOLDOWN_WINDOW)%Z) consumption)).

(** [desired = { s in eligible | s.item ∉ lockedItems }] *)
Definition desired : list SourceTrack :=
  List.filter (λ s, bool_decide (uri s ∉ lockedItems)) eligible.


End Desired.

End Spec.


(** *** The lines of a rebuild *)

(** The progress lines of the additions of [uris], one after each batch:
    the number of URIs added so far, out of their number. *)
Definition progress (uris : list string) : list LogLine :=
  imap (λ k _, LogAdded (Nat.min (100 * S k) (length uris)) (length uris)) (chunks uris).

(** The lines of a rebuild, after the line that says that changes were
    detected. *)
Definition rebuild_lines (src mir : string) (w : World Spotify.State) : list LogLine :=
  (if 0 <? length (fetchedMirror mir w) then [LogRemovingAll] else [])
  ++ [LogAddingNewestFirst]
  ++ progress (desired src w)
  ++ [LogPlaylistUpdated]
  ++ (let n := size (recentlyPlayedUris (tza w) (now w) (fetchedPlayed w)) in
      if 0 <? n then [LogExcluded n] else []).

(** *** The civil calendar

    [JSDate.civil_from_days] splits a day number into an era of 146097
    days, the day of the era, the year of the era and the day of the year.
    The bounds on the last two are checked by running over the days of an
    era. *)

Local Open Scope Z_scope.

(** [p] holds of the [n] integers from [z] on. *)
Fixpoint all_from (n : nat) (z : Z) (p : Z → bool) : bool :=
  match n with
  | O => true
  | S n' => p z && all_from n' (z + 1) p
  end.

(** The year of the era of day [doe] of the era, as [JSDate.civil_from_days]
    computes it. *)
Definition year_of_era (doe : Z) : Z :=
  (doe - doe / 1460 + doe / 36524 - doe / 146096) / 365.

(** The day of the year, counted from the first of March. *)
Definition day_of_year (doe : Z) : Z :=
  let yoe := year_of_era doe in doe - (365 * yoe + yoe / 4 - yoe / 100).

(** The year of the era is in 0..399 and the day of the year in 0..365. *)
Definition era_day_ok (doe : Z) : bool :=
  let yoe := year_of_era doe in
  let doy := doe - (365 * yoe + yoe / 4 - yoe / 100) in
  (0 <=? yoe) && (yoe <=? 399) && (0 <=? doy) && (doy <=? 365).

Local Close Scope Z_scope.

(** *** The access token *)

(** The world after a refresh the host answered with [data], leaving the
    host in state [h]. *)
Definition refreshed {H} (data : TokenResponse) (h : H) (w : World H) : World H :=
  let expiresIn := number_or (expires_in data) 3600 in
  add_console (LogTokenRefreshed expiresIn)
    (set_tokenExpirationTime (now w / 1000 + expiresIn - 300)%Z
       (set_accessToken (access_token data)
          (set_host h (add_request ReqRefreshAccessToken w)))).

(** The token the client holds is taken as valid. *)
Definition token_valid {H} (w : World H) : Prop :=
  (now w / 1000 + 60 < tokenExpirationTime w)%Z.

(** The test of [ensureAccessToken] decides it. *)
Global Instance token_valid_dec {H} (w : World H) : Decision (token_valid w).
Proof. unfold token_valid. apply _. Defined.

(** *** The play history of the host *)

(** The time of an event *)
Definition event_time (e : PlayHistory) : Z := default 0%Z (played_at e).

(** A play history as the host keeps it: every event has a track and a
    time other than the epoch, and the events are in strictly decreasing
    order of time. *)
Definition well_formed_history (history : list PlayHistory) : Prop :=
  Forall (λ e, is_Some (ph_track e) ∧ ∃ t, played_at e = Some t ∧ t ≠ 0%Z) history ∧
  StronglySorted (λ a b, (event_time b < event_time a)%Z) history.

(** A request for a page of 50 events of the play history. *)
Definition plays_request (r : Request) : Prop :=
  ∃ before, r = ReqGetMyRecentlyPlayedTracks 50 before ∧ before ≠ Some 0%Z.

(** *** What every step of a run keeps *)

(** The requests the client may send when the two playlists are [senv]
    and [menv]: pages of 100 entries of one of the two playlists, from a
    multiple of 100 on; batches of 1 to 100 URIs, added at the end of the
    mirror or removed from it; pages of 50 events of the play history. *)
Definition permitted (senv menv : option string) (r : Request) : Prop :=
  match r with
  | ReqRefreshAccessToken => True
  | ReqGetPlaylistTracks id offset limit =>
      (senv = Some id ∨ menv = Some id) ∧ id ≠ ""%string ∧
      limit = 100 ∧ Nat.divide 100 offset
  | ReqAddTracksToPlaylist id uris pos =>
      menv = Some id ∧ id ≠ ""%string ∧ 0 < length uris ≤ 100 ∧ pos = None
  | ReqRemoveTracksFromPlaylist id uris =>
      menv = Some id ∧ id ≠ ""%string ∧ 0 < length uris ≤ 100
  | ReqGetMyRecentlyPlayedTracks limit before =>
      limit = 50 ∧ before ≠ Some 0%Z
  end.

(** The state in which the host is after request [r]. *)
Definition answered {H} (api : HostApi H) (r : Request) (h : H) : H :=
  match r with
  | ReqRefreshAccessToken => (refreshAccessToken api h).2
  | ReqGetPlaylistTracks id offset limit => (getPlaylistTracks api id offset limit h).2
  | ReqAddTracksToPlaylist id uris pos => (addTracksToPlaylist api id uris pos h).2
  | ReqRemoveTracksFromPlaylist id uris => (removeTracksFromPlaylist api id uris h).2
  | ReqGetMyRecentlyPlayedTracks limit before =>
      (getMyRecentlyPlayedTracks api limit before h).2
  end.

(** [m] keeps [I]: from a world in [I] it ends in [I] when it returns, in
    [E] when it throws or does not end. *)
Definition keeps {H A} (I E : World H → Prop) (m : M H A) : Prop :=
  ∀ w r w', I w → m w = (r, w') →
            match r with Ok _ => I w' | _ => E w' end.

(** [I] and [E] are kept by the steps of the client: by the console, by
    every permitted request other than the refresh of the token, and by
    [ensureAccessToken]. *)
Class Keeps {H} (api : HostApi H) (senv menv : option string)
    (I E : World H → Prop) := {
  K_abrupt : ∀ w, I w → E w;
  K_env : ∀ w, I w → SOURCE_PLAYLIST_ID w = senv ∧ MIRROR_PLAYLIST_ID w = menv;
  K_console : ∀ l w, I w → I (add_console l w);
  K_console_abrupt : ∀ l w, E w → E (add_console l w);
  K_request : ∀ r w,
    r ≠ ReqRefreshAccessToken → permitted senv menv r → I w →
    I (set_host (answered api r (host w)) (add_request r w));
  K_ensure : keeps I E (ensureAccessToken api)
}.

(** Since [w0] the environment is the same and only permitted requests
    were sent. *)
Definition conforms {H} (w0 w : World H) : Prop :=
  same_env w0 w ∧
  ∃ rs, requests w = requests w0 ++ rs ∧
        Forall (permitted (SOURCE_PLAYLIST_ID w0) (MIRROR_PLAYLIST_ID w0)) rs.

(** *** Runs that fail during the rebuild *)

(** The effect of a write request on the entries of the playlist it
    names, on the host model. *)
Definition effect (clock : Z) (r : Request) (items : list PlaylistItem)
    : list PlaylistItem :=
  match r with
  | ReqRemoveTracksFromPlaylist _ uris =>
      List.filter (λ item, negb (Spotify.holds uris item)) items
  | ReqAddTracksToPlaylist _ uris None =>
      items ++ map (Spotify.new_item clock) uris
  | ReqAddTracksToPlaylist _ uris (Some p) =>
      take p items ++ map (Spotify.new_item clock) uris ++ drop p items
  | _ => items
  end.

(** The effect of a sequence of write requests, in the order sent. *)
Definition effects (clock : Z) (rs : list Request) (items : list PlaylistItem)
    : list PlaylistItem :=
  fold_left (λ items r, effect clock r items) rs items.

(** The write requests a run from [w] is to send. *)
Definition plan (src mir : string) (w : World Spotify.State) : list Request :=
  if rebuilds src mir w then rebuildRequests src mir w else [].

(** The computation returned. *)
Definition succeeded {A} (r : Outcome A) : bool :=
  match r with Ok _ => true | _ => false end.

(** A computation that is to send the write requests [todo] to playlist
    [mir]: it has sent [done ++ failed], a prefix of [todo]; the requests
    [done] have taken effect, [failed], at most one request, was refused;
    when the computation returns it has sent them all. *)
Definition carried_out (mir : string) (todo : list Request) (ok : bool)
    (w w' : World Spotify.State) : Prop :=
  ∃ done failed,
    done ++ failed `prefix_of` todo ∧ length failed ≤ 1 ∧
    (ok = true → done = todo ∧ failed = []) ∧
    rewrites mir (effects (Spotify.clock (host w)) done) (done ++ failed) w w' ∧
    env_kept w w'.

(** The world when the clock shows [t]: the process is the one that was
    left, with its configuration, its token and its console. *)
Definition at_time {H} (t : Z) (w : World H) : World H :=
  {| host := host w; now := t; tza := tza w;
     SOURCE_PLAYLIST_ID := SOURCE_PLAYLIST_ID w;
     MIRROR_PLAYLIST_ID := MIRROR_PLAYLIST_ID w;
     tokenExpirationTime := tokenExpirationTime w; accessToken := accessToken w;
     console := console w; requests := requests w |}.

(** *** Further example worlds *)

(** The mirror has an entry without a track between two tracks. *)
Definition with_gap : World Spotify.State :=
  Examples.start
    (Examples.service []
       [ Examples.entry "A" 3;
         {| added_at := 0; item_track := None |};
         Examples.entry "B" 1 ] [] []).

(** The mirror holds three tracks, the source none. *)
Definition three_in_mirror : World Spotify.State :=
  Examples.start
    (Examples.service []
       [Examples.entry "A" 3; Examples.entry "B" 2; Examples.entry "C" 1] [] []).

(** Three plays, the latest first; track B was played twice. *)
Definition three_plays : World Spotify.State :=
  Examples.start
    (Examples.service [] []
       [Examples.played "B" 1; Examples.played "A" 2; Examples.played "B" 3] []).

(** The example of the specification on a host that refuses the seventh
    request, the addition: the mirror is left empty. *)
Definition addition_refused : World Spotify.State :=
  Examples.start
    (Examples.service
       [Examples.entry "A" 400; Examples.entry "B" 10; Examples.entry "C" 2]
       [Examples.entry "A" 0] [Examples.played "B" 1]
       [false; false; false; false; false; false; true]).

(** A process whose mirror is the empty string. *)
Definition mirror_not_configured : World Spotify.State :=
  Spotify.world (Examples.service [] [] [] []) Examples.today 0 "source" "".

(** ** Reasoning about computations *)

Section MonadFacts.
Context {H : Type}.
Implicit Types w : World H.

Lemma bind_Ok {A B} (m : M H A) (f : A → M H B) w b w' :
  bind m f w = (Ok b, w') →
  ∃ a w1, m w = (Ok a, w1) ∧ f a w1 = (Ok b, w').
Proof.
  unfold bind. destruct (m w) as [[a|e|] w1]; intros E; try discriminate.
  by exists a, w1.
Qed.

Lemma bind_Throw {A B} (m : M H A) (f : A → M H B) w e w' :
  bind m f w = (Throw e, w') →
  m w = (Throw e, w') ∨ ∃ a w1, m w = (Ok a, w1) ∧ f a w1 = (Throw e, w').
Proof.
  unfold bind. destruct (m w) as [[a|e'|] w1]; intros E; try discriminate.
  - right. by exists a, w1.
  - left. congruence.
Qed.

Lemma bind_eq_Ok {A B} (m : M H A) (f : A → M H B) w a w1 :
  m w = (Ok a, w1) → bind m f w = f a w1.
Proof. unfold bind. by intros ->. Qed.

Lemma bind_eq_Throw {A B} (m : M H A) (f : A → M H B) w e w1 :
  m w = (Throw e, w1) → bind m f w = (Throw e, w1).
Proof. unfold bind. by intros ->. Qed.

Lemma bind_eq_Diverge {A B} (m : M H A) (f : A → M H B) w w1 :
  m w = (Diverge, w1) → bind m f w = (Diverge, w1).
Proof. unfold bind. by intros ->. Qed.

Lemma try_catch_Ok {A} (m : M H A) h w a w' :
  try_catch m h w = (Ok a, w') →
  m w = (Ok a, w') ∨ ∃ e w1, m w = (Throw e, w1) ∧ h e w1 = (Ok a, w').
Proof.
  unfold try_catch. destruct (m w) as [[a'|e|] w1]; intros E; try discriminate.
  - by left.
  - right. by exists e, w1.
Qed.

(** A handler that logs and throws again never resolves. *)
Lemma try_rethrow_Ok {A} (m : M H A) (l : Error → LogLine) w a w' :
  try_catch m (λ e, bind (log (l e)) (λ _, throw e)) w = (Ok a, w') →
  m w = (Ok a, w').
Proof.
  intros [E|(e & w1 & _ & E)]%try_catch_Ok; [done|]. discriminate.
Qed.

Lemma try_rethrow_Throw {A} (m : M H A) (l : Error → LogLine) w e w' :
  try_catch m (λ e, bind (log (l e)) (λ _, throw e)) w = (Throw e, w') →
  ∃ w1, m w = (Throw e, w1) ∧ w' = add_console (l e) w1.
Proof.
  unfold try_catch. destruct (m w) as [[a'|e'|] w1]; intros E; try discriminate.
  exists w1. unfold bind, log, modify, throw in E. by simplify_eq.
Qed.

Lemma try_rethrow_eq_Throw {A} (m : M H A) (l : Error → LogLine) w e w1 :
  m w = (Throw e, w1) →
  try_catch m (λ e, bind (log (l e)) (λ _, throw e)) w
  = (Throw e, add_console (l e) w1).
Proof. unfold try_catch. by intros ->. Qed.

Lemma try_catch_eq_Ok {A} (m : M H A) h w a w1 :
  m w = (Ok a, w1) → try_catch m h w = (Ok a, w1).
Proof. unfold try_catch. by intros ->. Qed.

Lemma try_catch_eq_Diverge {A} (m : M H A) h w w1 :
  m w = (Diverge, w1) → try_catch m h w = (Diverge, w1).
Proof. unfold try_catch. by intros ->. Qed.
End MonadFacts.

Section Frame.
Context {H : Type} (api : HostApi H) (R : World H → World H → Prop).
Context {R_read : ReadFrame api R}.

Lemma preserves_ret {A} (a : A) : preserves R (ret a).
Proof. intros w r w' [= _ <-]. apply R_refl. Qed.

Lemma preserves_throw {A} e : preserves R (throw (A:=A) e).
Proof. intros w r w' [= _ <-]. apply R_refl. Qed.

Lemma preserves_diverge {A} : preserves R (diverge (A:=A)).
Proof. intros w r w' [= _ <-]. apply R_refl. Qed.

Lemma preserves_get : preserves R get.
Proof. intros w r w' [= _ <-]. apply R_refl. Qed.

Lemma preserves_log l : preserves R (log l).
Proof. intros w r w' [= _ <-]. apply R_console. Qed.

Lemma preserves_bind {A B} (m : M H A) (f : A → M H B) :
  preserves R m → (∀ a, preserves R (f a)) → preserves R (bind m f).
Proof.
  intros Hm Hf w r w'. unfold bind.
  destruct (m w) as [[a|e|] w1] eqn:E; intros E'.
  - eapply R_trans; [by eapply Hm | by eapply Hf].
  - simplify_eq. by eapply Hm.
  - simplify_eq. by eapply Hm.
Qed.

Lemma preserves_try_catch {A} (m : M H A) h :
  preserves R m → (∀ e, preserves R (h e)) → preserves R (try_catch m h).
Proof.
  intros Hm Hh w r w'. unfold try_catch.
  destruct (m w) as [[a|e|] w1] eqn:E; intros E'.
  - simplify_eq. by eapply Hm.
  - eapply R_trans; [by eapply Hm | by eapply Hh].
  - simplify_eq. by eapply Hm.
Qed.

Lemma preserves_if {A} (b : bool) (m1 m2 : M H A) :
  preserves R m1 → preserves R m2 → preserves R (if b then m1 else m2).
Proof. by destruct b. Qed.

Lemma preserves_request_refresh :
  preserves R (request ReqRefreshAccessToken (refreshAccessToken api)).
Proof.
  intros w r w'. unfold request. cbn.
  destruct (refreshAccessToken api (host w)) as [[a|e] h] eqn:E;
    intros [= _ <-]; by eapply R_refresh.
Qed.

Lemma preserves_request_get id o l :
  preserves R (request (ReqGetPlaylistTracks id o l) (getPlaylistTracks api id o l)).
Proof.
  intros w r w'. unfold request. cbn.
  destruct (getPlaylistTracks api id o l (host w)) as [[a|e] h] eqn:E;
    intros [= _ <-]; by eapply R_getPlaylistTracks.
Qed.

Lemma preserves_request_played l b :
  preserves R (request (ReqGetMyRecentlyPlayedTracks l b)
                     (getMyRecentlyPlayedTracks api l b)).
Proof.
  intros w r w'. unfold request. cbn.
  destruct (getMyRecentlyPlayedTracks api l b (host w)) as [[a|e] h] eqn:E;
    intros [= _ <-]; by eapply R_getMyRecentlyPlayedTracks.
Qed.

Context {R_write : WriteFrame api R}.

Lemma preserves_request_add id us p :
  preserves R (request (ReqAddTracksToPlaylist id us p)
                     (addTracksToPlaylist api id us p)).
Proof.
  intros w r w'. unfold request. cbn.
  destruct (addTracksToPlaylist api id us p (host w)) as [[a|e] h] eqn:E;
    intros [= _ <-]; by eapply R_addTracksToPlaylist.
Qed.

Lemma preserves_request_remove id us :
  preserves R (request (ReqRemoveTracksFromPlaylist id us)
                     (removeTracksFromPlaylist api id us)).
Proof.
  intros w r w'. unfold request. cbn.
  destruct (removeTracksFromPlaylist api id us (host w)) as [[a|e] h] eqn:E;
    intros [= _ <-]; by eapply R_removeTracksFromPlaylist.
Qed.

Lemma preserves_set_accessToken t : preserves R (modify (set_accessToken t)).
Proof. intros w r w' [= _ <-]. apply R_accessToken. Qed.

Lemma preserves_set_tokenExpirationTime t :
  preserves R (modify (set_tokenExpirationTime t)).
Proof. intros w r w' [= _ <-]. apply R_tokenExpirationTime. Qed.

(** One step of a proof of [preserves]: by the shape of the program. *)
Local Ltac frame_step :=
  lazymatch goal with
  | |- preserves R (ret _) => apply preserves_ret
  | |- preserves R (throw _) => apply preserves_throw
  | |- preserves R diverge => apply preserves_diverge
  | |- preserves R get => apply preserves_get
  | |- preserves R (log _) => apply preserves_log
  | |- preserves R (modify (set_accessToken _)) => apply preserves_set_accessToken
  | |- preserves R (modify (set_tokenExpirationTime _)) =>
      apply preserves_set_tokenExpirationTime
  | |- preserves R (bind _ _) => apply preserves_bind; [|intros ?]
  | |- preserves R (try_catch _ _) => apply preserves_try_catch; [|intros ?]
  | |- preserves R (if _ then _ else _) => apply preserves_if
  | |- preserves R (match ?x with Some _ => _ | None => _ end) => destruct x
  | |- preserves R (request ReqRefreshAccessToken _) =>
      apply preserves_request_refresh
  | |- preserves R (request (ReqGetPlaylistTracks _ _ _) _) =>
      apply preserves_request_get
  | |- preserves R (request (ReqGetMyRecentlyPlayedTracks _ _) _) =>
      apply preserves_request_played
  | |- preserves R (request (ReqAddTracksToPlaylist _ _ _) _) =>
      apply preserves_request_add
  | |- preserves R (request (ReqRemoveTracksFromPlaylist _ _) _) =>
      apply preserves_request_remove
  | |- _ => solve [auto]
  end.
Local Ltac frame := repeat frame_step.

Lemma preserves_ensureAccessToken : preserves R (ensureAccessToken api).
Proof. unfold ensureAccessToken. frame. Qed.
Local Hint Resolve preserves_ensureAccessToken : core.

Lemma preserves_sourceLoop fuel id tracks offset :
  preserves R (sourceLoop api fuel id tracks offset).
Proof. revert tracks offset. induction fuel as [|fuel IH]; intros; simpl; frame. Qed.
Local Hint Resolve preserves_sourceLoop : core.

Lemma preserves_getSourcePlaylistTracks fuel :
  preserves R (getSourcePlaylistTracks api fuel).
Proof. unfold getSourcePlaylistTracks. frame. Qed.
Local Hint Resolve preserves_getSourcePlaylistTracks : core.

Lemma preserves_mirrorLoop fuel id tracks offset :
  preserves R (mirrorLoop api fuel id tracks offset).
Proof. revert tracks offset. induction fuel as [|fuel IH]; intros; simpl; frame. Qed.
Local Hint Resolve preserves_mirrorLoop : core.

Lemma preserves_getMirrorPlaylistTracks fuel :
  preserves R (getMirrorPlaylistTracks api fuel).
Proof. unfold getMirrorPlaylistTracks. frame. Qed.
Local Hint Resolve preserves_getMirrorPlaylistTracks : core.

Lemma preserves_playedLoop fuel tracks before more requestCount :
  preserves R (playedLoop api fuel tracks before more requestCount).
Proof.
  revert tracks before more requestCount.
  induction fuel as [|fuel IH]; intros; simpl; frame.
Qed.
Local Hint Resolve preserves_playedLoop : core.

Lemma preserves_getRecentlyPlayedTracks :
  preserves R (getRecentlyPlayedTracks api).
Proof. unfold getRecentlyPlayedTracks. frame. Qed.
Local Hint Resolve preserves_getRecentlyPlayedTracks : core.

Lemma preserves_addLoop fuel id uris pos i :
  preserves R (addLoop api fuel id uris pos i).
Proof. revert i. induction fuel as [|fuel IH]; intros; simpl; frame. Qed.
Local Hint Resolve preserves_addLoop : core.

Lemma preserves_addTracksToMirrorPlaylist uris pos :
  preserves R (addTracksToMirrorPlaylist api uris pos).
Proof. unfold addTracksToMirrorPlaylist. frame. Qed.
Local Hint Resolve preserves_addTracksToMirrorPlaylist : core.

Lemma preserves_removeLoop fuel id uris i :
  preserves R (removeLoop api fuel id uris i).
Proof. revert i. induction fuel as [|fuel IH]; intros; simpl; frame. Qed.
Local Hint Resolve preserves_removeLoop : core.

Lemma preserves_removeTracksFromMirrorPlaylist uris :
  preserves R (removeTracksFromMirrorPlaylist api uris).
Proof. unfold removeTracksFromMirrorPlaylist. frame. Qed.
Local Hint Resolve preserves_removeTracksFromMirrorPlaylist : core.

Lemma preserves_syncAddLoop fuel uris i :
  preserves R (syncAddLoop api fuel uris i).
Proof. revert i. induction fuel as [|fuel IH]; intros; simpl; frame. Qed.
Local Hint Resolve preserves_syncAddLoop : core.

Lemma preserves_syncMirrorPlaylist fuel :
  preserves R (syncMirrorPlaylist api fuel).
Proof. unfold syncMirrorPlaylist. frame. Qed.
End Frame.

(** *** Frames that hold for every host *)

Lemma writes_app rs1 rs2 : writes (rs1 ++ rs2) = writes rs1 ++ writes rs2.
Proof. unfold writes. induction rs1 as [|r rs1 IH]; simpl; [done|]. destruct (is_write r); simpl; by rewrite IH. Qed.

Global Instance same_env_read {H} (api : HostApi H) : ReadFrame api same_env.
Proof.
  split; try (by intros; repeat split).
  intros w1 w2 w3 (?&?&?&?) (?&?&?&?). repeat split; congruence.
Qed.

Global Instance same_env_write {H} (api : HostApi H) : WriteFrame api same_env.
Proof. split; by intros; repeat split. Qed.

Global Instance logs_more_read {H} (api : HostApi H) : ReadFrame api logs_more.
Proof.
  split; try (by intros; exists []; rewrite app_nil_r).
  - intros w1 w2 w3 [l1 E1] [l2 E2]. exists (l1 ++ l2).
    by rewrite E2, E1, app_assoc.
  - intros l w. by exists [l].
Qed.

Global Instance logs_more_write {H} (api : HostApi H) : WriteFrame api logs_more.
Proof. split; by intros; exists []; rewrite app_nil_r. Qed.

Global Instance no_write_read {H} (api : HostApi H) : ReadFrame api no_write.
Proof.
  split; try (by intros; unfold no_write).
  - intros w1 w2 w3 E1 E2. unfold no_write in *. congruence.
  - intros. unfold no_write. cbn. by rewrite writes_app, app_nil_r.
  - intros. unfold no_write. cbn. by rewrite writes_app, app_nil_r.
  - intros. unfold no_write. cbn. by rewrite writes_app, app_nil_r.
Qed.

(** The conjunction of two frames is a frame. *)
Global Instance and_read {H} (api : HostApi H) R1 R2 :
  ReadFrame api R1 → ReadFrame api R2 → ReadFrame api (λ w w', R1 w w' ∧ R2 w w').
Proof.
  intros F1 F2. split.
  - intros; split; apply R_refl.
  - intros w1 w2 w3 [] []; split; eapply R_trans; eauto.
  - intros; split; apply R_console.
  - intros; split; apply R_accessToken.
  - intros; split; apply R_tokenExpirationTime.
  - intros; split; by eapply R_refresh.
  - intros; split; by eapply R_getPlaylistTracks.
  - intros; split; by eapply R_getMyRecentlyPlayedTracks.
Qed.

Global Instance and_write {H} (api : HostApi H) R1 R2 :
  WriteFrame api R1 → WriteFrame api R2 → WriteFrame api (λ w w', R1 w w' ∧ R2 w w').
Proof.
  intros F1 F2. split.
  - intros; split; by eapply R_addTracksToPlaylist.
  - intros; split; by eapply R_removeTracksFromPlaylist.
Qed.

(** *** Frames of the host model *)

Lemma answering_inv {A} (op : Spotify.State → Response A * Spotify.State) s r s' :
  Spotify.answering op s = (r, s') →
  (r = Rejected (ApiError 500) ∧
   ∃ f, Spotify.faults s = true :: f ∧ s' = Spotify.set_faults f s) ∨
  (∃ f, op (Spotify.set_faults f s) = (r, s')).
Proof.
  unfold Spotify.answering. destruct (Spotify.faults s) as [|[] f] eqn:E; intros E'.
  - right. exists []. destruct s; simpl in *; by subst.
  - left. simplify_eq. eauto.
  - right. by exists f.
Qed.

Global Instance same_history_read : ReadFrame Spotify.api same_history.
Proof.
  split; try (by intros; split).
  - intros w1 w2 w3 [] []. split; congruence.
  - intros w r h [(_ & f & _ & ->)|[f E]]%answering_inv; [by split|].
    unfold Spotify.refresh in E. simplify_eq. by split.
  - intros w id o l r h [(_ & f & _ & ->)|[f E]]%answering_inv; [by split|].
    unfold Spotify.page in E. destruct (_ !! _); simplify_eq; by split.
  - intros w l b r h [(_ & f & _ & ->)|[f E]]%answering_inv; [by split|].
    unfold Spotify.recent in E. simplify_eq. by split.
Qed.

Global Instance same_history_write : WriteFrame Spotify.api same_history.
Proof.
  split.
  - intros w id us p r h [(_ & f & _ & ->)|[f E]]%answering_inv; [by split|].
    unfold Spotify.add in E.
    destruct (_ !! _); [destruct (_ <? _)|]; simplify_eq; by split.
  - intros w id us r h [(_ & f & _ & ->)|[f E]]%answering_inv; [by split|].
    unfold Spotify.remove in E.
    destruct (_ !! _); [destruct (_ <? _)|]; simplify_eq; by split.
Qed.

Global Instance same_playlists_read : ReadFrame Spotify.api same_playlists.
Proof.
  split; try (by intros; unfold same_playlists).
  - intros w1 w2 w3 E1 E2. unfold same_playlists in *. congruence.
  - intros w r h [(_ & f & _ & ->)|[f E]]%answering_inv; [done|].
    unfold Spotify.refresh in E. by simplify_eq.
  - intros w id o l r h [(_ & f & _ & ->)|[f E]]%answering_inv; [done|].
    unfold Spotify.page in E. destruct (_ !! _); by simplify_eq.
  - intros w l b r h [(_ & f & _ & ->)|[f E]]%answering_inv; [done|].
    unfold Spotify.recent in E. by simplify_eq.
Qed.

(** ** What the accessor returns on the host model *)

Lemma request_Ok {H A} (r : Request) (op : H → Response A * H) w a w' :
  request r op w = (Ok a, w') →
  ∃ h, op (host w) = (Resolved a, h) ∧ w' = set_host h (add_request r w).
Proof.
  unfold request. cbn. destruct (op (host w)) as [[a'|e] h] eqn:E; intros E'; simplify_eq.
  by exists h.
Qed.

Lemma request_Throw {H A} (r : Request) (op : H → Response A * H) w e w' :
  request r op w = (Throw e, w') →
  ∃ h, op (host w) = (Rejected e, h) ∧ w' = set_host h (add_request r w).
Proof.
  unfold request. cbn. destruct (op (host w)) as [[a'|e'] h] eqn:E; intros E'; simplify_eq.
  by exists h.
Qed.

Lemma request_not_Diverge {H A} (r : Request) (op : H → Response A * H) w w' :
  request r op w ≠ (Diverge, w').
Proof. unfold request. by destruct (op _) as [[] ?]. Qed.

Lemma page_Resolved id o l s items s' :
  Spotify.answering (Spotify.page id o l) s = (Resolved items, s') →
  ∃ all, Spotify.playlists s !! id = Some all ∧ items = take l (drop o all) ∧
         Spotify.playlists s' = Spotify.playlists s.
Proof.
  intros [(? & _)|[f E]]%answering_inv; [done|].
  unfold Spotify.page in E. cbn in E.
  destruct (Spotify.playlists s !! id) as [all|] eqn:L; simplify_eq.
  by exists all.
Qed.

Lemma sourcePush_app l1 l2 : sourcePush (l1 ++ l2) = sourcePush l1 ++ sourcePush l2.
Proof. unfold sourcePush. apply flat_map_app. Qed.

Lemma mirrorPush_app o i l1 l2 :
  mirrorPush o i (l1 ++ l2) = mirrorPush o i l1 ++ mirrorPush o (i + length l1) l2.
Proof.
  revert i. induction l1 as [|x l1 IH]; intros i; simpl.
  - by rewrite Nat.add_0_r.
  - rewrite IH, <- Nat.add_succ_comm.
    destruct (item_track x) as [t|]; [destruct (truthy_string _)|]; done.
Qed.

Lemma mirrorPush_shift o i l : mirrorPush o i l = mirrorPush 0 (o + i) l.
Proof.
  revert i. induction l as [|x l IH]; intros i; simpl; [done|].
  rewrite IH, Nat.add_succ_r.
  destruct (item_track x) as [t|]; [destruct (truthy_string _)|]; done.
Qed.

(** A page is full, or it is all that is left. *)
Lemma short_page {A} (all : list A) o :
  length (take 100 (drop o all)) ≠ 100 → take 100 (drop o all) = drop o all.
Proof. rewrite length_take. intros. apply take_ge. lia. Qed.

Lemma next_page {A} (all : list A) o :
  take 100 (drop o all) ++ drop (o + 100) all = drop o all.
Proof. by rewrite <- drop_drop, take_drop. Qed.

Lemma sourceLoop_Ok fuel id tracks offset w r w' :
  sourceLoop Spotify.api fuel id tracks offset w = (Ok r, w') →
  r = tracks ++ sourcePush (drop offset (Spotify.playlist id (host w))).
Proof.
  revert tracks offset w. induction fuel as [|fuel IH]; intros tracks offset w; simpl; [done|].
  intros (items & w1 & E1 & E2)%bind_Ok.
  apply request_Ok in E1 as (h & E1 & ->).
  apply page_Resolved in E1 as (all & L & -> & P).
  unfold Spotify.playlist. rewrite L. simpl.
  destruct (length _ =? 100) eqn:Full.
  - apply IH in E2. subst r. unfold Spotify.playlist. cbn. rewrite P, L. simpl.
    by rewrite <- app_assoc, <- sourcePush_app, next_page.
  - unfold ret in E2. simplify_eq. apply Nat.eqb_neq in Full.
    by rewrite (short_page _ _ Full).
Qed.

Lemma mirrorLoop_Ok fuel id tracks offset w r w' :
  mirrorLoop Spotify.api fuel id tracks offset w = (Ok r, w') →
  r = tracks ++ mirrorPush 0 offset (drop offset (Spotify.playlist id (host w))).
Proof.
  revert tracks offset w. induction fuel as [|fuel IH]; intros tracks offset w; simpl; [done|].
  intros (items & w1 & E1 & E2)%bind_Ok.
  apply request_Ok in E1 as (h & E1 & ->).
  apply page_Resolved in E1 as (all & L & -> & P).
  unfold Spotify.playlist. rewrite L. simpl.
  destruct (length _ =? 100) eqn:Full.
  - apply IH in E2. subst r. unfold Spotify.playlist. cbn. rewrite P, L. simpl.
    apply Nat.eqb_eq in Full.
    rewrite <- app_assoc. f_equal.
    rewrite <- (next_page all offset) at 2.
    rewrite mirrorPush_app, Full.
    by rewrite (mirrorPush_shift offset 0), Nat.add_0_r.
  - unfold ret in E2. simplify_eq. apply Nat.eqb_neq in Full.
    rewrite (short_page _ _ Full).
    by rewrite (mirrorPush_shift offset 0), Nat.add_0_r.
Qed.

Global Instance read_only_read : ReadFrame Spotify.api read_only.
Proof. unfold read_only. apply _. Qed.

Lemma read_only_playlist id w w' :
  read_only w w' → Spotify.playlist id (host w') = Spotify.playlist id (host w).
Proof. intros (_ & _ & E & _). unfold Spotify.playlist. by rewrite E. Qed.

Lemma getSourcePlaylistTracks_Ok fuel w r w' src :
  getSourcePlaylistTracks Spotify.api fuel w = (Ok r, w') →
  SOURCE_PLAYLIST_ID w = Some src →
  r = sourcePush (Spotify.playlist src (host w)) ∧ read_only w w'.
Proof.
  intros E Src. split; [|by eapply (preserves_getSourcePlaylistTracks Spotify.api read_only)].
  unfold getSourcePlaylistTracks in E.
  apply bind_Ok in E as ([] & w1 & E1 & E).
  apply (preserves_ensureAccessToken Spotify.api read_only) in E1 as R1.
  apply bind_Ok in E as (w2 & ? & [= <- <-] & E).
  destruct R1 as ((_ & _ & Src1 & _) & _ & P1 & _).
  rewrite Src1, Src in E. destruct (truthy_string src); [|done].
  apply sourceLoop_Ok in E. subst r. unfold Spotify.playlist. by rewrite P1.
Qed.

Lemma getMirrorPlaylistTracks_Ok fuel w r w' mir :
  getMirrorPlaylistTracks Spotify.api fuel w = (Ok r, w') →
  MIRROR_PLAYLIST_ID w = Some mir →
  r = mirrorPush 0 0 (Spotify.playlist mir (host w)) ∧ read_only w w'.
Proof.
  intros E Mir. split; [|by eapply (preserves_getMirrorPlaylistTracks Spotify.api read_only)].
  unfold getMirrorPlaylistTracks in E.
  apply bind_Ok in E as ([] & w1 & E1 & E).
  apply (preserves_ensureAccessToken Spotify.api read_only) in E1 as R1.
  apply bind_Ok in E as (w2 & ? & [= <- <-] & E).
  destruct R1 as ((_ & _ & _ & Mir1) & _ & P1 & _).
  rewrite Mir1, Mir in E. destruct (truthy_string mir); [|done].
  apply mirrorLoop_Ok in E. subst r. unfold Spotify.playlist. by rewrite P1.
Qed.

Lemma recent_Resolved limit before s items s' :
  Spotify.answering (Spotify.recent limit before) s = (Resolved items, s') →
  items = take (Nat.min limit 50)
            (List.filter (Spotify.played_before before) (Spotify.history s)) ∧
  Spotify.history s' = Spotify.history s.
Proof.
  intros [(? & _)|[f E]]%answering_inv; [done|].
  unfold Spotify.recent in E. by simplify_eq.
Qed.

Lemma playedLoop_Ok fuel tracks before more requestCount w r w' :
  playedLoop Spotify.api fuel tracks before more requestCount w = (Ok r, w') →
  r = playedPages fuel (Spotify.history (host w)) tracks before more requestCount.
Proof.
  revert tracks before more requestCount w.
  induction fuel as [|fuel IH]; intros tracks before more requestCount w; simpl.
  - destruct (_ && _ && _); [done|]. by intros [= <- _].
  - destruct (_ && _ && _); [|by intros [= <- _]].
    intros ([] & w1 & [= <-] & E)%bind_Ok.
    apply bind_Ok in E as (items & w2 & E1 & E).
    apply request_Ok in E1 as (h & E1 & ->).
    apply recent_Resolved in E1 as [-> Hh]. cbn in Hh.
    change (Nat.min 50 50) with 50 in E.
    destruct (length _ =? 0).
    + apply IH in E. by rewrite E; cbn; rewrite Hh.
    + destruct (_ && _).
      * apply bind_Ok in E as ([] & w3 & [= <-] & E).
        apply IH in E. by rewrite E; cbn; rewrite Hh.
      * apply bind_Ok in E as ([] & w3 & [= <-] & E).
        apply IH in E. by rewrite E; cbn; rewrite Hh.
Qed.

Lemma getRecentlyPlayedTracks_Ok w r w' :
  getRecentlyPlayedTracks Spotify.api w = (Ok r, w') →
  r = recentlyPlayed (Spotify.history (host w)) ∧ read_only w w'.
Proof.
  intros E. split; [|by eapply (preserves_getRecentlyPlayedTracks Spotify.api read_only)].
  unfold getRecentlyPlayedTracks in E.
  apply bind_Ok in E as ([] & w1 & E1 & E).
  apply (preserves_ensureAccessToken Spotify.api read_only) in E1 as (_ & [Hh _] & _).
  apply try_rethrow_Ok in E.
  apply bind_Ok in E as (tracks & w2 & E2 & E).
  apply playedLoop_Ok in E2. rewrite Hh in E2.
  apply bind_Ok in E as ([] & w3 & _ & [= <- _]).
  by subst tracks.
Qed.

(** ** What the write operations do on the host model *)

Lemma slice_100 {A} (l : list A) i : slice i (i + 100) l = take 100 (drop i l).
Proof. unfold slice. by rewrite Nat.add_sub'. Qed.

Lemma chunks_small {A} (c : list A) :
  0 < length c → length c ≤ 100 → chunks c = [c].
Proof.
  intros Pos Le. unfold chunks.
  destruct (length c) as [|n] eqn:Len; [lia|]. cbn [chunksFrom].
  rewrite Len. change (0 <? S n) with true. cbv iota.
  rewrite slice_100, drop_0, take_ge by lia. f_equal.
  assert ((0 + 100 <? S n) = false) as Ge by (apply Nat.ltb_ge; lia).
  destruct n; cbn [chunksFrom]; rewrite Len; by rewrite Ge.
Qed.

Lemma filter_all {A} (p : A → bool) l : (∀ x, p x = true) → List.filter p l = l.
Proof. intros Hp. induction l as [|x l IH]; simpl; [done|]. by rewrite Hp, IH. Qed.

Lemma filter_twice {A} (p q : A → bool) l :
  List.filter p (List.filter q l) = List.filter (λ x, q x && p x) l.
Proof.
  induction l as [|x l IH]; simpl; [done|].
  destruct (q x); simpl; [destruct (p x)|]; by rewrite IH.
Qed.

Lemma holds_nil item : Spotify.holds [] item = false.
Proof.
  unfold Spotify.holds. destruct (item_track item); [|done].
  apply bool_decide_eq_false. apply not_elem_of_nil.
Qed.

Lemma holds_app us1 us2 item :
  Spotify.holds (us1 ++ us2) item = Spotify.holds us1 item || Spotify.holds us2 item.
Proof.
  unfold Spotify.holds. destruct (item_track item) as [t|]; [|done].
  apply eq_true_iff_eq.
  rewrite orb_true_iff, !bool_decide_eq_true. apply elem_of_app.
Qed.

Global Instance env_kept_read : ReadFrame Spotify.api env_kept.
Proof. unfold env_kept. apply _. Qed.
Global Instance env_kept_write : WriteFrame Spotify.api env_kept.
Proof. unfold env_kept. apply _. Qed.

Lemma rewrites_read id w w' :
  read_only w w' → rewrites id (λ items, items) [] w w'.
Proof.
  intros (_ & _ & P & W). unfold rewrites, Spotify.playlist.
  rewrite P, W, app_nil_r. done.
Qed.

Lemma rewrites_trans id f1 f2 rs1 rs2 w1 w2 w3 :
  rewrites id f1 rs1 w1 w2 → rewrites id f2 rs2 w2 w3 →
  rewrites id (λ items, f2 (f1 items)) (rs1 ++ rs2) w1 w3.
Proof.
  intros (P1 & O1 & W1) (P2 & O2 & W2). split; [|split].
  - by rewrite P2, P1.
  - intros id' Ne. by rewrite O2, O1.
  - by rewrite W2, W1, app_assoc.
Qed.

Lemma remove_Resolved id uris s s' :
  Spotify.answering (Spotify.remove id uris) s = (Resolved tt, s') →
  ∃ items, Spotify.playlists s !! id = Some items ∧
    Spotify.playlists s' =
      <[id := List.filter (λ item, negb (Spotify.holds uris item)) items]>
        (Spotify.playlists s).
Proof.
  intros [(? & _)|[f E]]%answering_inv; [done|].
  unfold Spotify.remove in E.
  cbn [Spotify.playlists Spotify.set_faults Spotify.clock] in E.
  destruct (Spotify.playlists s !! id) as [items|] eqn:L; [|done].
  destruct (100 <? length uris); [done|]. simplify_eq. by exists items.
Qed.

Lemma add_Resolved id uris s s' :
  Spotify.answering (Spotify.add id uris None) s = (Resolved tt, s') →
  ∃ items, Spotify.playlists s !! id = Some items ∧
    Spotify.clock s' = Spotify.clock s ∧
    Spotify.playlists s' =
      <[id := items ++ map (Spotify.new_item (Spotify.clock s)) uris]>
        (Spotify.playlists s).
Proof.
  intros [(? & _)|[f E]]%answering_inv; [done|].
  unfold Spotify.add in E.
  cbn [Spotify.playlists Spotify.set_faults Spotify.clock] in E.
  destruct (Spotify.playlists s !! id) as [items|] eqn:L; [|done].
  destruct (100 <? length uris); [done|]. simplify_eq. exists items.
  split; [done|]. split; [done|]. cbn. by rewrite take_ge, drop_ge, app_nil_r.
Qed.

Lemma rewrites_nothing_removed id (uris : list string) i w :
  length uris ≤ i →
  rewrites id (List.filter (λ item, negb (Spotify.holds (drop i uris) item))) [] w w.
Proof.
  intros Ge. rewrite drop_ge by done. split; [|split]; [|done|by rewrite app_nil_r].
  by rewrite filter_all by (intros; by rewrite holds_nil).
Qed.

Lemma removeLoop_Ok fuel id uris i w w' :
  removeLoop Spotify.api fuel id uris i w = (Ok tt, w') →
  rewrites id
    (List.filter (λ item, negb (Spotify.holds (drop i uris) item)))
    (map (ReqRemoveTracksFromPlaylist id) (chunksFrom fuel uris i)) w w'.
Proof.
  revert i w. induction fuel as [|fuel IH]; intros i w; cbn [removeLoop chunksFrom];
    destruct (i <? length uris) eqn:Lt.
  - done.
  - intros [= <-]. apply rewrites_nothing_removed. by apply Nat.ltb_ge.
  - intros ([] & w1 & E1 & E)%bind_Ok.
    apply request_Ok in E1 as (h & E1 & ->).
    apply remove_Resolved in E1 as (items & L & P).
    apply IH in E as (P2 & O2 & W2). split; [|split].
    + rewrite P2. unfold Spotify.playlist. cbn. rewrite P, lookup_insert_eq, L. simpl.
      rewrite filter_twice, slice_100.
      apply List.filter_ext. intros item.
      by rewrite <- negb_orb, <- holds_app, next_page.
    + intros id' Ne. rewrite O2 by done. cbn. rewrite P. by apply lookup_insert_ne.
    + rewrite W2. cbn. rewrite writes_app. simpl. by rewrite <- app_assoc.
  - intros [= <-]. apply rewrites_nothing_removed. by apply Nat.ltb_ge.
Qed.

Lemma rewrites_ext id f g rs rs' w w' :
  rewrites id f rs w w' → (∀ items, f items = g items) → rs = rs' →
  rewrites id g rs' w w'.
Proof. intros (P & O & W) E <-. split; [|done]. by rewrite P, E. Qed.

Lemma chunksFrom_ge {A} fuel (l : list A) i : length l ≤ i → chunksFrom fuel l i = [].
Proof.
  intros Ge. apply Nat.ltb_ge in Ge. destruct fuel; simpl; by rewrite Ge.
Qed.

Lemma removeTracksFromMirrorPlaylist_Ok uris w w' mir :
  removeTracksFromMirrorPlaylist Spotify.api uris w = (Ok tt, w') →
  MIRROR_PLAYLIST_ID w = Some mir →
  rewrites mir (List.filter (λ item, negb (Spotify.holds uris item)))
    (map (ReqRemoveTracksFromPlaylist mir) (chunks uris)) w w'.
Proof.
  unfold removeTracksFromMirrorPlaylist. intros E Mir.
  destruct (length uris =? 0) eqn:Len.
  - apply Nat.eqb_eq in Len. unfold ret in E. simplify_eq.
    eapply rewrites_ext; [by apply (rewrites_nothing_removed _ uris 0); lia|done|].
    unfold chunks. by rewrite chunksFrom_ge by lia.
  - apply bind_Ok in E as ([] & w1 & E1 & E).
    apply (preserves_ensureAccessToken Spotify.api read_only) in E1 as R1.
    apply bind_Ok in E as (w2 & ? & [= <- <-] & E).
    pose proof R1 as ((_ & _ & _ & Mir1) & _).
    rewrite Mir1, Mir in E. destruct (truthy_string mir); [|done].
    apply removeLoop_Ok in E.
    eapply rewrites_ext;
      [exact (rewrites_trans _ _ _ _ _ _ _ _ (rewrites_read mir _ _ R1) E)|done..].
Qed.

Lemma addLoop_Ok fuel id uris i w w' :
  addLoop Spotify.api fuel id uris None i w = (Ok tt, w') →
  rewrites id
    (λ items, items ++ map (Spotify.new_item (Spotify.clock (host w))) (drop i uris))
    (map (λ c, ReqAddTracksToPlaylist id c None) (chunksFrom fuel uris i)) w w'.
Proof.
  revert i w. induction fuel as [|fuel IH]; intros i w; cbn [addLoop chunksFrom];
    destruct (i <? length uris) eqn:Lt.
  - done.
  - intros [= <-]. apply Nat.ltb_ge in Lt. rewrite drop_ge by done.
    split; [|split]; [|done|]; by rewrite app_nil_r.
  - intros ([] & w1 & E1 & E)%bind_Ok.
    apply request_Ok in E1 as (h & E1 & ->).
    apply add_Resolved in E1 as (items & L & C & P).
    apply IH in E as (P2 & O2 & W2). split; [|split].
    + rewrite P2. unfold Spotify.playlist. cbn. rewrite P, lookup_insert_eq, L, C. simpl.
      by rewrite <- app_assoc, <- map_app, slice_100, next_page.
    + intros id' Ne. rewrite O2 by done. cbn. rewrite P. by apply lookup_insert_ne.
    + rewrite W2. cbn. rewrite writes_app. simpl. by rewrite <- app_assoc.
  - intros [= <-]. apply Nat.ltb_ge in Lt. rewrite drop_ge by done.
    split; [|split]; [|done|]; by rewrite app_nil_r.
Qed.

Lemma addTracksToMirrorPlaylist_Ok uris w w' mir :
  addTracksToMirrorPlaylist Spotify.api uris None w = (Ok tt, w') →
  MIRROR_PLAYLIST_ID w = Some mir →
  rewrites mir
    (λ items, items ++ map (Spotify.new_item (Spotify.clock (host w))) uris)
    (map (λ c, ReqAddTracksToPlaylist mir c None) (chunks uris)) w w'.
Proof.
  unfold addTracksToMirrorPlaylist. intros E Mir.
  destruct (length uris =? 0) eqn:Len.
  - apply Nat.eqb_eq in Len. unfold ret in E. simplify_eq.
    apply nil_length_inv in Len as ->.
    split; [|split]; [|done|]; by rewrite app_nil_r.
  - apply bind_Ok in E as ([] & w1 & E1 & E).
    apply (preserves_ensureAccessToken Spotify.api read_only) in E1 as R1.
    apply bind_Ok in E as (w2 & ? & [= <- <-] & E).
    pose proof R1 as ((_ & _ & _ & Mir1) & (_ & C) & _).
    rewrite Mir1, Mir in E. destruct (truthy_string mir); [|done].
    apply addLoop_Ok in E. rewrite C in E.
    eapply rewrites_ext;
      [exact (rewrites_trans _ _ _ _ _ _ _ _ (rewrites_read mir _ _ R1) E)|done..].
Qed.

Lemma slice_chunk {A} (l : list A) i :
  i < length l → 0 < length (slice i (i + 100) l) ≤ 100.
Proof. intros Lt. rewrite slice_100, length_take, length_drop. lia. Qed.

Lemma syncAddLoop_Ok fuel uris i w w' mir :
  syncAddLoop Spotify.api fuel uris i w = (Ok tt, w') →
  MIRROR_PLAYLIST_ID w = Some mir →
  rewrites mir
    (λ items, items ++ map (Spotify.new_item (Spotify.clock (host w))) (drop i uris))
    (map (λ c, ReqAddTracksToPlaylist mir c None) (chunksFrom fuel uris i)) w w'.
Proof.
  revert i w. induction fuel as [|fuel IH]; intros i w; cbn [syncAddLoop chunksFrom];
    destruct (i <? length uris) eqn:Lt.
  - done.
  - intros [= <-] _. apply Nat.ltb_ge in Lt. rewrite drop_ge by done.
    split; [|split]; [|done|]; by rewrite app_nil_r.
  - intros ([] & w1 & E1 & E)%bind_Ok Mir.
    apply (preserves_addTracksToMirrorPlaylist Spotify.api env_kept) in E1 as K1.
    apply addTracksToMirrorPlaylist_Ok with (mir := mir) in E1; [|done].
    apply bind_Ok in E as ([] & w2 & E2 & E).
    assert (host w2 = host w1 ∧ requests w2 = requests w1 ∧
            MIRROR_PLAYLIST_ID w2 = MIRROR_PLAYLIST_ID w1) as (Hh & Hr & Hm).
    { destruct (_ || _); unfold log, modify, ret in E2; by simplify_eq. }
    destruct K1 as ((_ & _ & _ & Mir1) & (_ & C)).
    apply IH in E; [|congruence].
    rewrite Hh, C in E.
    assert (rewrites mir (λ items, items) [] w1 w2) as E12.
    { unfold rewrites. rewrite Hh, Hr, app_nil_r. done. }
    apply Nat.ltb_lt in Lt.
    eapply rewrites_ext;
      [exact (rewrites_trans _ _ _ _ _ _ _ _ E1
                (rewrites_trans _ _ _ _ _ _ _ _ E12 E))| |].
    + intros items. simpl.
      by rewrite <- app_assoc, <- map_app, slice_100, next_page.
    + by rewrite chunks_small by apply slice_chunk, Lt.
  - intros [= <-] _. apply Nat.ltb_ge in Lt. rewrite drop_ge by done.
    split; [|split]; [|done|]; by rewrite app_nil_r.
Qed.

(** ** What one run of the engine does on the host model *)

Lemma read_only_log_r l w w' : read_only w w' → read_only w (add_console l w').
Proof. intros R. eapply R_trans; [exact R|apply R_console]. Qed.

Lemma read_only_log_l l w w' : read_only (add_console l w) w' → read_only w w'.
Proof. intros R. eapply R_trans; [apply (R_console l)|exact R]. Qed.

Lemma env_kept_log_r l w w' : env_kept w w' → env_kept w (add_console l w').
Proof. intros R. eapply R_trans; [exact R|apply R_console]. Qed.

Lemma read_only_env_kept w w' : read_only w w' → env_kept w w'.
Proof. by intros (? & ? & _). Qed.

Lemma rewrites_log_r id f rs l w w' :
  rewrites id f rs w w' → rewrites id f rs w (add_console l w').
Proof. done. Qed.

Lemma env_kept_trans w1 w2 w3 : env_kept w1 w2 → env_kept w2 w3 → env_kept w1 w3.
Proof. apply R_trans. Qed.

(** The removal step of a rebuild. *)
Lemma removal_Ok uris w w' mir :
  (if 0 <? length uris
   then bind (log LogRemovingAll)
             (λ _, removeTracksFromMirrorPlaylist Spotify.api uris)
   else ret tt) w = (Ok tt, w') →
  MIRROR_PLAYLIST_ID w = Some mir →
  env_kept w w' ∧
  rewrites mir (List.filter (λ item, negb (Spotify.holds uris item)))
    (map (ReqRemoveTracksFromPlaylist mir) (chunks uris)) w w'.
Proof.
  intros E Mir. destruct (0 <? length uris) eqn:Pos.
  - apply bind_Ok in E as ([] & ? & [= <-] & E). split.
    + apply (preserves_removeTracksFromMirrorPlaylist Spotify.api env_kept) in E.
      eapply env_kept_trans; [apply (R_console LogRemovingAll)|exact E].
    + by apply removeTracksFromMirrorPlaylist_Ok with (mir := mir) in E.
  - unfold ret in E. simplify_eq. split; [apply R_refl|].
    apply Nat.ltb_ge in Pos.
    eapply rewrites_ext; [by apply (rewrites_nothing_removed _ uris 0); lia|done|].
    unfold chunks. by rewrite chunksFrom_ge by lia.
Qed.

Lemma syncMirrorPlaylist_Ok fuel w w' src mir :
  syncMirrorPlaylist Spotify.api fuel w = (Ok tt, w') →
  SOURCE_PLAYLIST_ID w = Some src →
  MIRROR_PLAYLIST_ID w = Some mir →
  env_kept w w' ∧
  if rebuilds src mir w
  then rewrites mir (rebuilt src mir w) (rebuildRequests src mir w) w w'
  else rewrites mir (λ items, items) [] w w'.
Proof.
  intros E Src Mir. unfold syncMirrorPlaylist in E. apply try_rethrow_Ok in E.
  apply bind_Ok in E as ([] & ? & [= <-] & E).
  apply bind_Ok in E as (sourceTracks & w1 & E1 & E).
  apply getSourcePlaylistTracks_Ok with (src := src) in E1 as [ES R1]; [|done].
  apply read_only_log_l in R1.
  change (sourceTracks = fetchedSource src w) in ES. subst sourceTracks.
  apply bind_Ok in E as ([] & ? & [= <-] & E). apply (read_only_log_r (LogFoundSource (length (fetchedSource src w)))) in R1.
  apply bind_Ok in E as (? & ? & [= <- <-] & E).
  cbn [tza now add_console] in E.
  pose proof R1 as ((Hnow & Htza & _ & Mir1) & _).
  cbn [tza now add_console MIRROR_PLAYLIST_ID] in Hnow, Htza, Mir1.
  rewrite Hnow, Htza in E. clear Hnow Htza.
  apply bind_Ok in E as ([] & ? & [= <-] & E).
  apply (read_only_log_r (LogWithinLastYear (length (tracksWithinLastYear (tza w) (now w) (fetchedSource src w))))) in R1.
  apply bind_Ok in E as (played & w2 & E2 & E).
  apply getRecentlyPlayedTracks_Ok in E2 as [EP R2].
  pose proof (R_trans _ _ _ R1 R2) as R12. clear R2.
  assert (played = fetchedPlayed w) as ->.
  { subst played. unfold fetchedPlayed. by destruct R1 as (_ & [-> _] & _). }
  clear EP R1.
  apply bind_Ok in E as ([] & ? & [= <-] & E).
  apply (read_only_log_r (LogFoundRecentlyPlayed (length (fetchedPlayed w)))) in R12.
  apply bind_Ok in E as ([] & ? & [= <-] & E).
  apply (read_only_log_r (LogInLockPeriod (size (recentlyPlayedUris (tza w) (now w) (fetchedPlayed w))))) in R12.
  apply bind_Ok in E as (mirrorTracks & w3 & E3 & E).
  apply getMirrorPlaylistTracks_Ok with (mir := mir) in E3 as [EM R3].
  2:{ destruct R12 as ((_ & _ & _ & ->) & _). done. }
  pose proof (R_trans _ _ _ R12 R3) as R123. clear R3.
  assert (mirrorTracks = fetchedMirror mir w) as ->.
  { subst mirrorTracks. unfold fetchedMirror. f_equal.
    apply (read_only_playlist mir) in R12. by rewrite <- R12. }
  clear EM R12 Mir1.
  apply bind_Ok in E as ([] & ? & [= <-] & E).
  apply (read_only_log_r (LogFoundMirror (length (fetchedMirror mir w)))) in R123.
  apply bind_Ok in E as ([] & ? & [= <-] & E).
  apply (read_only_log_r (LogEligible (length (eligibleTracks (tza w) (now w) (fetchedSource src w) (fetchedPlayed w))))) in R123.
  apply bind_Ok in E as ([] & w4 & E4 & [= <-]).
  fold (rebuilds src mir w) in E4.
  match type of R123 with read_only _ ?x => set (w5 := x) in * end. clearbody w5.
  clear w1 w2 w3.
  destruct (rebuilds src mir w).
  - apply bind_Ok in E4 as ([] & ? & [= <-] & E).
    apply (read_only_log_r LogChangesDetected) in R123.
    apply bind_Ok in E as ([] & w7 & E7 & E).
    apply removal_Ok with (mir := mir) in E7 as [K7 W7].
    2:{ destruct R123 as ((_ & _ & _ & ->) & _). done. }
    apply bind_Ok in E as ([] & ? & [= <-] & E).
    apply (env_kept_log_r LogAddingNewestFirst) in K7.
    apply (rewrites_log_r _ _ _ LogAddingNewestFirst) in W7.
    apply bind_Ok in E as ([] & w8 & E8 & E).
    pose proof (env_kept_trans _ _ _ (read_only_env_kept _ _ R123) K7) as K.
    apply (preserves_syncAddLoop Spotify.api env_kept) in E8 as K8.
    apply syncAddLoop_Ok with (mir := mir) in E8 as W8.
    2:{ destruct K as ((_ & _ & _ & ->) & _). done. }
    fold (desired src w) in W8. rewrite drop_0 in W8. fold (chunks (desired src w)) in W8.
    replace (Spotify.clock _) with (Spotify.clock (host w)) in W8
      by (symmetry; apply K).
    pose proof (env_kept_trans _ _ _ K K8) as K'.
    assert (host w4 = host w8 ∧ requests w4 = requests w8 ∧ env_kept w8 w4)
      as (Hh & Hr & K4).
    { apply bind_Ok in E as ([] & ? & [= <-] & E).
      destruct (0 <? size _); unfold log, modify, ret in E; simplify_eq;
        (split; [done|split; [done|]]).
      - eapply env_kept_trans; apply R_console.
      - apply R_console. }
    split.
    + apply env_kept_log_r. by eapply env_kept_trans.
    + apply rewrites_log_r.
      pose proof (rewrites_trans _ _ _ _ _ _ _ _
                    (rewrites_trans _ _ _ _ _ _ _ _ (rewrites_read mir _ _ R123) W7) W8)
        as (P & O & W).
      unfold rewrites. rewrite Hh, Hr. done.
  - unfold log, modify in E4. simplify_eq. split.
    + apply env_kept_log_r, env_kept_log_r. by apply read_only_env_kept.
    + apply rewrites_log_r, rewrites_log_r. by apply rewrites_read.
Qed.

(** ** The sort and the decision of the engine *)

Lemma sort_insert_perm {A} (cmp : A → A → Z) x l : sort_insert cmp x l ≡ₚ x :: l.
Proof.
  induction l as [|y l IH]; simpl; [done|].
  destruct (cmp x y >? 0)%Z; [|done]. rewrite IH. apply Permutation_swap.
Qed.

Lemma js_sort_perm {A} (cmp : A → A → Z) l : js_sort cmp l ≡ₚ l.
Proof.
  induction l as [|x l IH]; simpl; [done|]. by rewrite sort_insert_perm, IH.
Qed.

Lemma sort_insert_newest_first x l :
  newest_first l → newest_first (sort_insert by_addedAt_desc x l).
Proof.
  unfold newest_first.
  induction 1 as [|y l Sl IH Hy]; simpl; [repeat constructor|].
  unfold by_addedAt_desc at 1. destruct (_ >? 0)%Z eqn:C.
  - constructor; [done|]. rewrite sort_insert_perm. constructor; [lia|done].
  - constructor; [by constructor|]. constructor; [lia|].
    eapply Forall_impl; [exact Hy|]. simpl. intros; lia.
Qed.

Lemma js_sort_newest_first l : newest_first (js_sort by_addedAt_desc l).
Proof.
  induction l as [|x l IH]; simpl; [constructor|]. by apply sort_insert_newest_first.
Qed.

(** The sort is stable: tracks added at the same time keep their order. *)
Lemma js_sort_stable l t :
  List.filter (λ a, (addedAt a =? t)%Z) (js_sort by_addedAt_desc l)
  = List.filter (λ a, (addedAt a =? t)%Z) l.
Proof.
  induction l as [|x l IH]; simpl; [done|]. rewrite <- IH. clear IH.
  induction (js_sort by_addedAt_desc l) as [|y s IHs]; simpl; [done|].
  unfold by_addedAt_desc at 1. destruct (_ >? 0)%Z eqn:C; simpl; [|done].
  rewrite IHs. destruct (addedAt x =? t)%Z eqn:X, (addedAt y =? t)%Z eqn:Y; try done.
  lia.
Qed.

Lemma sortedTracks_spec tz nw sourceTracks played :
  sortedTracks tz nw sourceTracks played ≡ₚ eligibleTracks tz nw sourceTracks played ∧
  newest_first (sortedTracks tz nw sourceTracks played).
Proof. split; [apply js_sort_perm|apply js_sort_newest_first]. Qed.

(** The tracks the engine wants in the mirror: added no more than a year
    ago and not played during the lock period. *)
Lemma elem_of_eligibleTracks tz nw sourceTracks played track :
  track ∈ eligibleTracks tz nw sourceTracks played ↔
  track ∈ sourceTracks ∧
  (oneYearAgo tz nw ≤ addedAt track)%Z ∧
  ¬ ∃ p, p ∈ played ∧ p_uri p = uri track ∧ (fiveDaysAgo tz nw ≤ playedAt p)%Z.
Proof.
  unfold eligibleTracks, tracksWithinLastYear, recentlyPlayedUris.
  rewrite !list_elem_of_In, !filter_In, negb_true_iff, bool_decide_eq_false.
  rewrite elem_of_list_to_set, list_elem_of_In, in_map_iff.
  unfold isAddedWithinLastYear, isPlayedRecentlyWithinLockPeriod.
  split.
  - intros [[? ?] N]. split; [done|]. split; [lia|].
    intros (p & Hp & U & T). apply N. exists p. split; [done|].
    apply filter_In. split; [by apply list_elem_of_In|lia].
  - intros (? & ? & N). split; [split; [done|lia]|].
    intros (p & U & [Hp T]%filter_In). apply N. exists p.
    split; [by apply list_elem_of_In|]. split; [done|lia].
Qed.

Lemma filter_nil_iff {A} (p : A → bool) l :
  List.filter p l = [] ↔ ∀ x, x ∈ l → p x = false.
Proof.
  induction l as [|x l IH]; simpl.
  - split; [|done]. by intros _ x ?%elem_of_nil.
  - destruct (p x) eqn:Px.
    + split; [done|]. intros Hl. specialize (Hl x (list_elem_of_here _ _)). congruence.
    + rewrite IH. split.
      * intros Hl y [->|?]%elem_of_cons; auto.
      * intros Hl y ?. apply Hl. by right.
Qed.

Lemma no_changes_iff tz nw sourceTracks played mirrorTracks :
  changesDetected tz nw sourceTracks played mirrorTracks = false ↔
  tracksToAdd tz nw sourceTracks played mirrorTracks = [] ∧
  tracksToRemove tz nw sourceTracks played mirrorTracks = [].
Proof.
  unfold changesDetected. rewrite orb_false_iff, !Nat.ltb_ge.
  split; intros [A R].
  - split; apply nil_length_inv; lia.
  - by rewrite A, R.
Qed.

(** No change is detected exactly when the mirror and the wanted tracks
    have the same set of URIs. *)
Lemma no_changes_sets tz nw sourceTracks played mirrorTracks :
  changesDetected tz nw sourceTracks played mirrorTracks = false ↔
  currentMirrorUris mirrorTracks = shouldBeInMirrorUris tz nw sourceTracks played.
Proof.
  rewrite no_changes_iff. unfold tracksToAdd, tracksToRemove.
  rewrite !filter_nil_iff.
  unfold currentMirrorUris, shouldBeInMirrorUris. split.
  - intros [A R]. apply set_eq. intros u. rewrite !elem_of_list_to_set.
    rewrite !list_elem_of_In, !in_map_iff. split.
    + intros (m & <- & Hm%list_elem_of_In). specialize (R m Hm).
      apply negb_false_iff, bool_decide_eq_true in R.
      rewrite elem_of_list_to_set, list_elem_of_In, in_map_iff in R. done.
    + intros (t & <- & Ht%list_elem_of_In). specialize (A t Ht).
      apply negb_false_iff, bool_decide_eq_true in A.
      rewrite elem_of_list_to_set, list_elem_of_In, in_map_iff in A. done.
  - intros E. split.
    + intros t Ht. apply negb_false_iff, bool_decide_eq_true. rewrite E.
      rewrite elem_of_list_to_set, list_elem_of_In. apply in_map.
      by apply list_elem_of_In.
    + intros m Hm. apply negb_false_iff, bool_decide_eq_true. rewrite <- E.
      rewrite elem_of_list_to_set, list_elem_of_In. apply in_map.
      by apply list_elem_of_In.
Qed.

(** ** The entries of the mirror the client can see *)

Lemma truthy_string_true s : truthy_string s = true ↔ s ≠ ""%string.
Proof. unfold truthy_string. by rewrite negb_true_iff, bool_decide_eq_false. Qed.

Lemma mirrorPush_uris o i items :
  map (λ m, Some (m_uri m)) (mirrorPush o i items)
  = Spotify.uris_of (List.filter fetchable items).
Proof.
  revert i. induction items as [|item items IH]; intros i; simpl; [done|].
  unfold fetchable at 1.
  destruct (item_track item) as [t|] eqn:T; [destruct (truthy_string _)|]; simpl;
    rewrite ?IH; try done.
  unfold Spotify.uris_of at 2. simpl. by rewrite T.
Qed.

Lemma mirrorPush_unfetchable o i items :
  (∀ item, item ∈ items → fetchable item = false) → mirrorPush o i items = [].
Proof.
  revert i. induction items as [|item items IH]; intros i Hf; simpl; [done|].
  pose proof (Hf item (list_elem_of_here _ _)) as F. unfold fetchable in F.
  rewrite IH by (intros; apply Hf; by right).
  destruct (item_track item); [by rewrite F|done].
Qed.

Lemma mirrorPush_new o i at_ uris :
  (∀ u, u ∈ uris → u ≠ ""%string) →
  map m_uri (mirrorPush o i (map (Spotify.new_item at_) uris)) = uris.
Proof.
  revert i. induction uris as [|u uris IH]; intros i Hu; simpl; [done|].
  assert (truthy_string u = true) as ->
    by (apply truthy_string_true, Hu, list_elem_of_here).
  simpl. f_equal. apply IH. intros; apply Hu; by right.
Qed.

Lemma elem_of_mirrorPush o i items item t :
  item ∈ items → item_track item = Some t → truthy_string (track_uri t) = true →
  track_uri t ∈ map m_uri (mirrorPush o i items).
Proof.
  revert i. induction items as [|x items IH]; intros i Hin T F; [by apply elem_of_nil in Hin|].
  simpl. apply elem_of_cons in Hin as [<-|Hin].
  - rewrite T, F. simpl. by left.
  - destruct (item_track x) as [tx|]; [destruct (truthy_string (track_uri tx))|];
      simpl; try right; by apply IH.
Qed.

Lemma mirrorPush_truthy o i items u :
  u ∈ map m_uri (mirrorPush o i items) → truthy_string u = true.
Proof.
  revert i. induction items as [|x items IH]; intros i; simpl; [by intros ?%elem_of_nil|].
  destruct (item_track x) as [t|]; [destruct (truthy_string (track_uri t)) eqn:F|];
    simpl; try apply IH.
  intros [->|?]%elem_of_cons; [done|]. by eapply IH.
Qed.

(** The entries a removal of all the URIs the client saw leaves: those it
    cannot see. *)
Lemma removal_leftover items :
  List.filter
    (λ item, negb (Spotify.holds (allCurrentUris (mirrorPush 0 0 items)) item)) items
  = List.filter (λ item, negb (fetchable item)) items.
Proof.
  apply List.filter_ext_in. intros item Hin%list_elem_of_In. f_equal.
  unfold Spotify.holds, fetchable, allCurrentUris.
  destruct (item_track item) as [t|] eqn:T; [|done].
  destruct (truthy_string (track_uri t)) eqn:F.
  - apply bool_decide_eq_true. by eapply elem_of_mirrorPush.
  - apply bool_decide_eq_false. intros Hu%mirrorPush_truthy. congruence.
Qed.



Lemma concat_chunksFrom {A} fuel (l : list A) i :
  length l - i ≤ fuel → concat (chunksFrom fuel l i) = drop i l.
Proof.
  revert i. induction fuel as [|fuel IH]; intros i Le; simpl;
    destruct (i <? length l) eqn:Lt;
    try (apply Nat.ltb_ge in Lt; by rewrite drop_ge).
  - apply Nat.ltb_lt in Lt. lia.
  - simpl. rewrite IH by lia. by rewrite slice_100, next_page.
Qed.

(** The batches of a list are the list, cut in pieces of at most 100. *)
Lemma concat_chunks {A} (l : list A) : concat (chunks l) = l.
Proof. unfold chunks. rewrite concat_chunksFrom by lia. apply drop_0. Qed.

Lemma chunksFrom_bounded {A} fuel (l : list A) i :
  Forall (λ c, 0 < length c ≤ 100) (chunksFrom fuel l i).
Proof.
  revert i. induction fuel as [|fuel IH]; intros i; simpl;
    destruct (i <? length l) eqn:Lt; try constructor; [|apply IH].
  apply slice_chunk. by apply Nat.ltb_lt.
Qed.

Lemma chunks_bounded {A} (l : list A) : Forall (λ c, 0 < length c ≤ 100) (chunks l).
Proof. apply chunksFrom_bounded. Qed.

(** ** Example worlds *)

Example spec_example_run :
  let r := syncMirrorPlaylist Spotify.api 1 Examples.spec_example in
  r.1 = Ok tt ∧ Examples.mirror_after r = [Some "C"%string] ∧
  writes (requests r.2) =
    [ReqRemoveTracksFromPlaylist "mirror" ["A"%string];
     ReqAddTracksToPlaylist "mirror" ["C"%string] None].
Proof. vm_compute. done. Qed.

(** ** Idempotence *)

Lemma elem_of_sourcePush items t :
  t ∈ sourcePush items →
  ∃ item tr, item ∈ items ∧ item_track item = Some tr ∧ uri t = track_uri tr.
Proof.
  unfold sourcePush. rewrite list_elem_of_In, in_flat_map.
  intros (item & Hin%list_elem_of_In & Ht).
  destruct (item_track item) as [tr|] eqn:T; [|done].
  destruct Ht as [<-|[]]. by exists item, tr.
Qed.

Lemma eligibleTracks_sub tz nw sourceTracks played t :
  t ∈ eligibleTracks tz nw sourceTracks played → t ∈ sourceTracks.
Proof. by intros (? & _)%elem_of_eligibleTracks. Qed.

(** The URIs the engine adds are URIs of source tracks. *)
Lemma desired_nonempty src w u :
  uris_nonempty (Spotify.playlist src (host w)) →
  u ∈ desired src w → u ≠ ""%string.
Proof.
  intros N. unfold desired, urisInOrder.
  rewrite list_elem_of_In, in_map_iff. intros (t & <- & Ht%list_elem_of_In).
  destruct (sortedTracks_spec (tza w) (now w) (fetchedSource src w) (fetchedPlayed w))
    as [Perm _].
  rewrite Perm in Ht. apply eligibleTracks_sub, elem_of_sourcePush in Ht
    as (item & tr & Hin & T & ->).
  by eapply N.
Qed.

Lemma desired_set src w :
  list_to_set (desired src w)
  = shouldBeInMirrorUris (tza w) (now w) (fetchedSource src w) (fetchedPlayed w).
Proof.
  unfold desired, urisInOrder, shouldBeInMirrorUris.
  destruct (sortedTracks_spec (tza w) (now w) (fetchedSource src w) (fetchedPlayed w))
    as [Perm _].
  apply set_eq. intros u. rewrite !elem_of_list_to_set.
  by rewrite (Permutation_map uri Perm).
Qed.

(** The mirror a rebuild leaves is seen by the next fetch as the list of the
    wanted URIs. *)
Lemma rebuilt_fetched src mir w :
  uris_nonempty (Spotify.playlist src (host w)) →
  map m_uri (mirrorPush 0 0 (rebuilt src mir w (Spotify.playlist mir (host w))))
  = desired src w.
Proof.
  intros N. unfold rebuilt, fetchedMirror. rewrite removal_leftover, mirrorPush_app.
  rewrite (mirrorPush_unfetchable 0 0).
  - simpl. apply mirrorPush_new. intros u. by apply desired_nonempty.
  - intros item [_ F]%list_elem_of_In%filter_In. by apply negb_true_iff.
Qed.

(** C5.  Two successful runs in a row, the second one on the world the first
    one leaves (same source, play history and clock), the source and the
    mirror being two playlists and no source track having an empty URI: the
    second run computes an empty [tracksToAdd] and an empty [tracksToRemove]
    and sends no write request. *)
Theorem sync_idempotent fuel fuel' w w1 w2 src mir :
  syncMirrorPlaylist Spotify.api fuel w = (Ok tt, w1) →
  syncMirrorPlaylist Spotify.api fuel' w1 = (Ok tt, w2) →
  SOURCE_PLAYLIST_ID w = Some src →
  MIRROR_PLAYLIST_ID w = Some mir →
  src ≠ mir →
  uris_nonempty (Spotify.playlist src (host w)) →
  tracksToAdd (tza w1) (now w1) (fetchedSource src w1) (fetchedPlayed w1)
              (fetchedMirror mir w1) = [] ∧
  tracksToRemove (tza w1) (now w1) (fetchedSource src w1) (fetchedPlayed w1)
                 (fetchedMirror mir w1) = [] ∧
  writes (requests w2) = writes (requests w1).
Proof.
  intros E1 E2 Src Mir Ne N.
  apply syncMirrorPlaylist_Ok with (src := src) (mir := mir) in E1
    as [((Hnow & Htza & Src1 & Mir1) & (Hh & _)) E1]; [|done..].
  apply syncMirrorPlaylist_Ok with (src := src) (mir := mir) in E2 as [_ E2];
    [|congruence..].
  assert (fetchedSource src w1 = fetchedSource src w) as ES.
  { unfold fetchedSource, Spotify.playlist.
    destruct (rebuilds src mir w); destruct E1 as (_ & O & _); by rewrite O. }
  assert (fetchedPlayed w1 = fetchedPlayed w) as EP
    by (unfold fetchedPlayed; by rewrite Hh).
  assert (rebuilds src mir w1 = false) as C.
  { unfold rebuilds. rewrite Htza, Hnow, ES, EP.
    destruct (rebuilds src mir w) eqn:C.
    - destruct E1 as (P & _). apply no_changes_sets.
      unfold currentMirrorUris, fetchedMirror. rewrite P.
      by rewrite rebuilt_fetched, desired_set.
    - destruct E1 as (P & _). unfold fetchedMirror. by rewrite P. }
  rewrite C in E2. unfold rebuilds in C. apply no_changes_iff in C as [A R].
  destruct E2 as (_ & _ & W). by rewrite app_nil_r in W.
Qed.

Lemma sync_idempotent_witness :
  let w := Examples.spec_example in
  let w1 := (syncMirrorPlaylist Spotify.api 1 w).2 in
  let w2 := (syncMirrorPlaylist Spotify.api 1 w1).2 in
  writes (requests w2) = writes (requests w1).
Proof.
  intros w w1 w2.
  assert (syncMirrorPlaylist Spotify.api 1 w = (Ok tt, w1)) as E1
    by (vm_compute; reflexivity).
  assert (syncMirrorPlaylist Spotify.api 1 w1 = (Ok tt, w2)) as E2
    by (vm_compute; reflexivity).
  assert ("source" ≠ "mirror")%string as Ne by (clear; discriminate).
  assert (uris_nonempty (Spotify.playlist "source" (host w))) as N.
  { clear. intros item t Hin. vm_compute in Hin. apply list_elem_of_In in Hin.
    destruct Hin as [<-|[<-|[<-|[]]]]; intros [= <-]; discriminate. }
  exact (proj2 (proj2 (sync_idempotent 1 1 w w1 w2 "source" "mirror"
                         E1 E2 eq_refl eq_refl Ne N))).
Defined.

(** ** Failure of a fetch *)

Global Instance nothing_written_read : ReadFrame Spotify.api nothing_written.
Proof. unfold nothing_written. apply _. Qed.

Lemma log_eq {H} (l : LogLine) (w : World H) : log l w = (Ok tt, add_console l w).
Proof. done. Qed.

(** C6.  When one of the three fetches of a run throws, the run throws the
    same error, no write request has been sent and the playlists of the host
    are what they were. *)
Theorem fetch_failure_aborts fuel w e wf :
  FetchFails Spotify.api fuel w e wf →
  syncMirrorPlaylist Spotify.api fuel w = (Throw e, add_console (LogErrorSyncing e) wf) ∧
  writes (requests wf) = writes (requests w) ∧
  Spotify.playlists (host wf) = Spotify.playlists (host w).
Proof.
  intros F. split.
  - unfold syncMirrorPlaylist. apply try_rethrow_eq_Throw.
    rewrite (bind_eq_Ok _ _ _ _ _ (log_eq _ _)).
    destruct F as [E1|src w1 E1 E2|src w1 played w2 E1 E2 E3].
    + by apply bind_eq_Throw.
    + rewrite (bind_eq_Ok _ _ _ _ _ E1).
      rewrite (bind_eq_Ok _ _ _ _ _ (log_eq _ _)).
      unfold bind at 1, get. cbn [tza now add_console].
      rewrite (bind_eq_Ok _ _ _ _ _ (log_eq _ _)).
      by apply bind_eq_Throw.
    + rewrite (bind_eq_Ok _ _ _ _ _ E1).
      rewrite (bind_eq_Ok _ _ _ _ _ (log_eq _ _)).
      unfold bind at 1, get. cbn [tza now add_console].
      rewrite (bind_eq_Ok _ _ _ _ _ (log_eq _ _)).
      rewrite (bind_eq_Ok _ _ _ _ _ E2).
      rewrite (bind_eq_Ok _ _ _ _ _ (log_eq _ _)).
      rewrite (bind_eq_Ok _ _ _ _ _ (log_eq _ _)).
      by apply bind_eq_Throw.
  - assert (nothing_written w wf) as [W P]; [|done].
    pose proof (preserves_getSourcePlaylistTracks Spotify.api nothing_written) as PS.
    pose proof (preserves_getRecentlyPlayedTracks Spotify.api nothing_written) as PP.
    pose proof (preserves_getMirrorPlaylistTracks Spotify.api nothing_written) as PM.
    destruct F as [E1|src w1 E1 E2|src w1 played w2 E1 E2 E3].
    + apply PS in E1. eapply R_trans; [apply (R_console LogStarting)|exact E1].
    + apply PS in E1. apply PP in E2.
      eapply R_trans; [apply (R_console LogStarting)|].
      eapply R_trans; [exact E1|].
      eapply R_trans; [|exact E2].
      eapply R_trans; apply R_console.
    + apply PS in E1. apply PP in E2. apply PM in E3.
      eapply R_trans; [apply (R_console LogStarting)|].
      eapply R_trans; [exact E1|].
      eapply R_trans; [|exact E3].
      eapply R_trans; [eapply R_trans; apply R_console|].
      eapply R_trans; [exact E2|].
      eapply R_trans; apply R_console.
Qed.

Lemma fetch_failure_aborts_witness :
  let w := mirror_page_refused in
  ∃ wf,
    syncMirrorPlaylist Spotify.api 1 w
    = (Throw (ApiError 500), add_console (LogErrorSyncing (ApiError 500)) wf) ∧
    writes (requests wf) = writes (requests w) ∧
    Spotify.playlists (host wf) = Spotify.playlists (host w).
Proof.
  intros w. eexists. apply fetch_failure_aborts.
  eapply MirrorFetchFails.
  - vm_compute. reflexivity.
  - vm_compute. reflexivity.
  - vm_compute. reflexivity.
Defined.

(** ** The boundary of the retention window *)

(** The retention window of the example clock is the 365 days since
    2025-11-02T00:00:00Z; from a 29th of February, a year back is the
    1st of March. *)
Example oneYearAgo_today :
  oneYearAgo 0 Examples.today = (Examples.today - 365 * Examples.day)%Z.
Proof. vm_compute. reflexivity. Qed.

Example oneYearAgo_leap_day :
  oneYearAgo 0 1709208000000 (* 2024-02-29T12:00:00Z *)
  = 1677672000000%Z          (* 2023-03-01T12:00:00Z *).
Proof. vm_compute. reflexivity. Qed.

(** The boundary of the lock period: a track played at [fiveDaysAgo] is
    locked, a track played one millisecond earlier is not. *)
Lemma lock_boundary_inclusive tz nw :
  isPlayedRecentlyWithinLockPeriod tz nw (fiveDaysAgo tz nw) = true ∧
  isPlayedRecentlyWithinLockPeriod tz nw (fiveDaysAgo tz nw - 1) = false.
Proof. unfold isPlayedRecentlyWithinLockPeriod. lia. Qed.

Example fiveDaysAgo_today :
  fiveDaysAgo 0 Examples.today = (Examples.today - 5 * Examples.day)%Z.
Proof. vm_compute. reflexivity. Qed.

(** ** Duplicates in the play history *)

Lemma Map_set_values_uris {V} (k : string) (v : V) m :
  k ∈ map fst (Map_set k v m).
Proof.
  induction m as [|[k' v'] m IH]; simpl; [by left|].
  destruct (decide (k = k')); simpl; [by left|by right].
Qed.

(** [Map_set] keeps the keys apart. *)
Lemma Map_set_NoDup {V} (k : string) (v : V) m :
  NoDup (map fst m) → NoDup (map fst (Map_set k v m)).
Proof.
  induction m as [|[k' v'] m IH]; simpl; intros N.
  - repeat constructor. apply not_elem_of_nil.
  - apply NoDup_cons in N as [Nk N]. destruct (decide (k = k')) as [->|Ne]; simpl.
    + by apply NoDup_cons.
    + apply NoDup_cons. split; [|by apply IH].
      clear IH N. induction m as [|[k'' v''] m IH]; simpl in *.
      * by intros [?|?%elem_of_nil]%elem_of_cons.
      * apply not_elem_of_cons in Nk as [? ?].
        destruct (decide (k = k'')); simpl; apply not_elem_of_cons; auto.
Qed.

Lemma elem_of_Map_set {V} (k : string) (v : V) m k' v' :
  NoDup (map fst m) →
  (k', v') ∈ Map_set k v m ↔ (k' = k ∧ v' = v) ∨ (k' ≠ k ∧ (k', v') ∈ m).
Proof.
  induction m as [|[k0 v0] m IH]; simpl; intros N.
  - rewrite list_elem_of_singleton. split.
    + intros [= -> ->]. by left.
    + intros [[-> ->]|[_ ?%elem_of_nil]]; done.
  - apply NoDup_cons in N as [Nk N]. destruct (decide (k = k0)) as [->|Ne].
    + rewrite !elem_of_cons. split.
      * intros [[= -> ->]|Hin]; [by left|]. right. split; [|by right].
        intros ->. apply Nk. apply list_elem_of_In, in_map_iff.
        exists (k0, v'). split; [done|]. by apply list_elem_of_In.
      * intros [[-> ->]|[Ne [[= -> ->]|Hin]]]; [by left|done|by right].
    + rewrite !elem_of_cons, IH by done. split.
      * intros [[= -> ->]|[?|[? ?]]]; [right; split; [done|by left]|by left|].
        right. split; [done|by right].
      * intros [?|[? [?|?]]]; [right; by left|by left|right; by right].
Qed.

Lemma Map_new_snoc {V} (entries : list (string * V)) e :
  Map_new (entries ++ [e]) = Map_set e.1 e.2 (Map_new entries).
Proof. unfold Map_new. by rewrite fold_left_app. Qed.

Lemma Map_new_NoDup {V} (entries : list (string * V)) :
  NoDup (map fst (Map_new entries)).
Proof.
  induction entries as [|e entries IH] using rev_ind; [constructor|].
  rewrite Map_new_snoc. by apply Map_set_NoDup.
Qed.

(** The [Map] built from a list of entries holds, for each key, the last
    entry of the list that has the key. *)
Lemma elem_of_Map_new {V} (entries : list (string * V)) k v :
  (k, v) ∈ Map_new entries ↔
  ∃ l1 l2, entries = l1 ++ (k, v) :: l2 ∧ k ∉ map fst l2.
Proof.
  induction entries as [|e entries IH] using rev_ind.
  - split; [by intros ?%elem_of_nil|]. intros (l1 & l2 & E & _).
    by destruct l1.
  - rewrite Map_new_snoc, elem_of_Map_set by apply Map_new_NoDup. split.
    + intros [[-> ->]|[Ne (l1 & l2 & -> & Nk)%IH]].
      * exists entries, []. split; [by destruct e|apply not_elem_of_nil].
      * exists l1, (l2 ++ [e]). split; [by rewrite <- app_assoc|].
        rewrite map_app. simpl. rewrite elem_of_app, list_elem_of_singleton.
        intros [?|?]; done.
    + intros (l1 & l2 & E & Nk).
      destruct l2 as [|e' l2 _] using rev_ind.
      * apply app_inj_tail in E as [_ ->]. by left.
      * rewrite app_comm_cons, app_assoc in E. apply app_inj_tail in E as [-> <-].
        rewrite map_app, elem_of_app in Nk. simpl in Nk.
        right. split.
        -- intros ->. apply Nk. right. by left.
        -- apply IH. exists l1, l2. split; [done|]. intros ?. apply Nk. by left.
Qed.

(** [uniqueTracks] keeps one event for each URI: the last one of the
    list. *)
Lemma elem_of_uniqueTracks tracks t :
  t ∈ uniqueTracks tracks ↔
  ∃ l1 l2, tracks = l1 ++ t :: l2 ∧ ∀ t', t' ∈ l2 → p_uri t' ≠ p_uri t.
Proof.
  unfold uniqueTracks, Map_values. rewrite list_elem_of_In, in_map_iff. split.
  - intros ([k t'] & E & Hin%list_elem_of_In). simpl in E. subst t'.
    apply elem_of_Map_new in Hin as (e1 & e2 & E & Nk).
    apply map_eq_app in E as (l1 & l2' & -> & <- & E).
    apply map_eq_cons in E as (t' & l2 & -> & [= <- <-] & <-).
    exists l1, l2. split; [done|]. intros t'' Hin E. apply Nk.
    rewrite map_map. simpl. rewrite <- E. apply list_elem_of_In, in_map.
    by apply list_elem_of_In.
  - intros (l1 & l2 & -> & Nk). exists (p_uri t, t). split; [done|].
    apply list_elem_of_In, elem_of_Map_new.
    exists (map (λ track, (p_uri track, track)) l1),
           (map (λ track, (p_uri track, track)) l2).
    split; [by rewrite map_app|].
    rewrite map_map. simpl. intros (t' & E & Hin)%list_elem_of_In%in_map_iff.
    by apply (Nk t'); [apply list_elem_of_In|].
Qed.

Lemma uniqueTracks_NoDup tracks : NoDup (map p_uri (uniqueTracks tracks)).
Proof.
  unfold uniqueTracks, Map_values.
  pose proof (Map_new_NoDup (map (λ track, (p_uri track, track)) tracks)) as N.
  assert (∀ e, e ∈ Map_new (map (λ track, (p_uri track, track)) tracks) →
               p_uri e.2 = e.1) as K.
  { intros [k t] (l1 & l2 & E & _)%elem_of_Map_new.
    apply map_eq_app in E as (? & ? & _ & _ & E).
    by apply map_eq_cons in E as (? & ? & _ & [= <- <-] & _). }
  rewrite map_map.
  erewrite map_ext_in; [exact N|].
  intros e He%list_elem_of_In. by apply K.
Qed.

(** Of the events of one track, [uniqueTracks] keeps the oldest one when
    the list is newest first. *)
Lemma uniqueTracks_keeps_oldest tracks t t' :
  newest_played_first tracks →
  t ∈ uniqueTracks tracks → t' ∈ tracks → p_uri t' = p_uri t →
  (playedAt t ≤ playedAt t')%Z.
Proof.
  intros S (l1 & l2 & -> & Nk)%elem_of_uniqueTracks Hin E.
  apply elem_of_app in Hin as [Hin|[->|Hin]%elem_of_cons].
  - unfold newest_played_first in S. induction l1 as [|x l1 IH]; [by apply elem_of_nil in Hin|].
    simpl in S. apply StronglySorted_inv in S as [S F].
    apply elem_of_cons in Hin as [->|Hin]; [|by apply IH].
    rewrite Forall_forall in F. apply F.
    apply elem_of_app. right. by left.
  - lia.
  - by apply Nk in Hin.
Qed.

(** C2 on this history: the accessor returns one event for A, the older
    one; yesterday's event would lock A, but the set of locked URIs is empty
    and the run puts A in the mirror. *)
Lemma most_recent_play_is_dropped :
  (getRecentlyPlayedTracks Spotify.api played_twice).1
  = Ok [ {| p_uri := "A"; playedAt := Examples.today - 6 * Examples.day |} ] ∧
  isPlayedRecentlyWithinLockPeriod 0 Examples.today
    (Examples.today - 1 * Examples.day) = true ∧
  recentlyPlayedUris 0 Examples.today (fetchedPlayed played_twice) = ∅ ∧
  Examples.mirror_after (syncMirrorPlaylist Spotify.api 1 played_twice)
  = [Some "A"%string].
Proof. vm_compute. repeat split; reflexivity. Qed.

(** ** Hosts that answer from a script *)

(** The refresh of the token on a scripted host: it never fails and leaves
    the script where it is. *)
Lemma scripted_ensureAccessToken w :
  ∃ w1, ensureAccessToken Scripted.api w = (Ok tt, w1) ∧
        host w1 = host w ∧
        SOURCE_PLAYLIST_ID w1 = SOURCE_PLAYLIST_ID w ∧
        MIRROR_PLAYLIST_ID w1 = MIRROR_PLAYLIST_ID w ∧
        page_requests (requests w1) = page_requests (requests w).
Proof.
  unfold ensureAccessToken, bind, get.
  destruct (_ >? _)%Z.
  - by exists w.
  - eexists. split; [reflexivity|]. cbn. repeat split; try done.
    unfold page_requests. rewrite List.filter_app. simpl. apply app_nil_r.
Qed.

Lemma scripted_page_request id o l w items :
  Scripted.pages (host w) (Scripted.asked_pages (host w)) = Resolved items →
  request (ReqGetPlaylistTracks id o l) (getPlaylistTracks Scripted.api id o l) w
  = (Ok items,
     set_host (Scripted.next_page (host w)).2 (add_request (ReqGetPlaylistTracks id o l) w)).
Proof.
  intros E. unfold request. cbn [getPlaylistTracks Scripted.api host add_request].
  unfold Scripted.next_page at 1. by rewrite E.
Qed.

Lemma seq_first n k : n ≤ k → seq n (S k - n) = n :: seq (S n) (S k - S n).
Proof. intros Le. replace (S k - n) with (S (k - n)) by lia. done. Qed.

Lemma scripted_sourceLoop (ps : nat → list PlaylistItem) k fuel id tracks w n :
  Scripted.pages (host w) = (λ j, Resolved (ps j)) →
  Scripted.asked_pages (host w) = n →
  n ≤ k → (∀ j, n ≤ j < k → length (ps j) = 100) → length (ps k) ≠ 100 →
  k - n < fuel →
  ∃ w', sourceLoop Scripted.api fuel id tracks (100 * n) w
        = (Ok (tracks ++ pushed_source ps n k), w') ∧
        requests w' = requests w ++ pages_asked id n (S k - n) ∧
        Scripted.asked_pages (host w') = S k.
Proof.
  revert tracks w n.
  induction fuel as [|fuel IH]; intros tracks w n Hp Hn Le Full Short Fuel; [lia|].
  cbn [sourceLoop].
  erewrite bind_eq_Ok; [|apply scripted_page_request; by rewrite Hp, Hn].
  unfold pushed_source, pages_asked. rewrite seq_first by done.
  cbn [flat_map map].
  destruct (length (ps n) =? 100) eqn:E.
  - apply Nat.eqb_eq in E. assert (n < k) as Lt.
    { destruct (decide (n = k)) as [->|]; [done|lia]. }
    match goal with |- context [sourceLoop _ _ _ _ _ ?w1] =>
      destruct (IH (tracks ++ sourcePush (ps n)) w1 (S n)) as (w' & E' & R' & A')
    end.
    + done.
    + cbn [host set_host Scripted.next_page snd Scripted.asked_pages]. by rewrite Hn.
    + lia.
    + intros j ?. apply Full. lia.
    + done.
    + lia.
    + replace (100 * n + 100) with (100 * S n) by lia.
      exists w'. split; [|split; [|done]].
      * rewrite E'. unfold pushed_source. by rewrite <- app_assoc.
      * rewrite R'. cbn [requests set_host add_request].
        unfold pages_asked. by rewrite <- app_assoc.
  - apply Nat.eqb_neq in E. assert (n = k) as ->.
    { destruct (decide (n = k)) as [->|]; [done|]. exfalso. apply E, Full. lia. }
    replace (S k - S k) with 0 by lia. cbn [seq flat_map map]. rewrite app_nil_r.
    eexists. split; [reflexivity|]. split; [done|].
    cbn [host set_host Scripted.next_page snd Scripted.asked_pages]. by rewrite Hn.
Qed.

Lemma scripted_sourceLoop_diverges (ps : nat → list PlaylistItem) fuel id tracks offset w :
  Scripted.pages (host w) = (λ j, Resolved (ps j)) →
  (∀ j, length (ps j) = 100) →
  (sourceLoop Scripted.api fuel id tracks offset w).1 = Diverge.
Proof.
  revert tracks offset w.
  induction fuel as [|fuel IH]; intros tracks offset w Hp Full; [done|].
  cbn [sourceLoop].
  erewrite bind_eq_Ok; [|apply scripted_page_request; by rewrite Hp].
  rewrite Full, Nat.eqb_refl. by apply IH.
Qed.

Lemma scripted_mirrorLoop (ps : nat → list PlaylistItem) k fuel id tracks w n :
  Scripted.pages (host w) = (λ j, Resolved (ps j)) →
  Scripted.asked_pages (host w) = n →
  n ≤ k → (∀ j, n ≤ j < k → length (ps j) = 100) → length (ps k) ≠ 100 →
  k - n < fuel →
  ∃ w', mirrorLoop Scripted.api fuel id tracks (100 * n) w
        = (Ok (tracks ++ pushed_mirror ps n k), w') ∧
        requests w' = requests w ++ pages_asked id n (S k - n) ∧
        Scripted.asked_pages (host w') = S k.
Proof.
  revert tracks w n.
  induction fuel as [|fuel IH]; intros tracks w n Hp Hn Le Full Short Fuel; [lia|].
  cbn [mirrorLoop].
  erewrite bind_eq_Ok; [|apply scripted_page_request; by rewrite Hp, Hn].
  unfold pushed_mirror, pages_asked. rewrite seq_first by done.
  cbn [flat_map map].
  destruct (length (ps n) =? 100) eqn:E.
  - apply Nat.eqb_eq in E. assert (n < k) as Lt.
    { destruct (decide (n = k)) as [->|]; [done|lia]. }
    match goal with |- context [mirrorLoop _ _ _ _ _ ?w1] =>
      destruct (IH (tracks ++ mirrorPush (100 * n) 0 (ps n)) w1 (S n)) as (w' & E' & R' & A')
    end.
    + done.
    + cbn [host set_host Scripted.next_page snd Scripted.asked_pages]. by rewrite Hn.
    + lia.
    + intros j ?. apply Full. lia.
    + done.
    + lia.
    + replace (100 * n + 100) with (100 * S n) by lia.
      exists w'. split; [|split; [|done]].
      * rewrite E'. unfold pushed_mirror. by rewrite <- app_assoc.
      * rewrite R'. cbn [requests set_host add_request].
        unfold pages_asked. by rewrite <- app_assoc.
  - apply Nat.eqb_neq in E. assert (n = k) as ->.
    { destruct (decide (n = k)) as [->|]; [done|]. exfalso. apply E, Full. lia. }
    replace (S k - S k) with 0 by lia. cbn [seq flat_map map]. rewrite app_nil_r.
    eexists. split; [reflexivity|]. split; [done|].
    cbn [host set_host Scripted.next_page snd Scripted.asked_pages]. by rewrite Hn.
Qed.

Lemma scripted_mirrorLoop_diverges (ps : nat → list PlaylistItem) fuel id tracks offset w :
  Scripted.pages (host w) = (λ j, Resolved (ps j)) →
  (∀ j, length (ps j) = 100) →
  (mirrorLoop Scripted.api fuel id tracks offset w).1 = Diverge.
Proof.
  revert tracks offset w.
  induction fuel as [|fuel IH]; intros tracks offset w Hp Full; [done|].
  cbn [mirrorLoop].
  erewrite bind_eq_Ok; [|apply scripted_page_request; by rewrite Hp].
  rewrite Full, Nat.eqb_refl. by apply IH.
Qed.

Lemma full_or_short (ps : nat → list PlaylistItem) n :
  (∀ j, j < n → length (ps j) = 100) ∨
  (∃ k, k < n ∧ (∀ j, j < k → length (ps j) = 100) ∧ length (ps k) ≠ 100).
Proof.
  induction n as [|n [Full|(k & Lt & Full & Short)]].
  - left. intros j ?. lia.
  - destruct (decide (length (ps n) = 100)) as [E|Ne].
    + left. intros j Lt. destruct (decide (j = n)) as [->|]; [done|]. apply Full. lia.
    + right. exists n. split; [lia|done].
  - right. exists k. split; [lia|done].
Qed.

(** The first page that is not full, when some page is short. *)
Lemma first_short_page (ps : nat → list PlaylistItem) n :
  length (ps n) < 100 →
  ∃ k, k ≤ n ∧ (∀ j, j < k → length (ps j) = 100) ∧ length (ps k) ≠ 100.
Proof.
  intros Short. destruct (full_or_short ps n) as [Full|(k & Lt & Full & Ne)].
  - exists n. split; [done|]. split; [done|lia].
  - exists k. split; [lia|done].
Qed.

Lemma scripted_getSourcePlaylistTracks (ps : nat → list PlaylistItem) plays k fuel :
  (∀ j, j < k → length (ps j) = 100) → length (ps k) ≠ 100 → k < fuel →
  ∃ w', getSourcePlaylistTracks Scripted.api fuel
          (Scripted.world (λ j, Resolved (ps j)) plays)
        = (Ok (pushed_source ps 0 k), w') ∧
        page_requests (requests w') = pages_asked "source" 0 (S k).
Proof.
  intros Full Short Fuel. unfold getSourcePlaylistTracks.
  destruct (scripted_ensureAccessToken (Scripted.world (λ j, Resolved (ps j)) plays))
    as (w1 & E1 & Hh & Src & _ & Rq).
  rewrite (bind_eq_Ok _ _ _ _ _ E1). unfold bind at 1, get. rewrite Src.
  cbn [SOURCE_PLAYLIST_ID Scripted.world].
  change (truthy_string "source") with true. cbv iota.
  destruct (scripted_sourceLoop ps k fuel "source" [] w1 0) as (w' & E & R & _);
    try (by rewrite Hh); try lia.
  - intros j ?. apply Full. lia.
  - exists w'. split; [exact E|].
    rewrite R. unfold page_requests in *. rewrite List.filter_app, Rq.
    replace (S k - 0) with (S k) by lia. cbn [requests Scripted.world List.filter app].
    unfold pages_asked. clear. induction (seq 0 (S k)) as [|j l IH]; [done|].
    cbn [map List.filter]. by rewrite IH.
Qed.

Lemma scripted_getMirrorPlaylistTracks (ps : nat → list PlaylistItem) plays k fuel :
  (∀ j, j < k → length (ps j) = 100) → length (ps k) ≠ 100 → k < fuel →
  ∃ w', getMirrorPlaylistTracks Scripted.api fuel
          (Scripted.world (λ j, Resolved (ps j)) plays)
        = (Ok (pushed_mirror ps 0 k), w') ∧
        page_requests (requests w') = pages_asked "mirror" 0 (S k).
Proof.
  intros Full Short Fuel. unfold getMirrorPlaylistTracks.
  destruct (scripted_ensureAccessToken (Scripted.world (λ j, Resolved (ps j)) plays))
    as (w1 & E1 & Hh & _ & Mir & Rq).
  rewrite (bind_eq_Ok _ _ _ _ _ E1). unfold bind at 1, get. rewrite Mir.
  cbn [MIRROR_PLAYLIST_ID Scripted.world].
  change (truthy_string "mirror") with true. cbv iota.
  destruct (scripted_mirrorLoop ps k fuel "mirror" [] w1 0) as (w' & E & R & _);
    try (by rewrite Hh); try lia.
  - intros j ?. apply Full. lia.
  - exists w'. split; [exact E|].
    rewrite R. unfold page_requests in *. rewrite List.filter_app, Rq.
    replace (S k - 0) with (S k) by lia. cbn [requests Scripted.world List.filter app].
    unfold pages_asked. clear. induction (seq 0 (S k)) as [|j l IH]; [done|].
    cbn [map List.filter]. by rewrite IH.
Qed.

Lemma scripted_fetch_diverges (ps : nat → list PlaylistItem) plays fuel :
  (∀ j, length (ps j) = 100) →
  (getSourcePlaylistTracks Scripted.api fuel
     (Scripted.world (λ j, Resolved (ps j)) plays)).1 = Diverge ∧
  (getMirrorPlaylistTracks Scripted.api fuel
     (Scripted.world (λ j, Resolved (ps j)) plays)).1 = Diverge.
Proof.
  intros Full.
  destruct (scripted_ensureAccessToken (Scripted.world (λ j, Resolved (ps j)) plays))
    as (w1 & E1 & Hh & Src & Mir & _).
  unfold getSourcePlaylistTracks, getMirrorPlaylistTracks.
  rewrite !(bind_eq_Ok _ _ _ _ _ E1). unfold bind, get. rewrite Src, Mir.
  cbn [SOURCE_PLAYLIST_ID MIRROR_PLAYLIST_ID Scripted.world].
  change (truthy_string "source") with true.
  change (truthy_string "mirror") with true. cbv iota.
  split.
  - apply (scripted_sourceLoop_diverges ps); [by rewrite Hh|done].
  - apply (scripted_mirrorLoop_diverges ps); [by rewrite Hh|done].
Qed.

Lemma served_pages items n :
  flat_map (served items) (seq 0 n) = take (100 * n) items.
Proof.
  induction n as [|n IH]; [done|].
  rewrite seq_S, flat_map_app, IH. cbn [flat_map]. rewrite app_nil_r.
  unfold served. rewrite take_take_drop. f_equal. lia.
Qed.

Lemma pushed_source_flat (ps : nat → list PlaylistItem) (l : list nat) :
  flat_map (λ j, sourcePush (ps j)) l = sourcePush (flat_map ps l).
Proof.
  induction l as [|j l IH]; [done|]. cbn [flat_map]. by rewrite sourcePush_app, IH.
Qed.

Lemma pushed_mirror_served items n :
  flat_map (λ j, mirrorPush (100 * j) 0 (served items j)) (seq 0 n)
  = mirrorPush 0 0 (take (100 * n) items).
Proof.
  induction n as [|n IH]; [done|].
  rewrite seq_S, flat_map_app, IH. cbn [flat_map]. rewrite app_nil_r.
  replace (100 * S n) with (100 * n + 100) by lia.
  rewrite <- take_take_drop, mirrorPush_app. f_equal.
  rewrite (mirrorPush_shift (100 * n) 0), Nat.add_0_r. simpl "+".
  unfold served. rewrite length_take.
  destruct (decide (100 * n ≤ length items)) as [Le|Gt].
  - by rewrite Nat.min_l.
  - by rewrite drop_ge by lia.
Qed.

(** A playlist of [100 * m] entries has [m] full pages and an empty one. *)
Lemma served_exact_multiple items m :
  length items = 100 * m →
  (∀ j, j < m → length (served items j) = 100) ∧ served items m = [].
Proof.
  intros L. split.
  - intros j Lt. unfold served. rewrite length_take, length_drop. lia.
  - unfold served. by rewrite drop_ge by lia.
Qed.

(** [sourcePush] keeps the entries whose track is not null, in order. *)
Lemma sourcePush_non_null items :
  map (λ t, (addedAt t, track t)) (sourcePush items)
  = omap (λ item, pair (added_at item) <$> item_track item) items.
Proof.
  induction items as [|item items IH]; [done|]. cbn.
  destruct (item_track item); cbn; by rewrite <- IH.
Qed.

(** [mirrorPush] keeps the entries whose track is not null and has a
    non-empty URI: all the tracks that are not null when no URI is empty. *)
Lemma mirrorPush_non_null o i items :
  uris_nonempty items →
  map m_uri (mirrorPush o i items)
  = omap (λ item, track_uri <$> item_track item) items.
Proof.
  revert i. induction items as [|item items IH]; intros i N; [done|]. cbn.
  assert (uris_nonempty items) as N' by (intros x t ?; apply N; by right).
  destruct (item_track item) as [t|] eqn:T; cbn; [|by apply IH].
  rewrite (proj2 (truthy_string_true (track_uri t)))
    by (eapply N; [by left|done]).
  cbn. f_equal. by apply IH.
Qed.

(** C10.  On a host that answers the [j]-th page request with [ps j]:
    when some page has fewer than 100 entries, there is a first page [k]
    that is not full, and with enough fuel each of the two fetches returns
    the tracks pushed from pages 0 to [k], in this order, after exactly
    [k + 1] page requests; a playlist of [100 * m] entries served 100 a page
    is fetched with [m + 1] requests, the last page being empty; when
    every page has 100 entries both fetches run out of any fuel.  The tracks
    pushed from a page are those of its entries whose track is not null (for
    the mirror: when no track has an empty URI). *)
Theorem pagination_stops_at_short_page (ps : nat → list PlaylistItem) plays :
  let w := Scripted.world (λ j, Resolved (ps j)) plays in
  (∀ n, length (ps n) < 100 →
     ∃ k, k ≤ n ∧ (∀ j, j < k → length (ps j) = 100) ∧ length (ps k) ≠ 100 ∧
       ((∀ j, length (ps j) ≤ 100) → length (ps k) < 100) ∧
       ∀ fuel, k < fuel →
         (∃ w', getSourcePlaylistTracks Scripted.api fuel w
                = (Ok (pushed_source ps 0 k), w') ∧
                page_requests (requests w') = pages_asked "source" 0 (S k)) ∧
         (∃ w', getMirrorPlaylistTracks Scripted.api fuel w
                = (Ok (pushed_mirror ps 0 k), w') ∧
                page_requests (requests w') = pages_asked "mirror" 0 (S k))) ∧
  (∀ items m, ps = served items → length items = 100 * m →
     ps m = [] ∧
     ∀ fuel, m < fuel →
       (∃ w', getSourcePlaylistTracks Scripted.api fuel w = (Ok (sourcePush items), w') ∧
              page_requests (requests w') = pages_asked "source" 0 (S m)) ∧
       (∃ w', getMirrorPlaylistTracks Scripted.api fuel w = (Ok (mirrorPush 0 0 items), w') ∧
              page_requests (requests w') = pages_asked "mirror" 0 (S m))) ∧
  ((∀ j, length (ps j) = 100) →
     ∀ fuel, (getSourcePlaylistTracks Scripted.api fuel w).1 = Diverge ∧
             (getMirrorPlaylistTracks Scripted.api fuel w).1 = Diverge) ∧
  (∀ j, map (λ t, (addedAt t, track t)) (sourcePush (ps j))
        = omap (λ item, pair (added_at item) <$> item_track item) (ps j)) ∧
  (∀ j, uris_nonempty (ps j) →
        map m_uri (mirrorPush (100 * j) 0 (ps j))
        = omap (λ item, track_uri <$> item_track item) (ps j)).
Proof.
  intros w. split; [|split; [|split; [|split]]].
  - intros n Short. destruct (first_short_page ps n Short) as (k & Le & Full & Ne).
    exists k. split; [done|]. split; [done|]. split; [done|]. split.
    + intros Limit. specialize (Limit k). lia.
    + intros fuel Fuel. split.
      * by apply scripted_getSourcePlaylistTracks.
      * by apply scripted_getMirrorPlaylistTracks.
  - intros items m -> L. destruct (served_exact_multiple items m L) as [Full Empty].
    split; [done|]. intros fuel Fuel.
    assert (length (served items m) ≠ 100) as Ne by by rewrite Empty.
    destruct (scripted_getSourcePlaylistTracks (served items) plays m fuel Full Ne Fuel)
      as (w1 & E1 & R1).
    destruct (scripted_getMirrorPlaylistTracks (served items) plays m fuel Full Ne Fuel)
      as (w2 & E2 & R2).
    split.
    + exists w1. split; [|done]. subst w. rewrite E1. f_equal. f_equal.
      unfold pushed_source. replace (S m - 0) with (S m) by lia.
      rewrite pushed_source_flat, served_pages. f_equal. apply take_ge. lia.
    + exists w2. split; [|done]. subst w. rewrite E2. f_equal. f_equal.
      unfold pushed_mirror. replace (S m - 0) with (S m) by lia.
      rewrite pushed_mirror_served. f_equal. apply take_ge. lia.
  - intros Full fuel. by apply scripted_fetch_diverges.
  - intros j. apply sourcePush_non_null.
  - intros j. apply mirrorPush_non_null.
Qed.

Lemma pagination_stops_at_short_page_witness :
  let items := replicate 100 (Examples.entry "A" 1) in
  ∃ w', getSourcePlaylistTracks Scripted.api 2
          (Scripted.world (λ j, Resolved (served items j)) (λ _, Resolved []))
        = (Ok (sourcePush items), w') ∧
        page_requests (requests w')
        = [ReqGetPlaylistTracks "source" 0 100; ReqGetPlaylistTracks "source" 100 100].
Proof.
  intros items.
  destruct (pagination_stops_at_short_page (served items) (λ _, Resolved []))
    as (_ & Multiple & _).
  destruct (Multiple items 1 eq_refl) as [_ Fetch]; [vm_compute; reflexivity|].
  destruct (Fetch 2) as [Source _]; [lia|]. exact Source.
Defined.

(** ** Partial results of the play history *)



Lemma playedPush_app l1 l2 : playedPush (l1 ++ l2) = playedPush l1 ++ playedPush l2.
Proof. unfold playedPush. apply flat_map_app. Qed.





Lemma script_lookup {A} (l : list (Response (list A))) r j :
  j < length l → l !! j = Some r → Scripted.script l j = r.
Proof. intros _ E. unfold Scripted.script. by rewrite E. Qed.




(** ** What a run returns and what it prints *)

(** [syncMirrorPlaylist] is a [Promise<void>]: the value of a run is the
    same whatever was fetched, so no count can be read from it. *)
Lemma sync_returns_no_counts :
  ¬ ∃ result_of : unit → SyncResult,
      ∀ w r w', syncMirrorPlaylist Spotify.api 1 w = (Ok r, w') →
                result_of r = counts "source" "mirror" w.
Proof.
  intros [result_of Carries].
  assert (∃ w', syncMirrorPlaylist Spotify.api 1 Examples.spec_example = (Ok tt, w'))
    as [w1 E1] by (eexists; vm_compute; reflexivity).
  assert (∃ w', syncMirrorPlaylist Spotify.api 1 Examples.twice = (Ok tt, w'))
    as [w2 E2] by (eexists; vm_compute; reflexivity).
  apply Carries in E1. apply Carries in E2. rewrite E1 in E2. clear -E2.
  apply (f_equal fetched) in E2. vm_compute in E2. discriminate E2.
Qed.

Lemma logs_more_console {H} (w w' : World H) l :
  logs_more w w' → ∃ l', console (add_console l w') = console w ++ l' ++ [l].
Proof. intros [l' E]. exists l'. cbn. by rewrite E, app_assoc. Qed.

(** The loop of the additions prints a progress line after each batch. *)
Lemma syncAddLoop_console fuel uris k w w' :
  syncAddLoop Spotify.api fuel uris (100 * k) w = (Ok tt, w') →
  ∃ l, console w' = console w ++ l ∧
       imap (λ j _, LogAdded (Nat.min (100 * S (k + j)) (length uris)) (length uris))
            (chunksFrom fuel uris (100 * k)) `sublist_of` l.
Proof.
  revert k w. induction fuel as [|fuel IH]; intros k w;
    remember (100 * k) as i eqn:Ei; cbn [syncAddLoop chunksFrom];
    destruct (i <? length uris) eqn:Lt.
  - done.
  - intros [= <-]. exists []. by rewrite app_nil_r.
  - intros E. apply bind_Ok in E as ([] & w1 & E1 & E).
    apply (preserves_addTracksToMirrorPlaylist Spotify.api logs_more) in E1 as [l1 C1].
    assert (i mod 100 = 0) as M
      by (rewrite Ei, Nat.mul_comm; apply Nat.Div0.mod_mul).
    rewrite M in E. cbn [Nat.eqb orb] in E.
    apply bind_Ok in E as ([] & w2 & E2 & E).
    unfold log, modify in E2. injection E2 as <-.
    assert (i + 100 = 100 * S k) as Ei' by lia. rewrite Ei' in E |- *.
    apply IH in E as (l & C & Sub). cbn [console add_console] in C.
    exists (l1 ++ LogAdded (Nat.min (100 * S k) (length uris)) (length uris) :: l).
    split; [by rewrite C, C1, <- !app_assoc|].
    cbn [imap]. rewrite Nat.add_0_r. apply sublist_inserts_l, sublist_skip.
    erewrite imap_ext; [exact Sub|]. intros j c _. unfold compose.
    by replace (k + S j) with (S k + j) by lia.
  - intros [= <-]. exists []. by rewrite app_nil_r.
Qed.

Lemma syncAddLoop_progress uris w w' :
  syncAddLoop Spotify.api (length uris) uris 0 w = (Ok tt, w') →
  ∃ l, console w' = console w ++ l ∧ progress uris `sublist_of` l.
Proof. intros E. apply (syncAddLoop_console _ _ 0) in E. exact E. Qed.

Lemma syncMirrorPlaylist_console fuel w w' src mir :
  syncMirrorPlaylist Spotify.api fuel w = (Ok tt, w') →
  SOURCE_PLAYLIST_ID w = Some src →
  MIRROR_PLAYLIST_ID w = Some mir →
  ∃ l1 l2 l3 l4, console w' = console w ++ printed src mir w l1 l2 l3 l4 ∧
                 (rebuilds src mir w = true → rebuild_lines src mir w `sublist_of` l4).
Proof.
  intros E Src Mir. unfold syncMirrorPlaylist in E. apply try_rethrow_Ok in E.
  apply bind_Ok in E as ([] & ? & [= <-] & E).
  apply bind_Ok in E as (sourceTracks & w1 & E1 & E).
  pose proof (preserves_getSourcePlaylistTracks Spotify.api logs_more _ _ _ _ E1)
    as [l1 C1].
  apply getSourcePlaylistTracks_Ok with (src := src) in E1 as [ES R1]; [|done].
  apply read_only_log_l in R1.
  change (sourceTracks = fetchedSource src w) in ES. subst sourceTracks.
  apply bind_Ok in E as ([] & ? & [= <-] & E).
  apply bind_Ok in E as (? & ? & [= <- <-] & E).
  cbn [tza now add_console] in E.
  pose proof R1 as ((Hnow & Htza & _ & Mir1) & (Hh & _) & Hp & _).
  rewrite Hnow, Htza in E.
  apply bind_Ok in E as ([] & ? & [= <-] & E).
  apply bind_Ok in E as (played & w2 & E2 & E).
  pose proof (preserves_getRecentlyPlayedTracks Spotify.api logs_more _ _ _ E2)
    as [l2 C2].
  apply getRecentlyPlayedTracks_Ok in E2 as [EP R2].
  cbn [host add_console] in EP. rewrite Hh in EP.
  change (played = fetchedPlayed w) in EP. subst played.
  apply bind_Ok in E as ([] & ? & [= <-] & E).
  apply bind_Ok in E as ([] & ? & [= <-] & E).
  apply bind_Ok in E as (mirrorTracks & w3 & E3 & E).
  pose proof (preserves_getMirrorPlaylistTracks Spotify.api logs_more _ _ _ _ E3)
    as [l3 C3].
  pose proof R2 as ((_ & _ & _ & Mir2) & _ & Hp2 & _).
  cbn [MIRROR_PLAYLIST_ID add_console host] in Mir2, Hp2.
  apply getMirrorPlaylistTracks_Ok with (mir := mir) in E3 as [EM R3];
    [|cbn [MIRROR_PLAYLIST_ID add_console]; congruence].
  assert (mirrorTracks = fetchedMirror mir w) as ->.
  { subst mirrorTracks. unfold fetchedMirror. f_equal. cbn [host add_console].
    rewrite (read_only_playlist mir _ _ R2). cbn [host add_console].
    apply (read_only_playlist mir _ _ R1). }
  apply bind_Ok in E as ([] & ? & [= <-] & E).
  apply bind_Ok in E as ([] & ? & [= <-] & E).
  apply bind_Ok in E as ([] & w4 & E4 & [= <-]).
  fold (rebuilds src mir w) in E4.
  assert (∃ l4, console w4 = console w3
            ++ [LogFoundMirror (length (fetchedMirror mir w));
                LogEligible (length (eligibleTracks (tza w) (now w)
                                       (fetchedSource src w) (fetchedPlayed w)))]
            ++ (if rebuilds src mir w then LogChangesDetected :: l4 else [LogNoChanges])
          ∧ (rebuilds src mir w = true → rebuild_lines src mir w `sublist_of` l4))
    as (l4 & C4 & S4).
  { destruct (rebuilds src mir w).
    - apply bind_Ok in E4 as ([] & ? & [= <-] & E).
      apply bind_Ok in E as ([] & w5 & E5 & E).
      match type of E5 with _ ?wk = _ =>
        assert (∃ l5, console w5 = console wk ++ l5 ∧
                      (if 0 <? length (fetchedMirror mir w) then [LogRemovingAll] else [])
                      `sublist_of` l5) as (l5 & C5 & S5)
      end.
      { unfold allCurrentUris in E5. rewrite length_map in E5.
        destruct (0 <? length (fetchedMirror mir w)).
        - apply bind_Ok in E5 as ([] & ? & [= <-] & E5).
          apply (preserves_removeTracksFromMirrorPlaylist Spotify.api logs_more) in E5
            as [l5 E5].
          exists (LogRemovingAll :: l5). split.
          + rewrite E5. cbn [console add_console]. by rewrite <- !app_assoc.
          + apply sublist_skip, sublist_nil_l.
        - unfold ret in E5. injection E5 as <-. exists []. split; [by rewrite app_nil_r|done]. }
      apply bind_Ok in E as ([] & ? & [= <-] & E).
      apply bind_Ok in E as ([] & w6 & E6 & E).
      apply syncAddLoop_progress in E6 as (l6 & E6 & S6).
      apply bind_Ok in E as ([] & ? & [= <-] & E).
      assert (∃ l7, console w4 = console w6 ++ LogPlaylistUpdated :: l7 ∧
                    l7 = (let n := size (recentlyPlayedUris (tza w) (now w) (fetchedPlayed w)) in
                          if 0 <? n then [LogExcluded n] else [])) as (l7 & E7 & S7).
      { cbv zeta. destruct (0 <? size _); unfold log, modify, ret in E; simplify_eq;
          eexists; (split; [|reflexivity]); cbn [console add_console];
          by rewrite <- ?app_assoc. }
      exists (l5 ++ LogAddingNewestFirst :: l6 ++ LogPlaylistUpdated :: l7).
      split.
      + rewrite E7, E6. cbn [console add_console]. rewrite C5. cbn [console add_console].
        rewrite <- !app_assoc. reflexivity.
      + intros _. unfold rebuild_lines. apply sublist_app; [done|].
        apply sublist_skip, sublist_app; [done|]. apply sublist_skip. by rewrite S7.
    - exists []. split; [|done]. unfold log, modify in E4. simplify_eq.
      cbn [console add_console]. by rewrite <- !app_assoc. }
  exists l1, l2, l3, l4. split; [|exact S4]. cbn [console add_console].
  rewrite C4, C3. cbn [console add_console]. rewrite C2. cbn [console add_console].
  rewrite C1. cbn [console add_console]. unfold printed.
  rewrite <- !app_assoc. reflexivity.
Qed.

(** C4, as the code has it.  A successful run returns no value; the counts
    are printed on the console, in this order: the tracks fetched from the
    source, those added within the last year, the play events returned, the
    tracks in the lock period, the tracks fetched from the mirror, the
    eligible tracks; then either that no changes were needed, or that
    changes were detected and the lines of the rebuild: that all tracks are
    removed if the mirror was not empty, that tracks are added, after each
    batch the number of tracks added so far out of the number to add, that
    the playlist is updated, and the number of locked tracks if there are
    any; then that the run is completed. *)
Theorem sync_prints_counts fuel w r w' src mir :
  syncMirrorPlaylist Spotify.api fuel w = (Ok r, w') →
  SOURCE_PLAYLIST_ID w = Some src →
  MIRROR_PLAYLIST_ID w = Some mir →
  let c := counts src mir w in
  r = tt ∧
  ∃ lines, console w' = console w ++ lines ∧
    [ LogStarting;
      LogFoundSource (fetched c);
      LogWithinLastYear
        (length (tracksWithinLastYear (tza w) (now w) (fetchedSource src w)));
      LogFoundRecentlyPlayed (length (fetchedPlayed w));
      LogInLockPeriod (locked c);
      LogFoundMirror (length (fetchedMirror mir w));
      LogEligible (eligible c) ]
    ++ (if rebuild c
        then [LogChangesDetected]
             ++ (if 0 <? removed c then [LogRemovingAll] else [])
             ++ [LogAddingNewestFirst]
             ++ imap (λ k _, LogAdded (Nat.min (100 * S k) (added c)) (added c))
                     (chunks (desired src w))
             ++ [LogPlaylistUpdated]
             ++ (if 0 <? locked c then [LogExcluded (locked c)] else [])
        else [LogNoChanges])
    ++ [LogCompleted] `sublist_of` lines.
Proof.
  intros E Src Mir c. destruct r. split; [done|].
  destruct (syncMirrorPlaylist_console fuel w w' src mir E Src Mir)
    as (l1 & l2 & l3 & l4 & C & S4).
  eexists. split; [exact C|]. unfold printed, c, counts.
  cbn [fetched locked eligible rebuild added removed app].
  apply sublist_skip, sublist_inserts_l.
  apply sublist_skip, sublist_skip, sublist_inserts_l.
  apply sublist_skip, sublist_skip, sublist_inserts_l.
  apply sublist_skip, sublist_skip.
  destruct (rebuilds src mir w); cbn [app]; [|done].
  apply sublist_skip, sublist_app; [|done]. by apply S4.
Qed.

Lemma sync_prints_counts_witness :
  ∃ w' lines,
    syncMirrorPlaylist Spotify.api 1 Examples.spec_example = (Ok tt, w') ∧
    console w' = lines ∧
    [ LogStarting; LogFoundSource 3; LogWithinLastYear 2; LogFoundRecentlyPlayed 1;
      LogInLockPeriod 1; LogFoundMirror 1; LogEligible 1; LogChangesDetected;
      LogRemovingAll; LogAddingNewestFirst; LogAdded 1 1; LogPlaylistUpdated;
      LogExcluded 1; LogCompleted ] `sublist_of` lines.
Proof.
  eexists. eexists. split; [vm_compute; reflexivity|]. split; [reflexivity|].
  match goal with |- context [console ?w'] =>
    destruct (sync_prints_counts 1 Examples.spec_example tt w' "source" "mirror")
      as [_ (lines & C & S)]
  end.
  - vm_compute. reflexivity.
  - reflexivity.
  - reflexivity.
  - vm_compute in C. vm_compute in S. vm_compute.
    apply app_inv_head with (l := []) in C. subst lines. exact S.
Defined.

(** ** A run on a host without faults ends *)

Lemma answering_faultless {A} (op : Spotify.State → Response A * Spotify.State) s :
  Spotify.faults s = [] → Spotify.answering op s = op s.
Proof. unfold Spotify.answering. by intros ->. Qed.

Lemma answering_keeps_faults {A} (op : Spotify.State → Response A * Spotify.State) s r s' :
  (∀ s0 r0 s1, op s0 = (r0, s1) → Spotify.faults s1 = Spotify.faults s0) →
  Spotify.answering op s = (r, s') →
  Spotify.faults s = [] → Spotify.faults s' = [].
Proof.
  intros Hop E F. rewrite answering_faultless in E by done.
  apply Hop in E. congruence.
Qed.

Global Instance keeps_up_read : ReadFrame Spotify.api keeps_up.
Proof.
  split; try (by intros; split).
  - intros w1 w2 w3 [F1 P1] [F2 P2]. split; auto.
  - intros w r h E. split.
    + intros F. unfold faultless in *. cbn.
      cbn [refreshAccessToken getPlaylistTracks addTracksToPlaylist
           removeTracksFromPlaylist getMyRecentlyPlayedTracks Spotify.api] in E.
      rewrite answering_faultless in E by done. unfold Spotify.refresh in E.
      by simplify_eq.
    + intros id. cbn.
      apply answering_inv in E as [(_ & f & _ & ->)|[f E]]; [done|].
      unfold Spotify.refresh in E. by simplify_eq.
  - intros w id o l r h E. split.
    + intros F. unfold faultless in *. cbn.
      cbn [refreshAccessToken getPlaylistTracks addTracksToPlaylist
           removeTracksFromPlaylist getMyRecentlyPlayedTracks Spotify.api] in E.
      rewrite answering_faultless in E by done. unfold Spotify.page in E.
      destruct (_ !! _); by simplify_eq.
    + intros id'. cbn.
      apply answering_inv in E as [(_ & f & _ & ->)|[f E]]; [done|].
      unfold Spotify.page in E. destruct (_ !! _); by simplify_eq.
  - intros w l b r h E. split.
    + intros F. unfold faultless in *. cbn.
      cbn [refreshAccessToken getPlaylistTracks addTracksToPlaylist
           removeTracksFromPlaylist getMyRecentlyPlayedTracks Spotify.api] in E.
      rewrite answering_faultless in E by done. unfold Spotify.recent in E.
      by simplify_eq.
    + intros id. cbn.
      apply answering_inv in E as [(_ & f & _ & ->)|[f E]]; [done|].
      unfold Spotify.recent in E. by simplify_eq.
Qed.

Global Instance keeps_up_write : WriteFrame Spotify.api keeps_up.
Proof.
  split.
  - intros w id us p r h E. split.
    + intros F. unfold faultless in *. cbn.
      cbn [refreshAccessToken getPlaylistTracks addTracksToPlaylist
           removeTracksFromPlaylist getMyRecentlyPlayedTracks Spotify.api] in E.
      rewrite answering_faultless in E by done. unfold Spotify.add in E.
      destruct (_ !! _); [destruct (_ <? _)|]; by simplify_eq.
    + intros id'. cbn.
      apply answering_inv in E as [(_ & f & _ & ->)|[f E]]; [done|].
      unfold Spotify.add in E.
      destruct (Spotify.playlists _ !! id) eqn:L; [destruct (_ <? _)|];
        simplify_eq; try done.
      cbn. destruct (decide (id = id')) as [->|Ne].
      * by rewrite lookup_insert_eq.
      * by rewrite lookup_insert_ne.
  - intros w id us r h E. split.
    + intros F. unfold faultless in *. cbn.
      cbn [refreshAccessToken getPlaylistTracks addTracksToPlaylist
           removeTracksFromPlaylist getMyRecentlyPlayedTracks Spotify.api] in E.
      rewrite answering_faultless in E by done. unfold Spotify.remove in E.
      destruct (_ !! _); [destruct (_ <? _)|]; by simplify_eq.
    + intros id'. cbn.
      apply answering_inv in E as [(_ & f & _ & ->)|[f E]]; [done|].
      unfold Spotify.remove in E.
      destruct (Spotify.playlists _ !! id) eqn:L; [destruct (_ <? _)|];
        simplify_eq; try done.
      cbn. destruct (decide (id = id')) as [->|Ne].
      * by rewrite lookup_insert_eq.
      * by rewrite lookup_insert_ne.
Qed.

Global Instance sound_read : ReadFrame Spotify.api sound.
Proof. unfold sound. apply _. Qed.
Global Instance sound_write : WriteFrame Spotify.api sound.
Proof. unfold sound. apply _. Qed.

Lemma ensureAccessToken_succeeds w :
  faultless w → ∃ w1, ensureAccessToken Spotify.api w = (Ok tt, w1).
Proof.
  intros F. unfold ensureAccessToken, bind at 1, get.
  destruct (_ >? _)%Z; [by eexists|].
  unfold try_catch, bind at 1, request.
  cbn [refreshAccessToken Spotify.api host add_request].
  rewrite answering_faultless by done. unfold Spotify.refresh. by eexists.
Qed.

Lemma sourceLoop_succeeds fuel id tracks offset w items :
  faultless w → Spotify.playlists (host w) !! id = Some items →
  length (drop offset items) < 100 * fuel →
  ∃ r w', sourceLoop Spotify.api fuel id tracks offset w = (Ok r, w').
Proof.
  revert tracks offset w. induction fuel as [|fuel IH]; intros tracks offset w F L Len;
    [lia|].
  cbn [sourceLoop]. unfold bind at 1, request.
  cbn [getPlaylistTracks Spotify.api host add_request].
  rewrite answering_faultless by done. unfold Spotify.page. rewrite L.
  destruct (length _ =? 100) eqn:Full; [|by eexists; eexists].
  apply Nat.eqb_eq in Full. rewrite length_take, length_drop in Full.
  apply IH; [exact F|exact L|]. rewrite length_drop in *. lia.
Qed.

Lemma mirrorLoop_succeeds fuel id tracks offset w items :
  faultless w → Spotify.playlists (host w) !! id = Some items →
  length (drop offset items) < 100 * fuel →
  ∃ r w', mirrorLoop Spotify.api fuel id tracks offset w = (Ok r, w').
Proof.
  revert tracks offset w. induction fuel as [|fuel IH]; intros tracks offset w F L Len;
    [lia|].
  cbn [mirrorLoop]. unfold bind at 1, request.
  cbn [getPlaylistTracks Spotify.api host add_request].
  rewrite answering_faultless by done. unfold Spotify.page. rewrite L.
  destruct (length _ =? 100) eqn:Full; [|by eexists; eexists].
  apply Nat.eqb_eq in Full. rewrite length_take, length_drop in Full.
  apply IH; [exact F|exact L|]. rewrite length_drop in *. lia.
Qed.

Lemma playedLoop_succeeds fuel tracks before more requestCount w :
  faultless w → 3 ≤ fuel + requestCount →
  ∃ r w', playedLoop Spotify.api fuel tracks before more requestCount w = (Ok r, w').
Proof.
  revert tracks before more requestCount w.
  induction fuel as [|fuel IH]; intros tracks before more requestCount w F Fuel.
  - cbn [playedLoop].
    replace (requestCount <? 3) with false by (symmetry; apply Nat.ltb_ge; lia).
    rewrite andb_false_r. by eexists; eexists.
  - cbn [playedLoop]. destruct (_ && _ && _); [|by eexists; eexists].
    rewrite (bind_eq_Ok _ _ _ _ _ (log_eq _ _)).
    unfold bind at 1, request.
    cbn [getMyRecentlyPlayedTracks Spotify.api host add_request add_console].
    rewrite answering_faultless by done. unfold Spotify.recent.
    destruct (length _ =? 0); [apply IH; [done|lia]|].
    destruct (_ && _); rewrite (bind_eq_Ok _ _ _ _ _ (log_eq _ _));
      (apply IH; [done|lia]).
Qed.

Lemma slice_length_le {A} (l : list A) i : (100 <? length (slice i (i + 100) l)) = false.
Proof. apply Nat.ltb_ge. rewrite slice_100, length_take. lia. Qed.

Lemma removeLoop_succeeds fuel id uris i w :
  faultless w → is_Some (Spotify.playlists (host w) !! id) →
  length uris - i ≤ fuel →
  ∃ w', removeLoop Spotify.api fuel id uris i w = (Ok tt, w').
Proof.
  revert i w. induction fuel as [|fuel IH]; intros i w F [items L] Len;
    cbn [removeLoop]; destruct (i <? length uris) eqn:Lt; try (by eexists).
  - apply Nat.ltb_lt in Lt. lia.
  - apply Nat.ltb_lt in Lt. unfold bind at 1, request.
    cbn [removeTracksFromPlaylist Spotify.api host add_request].
    rewrite answering_faultless by done. unfold Spotify.remove.
    rewrite L, slice_length_le. apply IH.
    + exact F.
    + cbn. rewrite lookup_insert_eq. by eexists.
    + lia.
Qed.

Lemma addLoop_succeeds fuel id uris i w :
  faultless w → is_Some (Spotify.playlists (host w) !! id) →
  length uris - i ≤ fuel →
  ∃ w', addLoop Spotify.api fuel id uris None i w = (Ok tt, w').
Proof.
  revert i w. induction fuel as [|fuel IH]; intros i w F [items L] Len;
    cbn [addLoop]; destruct (i <? length uris) eqn:Lt; try (by eexists).
  - apply Nat.ltb_lt in Lt. lia.
  - apply Nat.ltb_lt in Lt. unfold bind at 1, request.
    cbn [addTracksToPlaylist Spotify.api host add_request].
    rewrite answering_faultless by done. unfold Spotify.add.
    rewrite L, slice_length_le. apply IH.
    + exact F.
    + cbn. rewrite lookup_insert_eq. by eexists.
    + lia.
Qed.

Lemma Ready_sound src mir w w' : Ready src mir w → sound w w' → Ready src mir w'.
Proof.
  intros [F S M Sid Mid Sp Mp] [[F' P'] (_ & _ & S' & M')].
  split; auto; congruence.
Qed.

Lemma Ready_log src mir w l : Ready src mir w → Ready src mir (add_console l w).
Proof. by intros []. Qed.

Lemma ensure_then_succeeds {A} (k : M Spotify.State A) src mir w :
  Ready src mir w →
  (∀ w1, Ready src mir w1 → same_playlists w w1 → ∃ a w', k w1 = (Ok a, w')) →
  ∃ a w', bind (ensureAccessToken Spotify.api) (λ _, k) w = (Ok a, w').
Proof.
  intros R Hk. destruct (ensureAccessToken_succeeds w) as [w1 E1]; [apply R|].
  rewrite (bind_eq_Ok _ _ _ _ _ E1). apply Hk.
  - eapply Ready_sound; [exact R|].
    by eapply (preserves_ensureAccessToken Spotify.api sound).
  - by eapply (preserves_ensureAccessToken Spotify.api same_playlists).
Qed.

Lemma getSourcePlaylistTracks_succeeds fuel src mir w :
  Ready src mir w →
  length (Spotify.playlist src (host w)) < 100 * fuel →
  ∃ r w', getSourcePlaylistTracks Spotify.api fuel w = (Ok r, w').
Proof.
  intros R Len. unfold getSourcePlaylistTracks.
  apply (ensure_then_succeeds _ src mir); [done|]. intros w1 R1 P1.
  unfold bind, get. rewrite (ready_source _ _ _ R1).
  rewrite (proj2 (truthy_string_true src)) by apply R1.
  destruct (ready_source_playlist _ _ _ R1) as [items L].
  apply (sourceLoop_succeeds _ _ _ _ _ items); [apply R1|done|].
  rewrite drop_0. unfold Spotify.playlist in Len. by rewrite <- P1, L in Len.
Qed.

Lemma getMirrorPlaylistTracks_succeeds fuel src mir w :
  Ready src mir w →
  length (Spotify.playlist mir (host w)) < 100 * fuel →
  ∃ r w', getMirrorPlaylistTracks Spotify.api fuel w = (Ok r, w').
Proof.
  intros R Len. unfold getMirrorPlaylistTracks.
  apply (ensure_then_succeeds _ src mir); [done|]. intros w1 R1 P1.
  unfold bind, get. rewrite (ready_mirror _ _ _ R1).
  rewrite (proj2 (truthy_string_true mir)) by apply R1.
  destruct (ready_mirror_playlist _ _ _ R1) as [items L].
  apply (mirrorLoop_succeeds _ _ _ _ _ items); [apply R1|done|].
  rewrite drop_0. unfold Spotify.playlist in Len. by rewrite <- P1, L in Len.
Qed.

Lemma getRecentlyPlayedTracks_succeeds src mir w :
  Ready src mir w →
  ∃ r w', getRecentlyPlayedTracks Spotify.api w = (Ok r, w').
Proof.
  intros R. unfold getRecentlyPlayedTracks.
  apply (ensure_then_succeeds _ src mir); [done|]. intros w1 R1 _.
  destruct (playedLoop_succeeds 3 [] None true 0 w1) as (tracks & w2 & E);
    [apply R1|lia|].
  eexists; eexists. apply try_catch_eq_Ok.
  rewrite (bind_eq_Ok _ _ _ _ _ E). reflexivity.
Qed.

Lemma removeTracksFromMirrorPlaylist_succeeds uris src mir w :
  Ready src mir w →
  ∃ w', removeTracksFromMirrorPlaylist Spotify.api uris w = (Ok tt, w').
Proof.
  intros R. unfold removeTracksFromMirrorPlaylist.
  destruct (length uris =? 0); [by eexists|].
  destruct (ensure_then_succeeds
              (w1 <- get ;;
               match MIRROR_PLAYLIST_ID w1 with
               | Some mirrorPlaylistId =>
                   if truthy_string mirrorPlaylistId
                   then removeLoop Spotify.api (length uris) mirrorPlaylistId uris 0
                   else throw (EnvNotSet "MIRROR_PLAYLIST_ID")
               | None => throw (EnvNotSet "MIRROR_PLAYLIST_ID")
               end)%prog src mir w R) as ([] & w' & E); [|by exists w'].
  intros w1 R1 _. unfold bind, get. rewrite (ready_mirror _ _ _ R1).
  rewrite (proj2 (truthy_string_true mir)) by apply R1.
  destruct (removeLoop_succeeds (length uris) mir uris 0 w1) as [w' E];
    [apply R1|apply R1|lia|]. by exists tt, w'.
Qed.

Lemma addTracksToMirrorPlaylist_succeeds uris src mir w :
  Ready src mir w →
  ∃ w', addTracksToMirrorPlaylist Spotify.api uris None w = (Ok tt, w').
Proof.
  intros R. unfold addTracksToMirrorPlaylist.
  destruct (length uris =? 0); [by eexists|].
  destruct (ensure_then_succeeds
              (w1 <- get ;;
               match MIRROR_PLAYLIST_ID w1 with
               | Some mirrorPlaylistId =>
                   if truthy_string mirrorPlaylistId
                   then addLoop Spotify.api (length uris) mirrorPlaylistId uris None 0
                   else throw (EnvNotSet "MIRROR_PLAYLIST_ID")
               | None => throw (EnvNotSet "MIRROR_PLAYLIST_ID")
               end)%prog src mir w R) as ([] & w' & E); [|by exists w'].
  intros w1 R1 _. unfold bind, get. rewrite (ready_mirror _ _ _ R1).
  rewrite (proj2 (truthy_string_true mir)) by apply R1.
  destruct (addLoop_succeeds (length uris) mir uris 0 w1) as [w' E];
    [apply R1|apply R1|lia|]. by exists tt, w'.
Qed.

Lemma syncAddLoop_succeeds fuel uris i src mir w :
  Ready src mir w → length uris - i ≤ fuel →
  ∃ w', syncAddLoop Spotify.api fuel uris i w = (Ok tt, w').
Proof.
  revert i w. induction fuel as [|fuel IH]; intros i w R Len;
    cbn [syncAddLoop]; destruct (i <? length uris) eqn:Lt; try (by eexists).
  - apply Nat.ltb_lt in Lt. lia.
  - apply Nat.ltb_lt in Lt.
    destruct (addTracksToMirrorPlaylist_succeeds (slice i (i + 100) uris) src mir w R)
      as [w1 E1].
    rewrite (bind_eq_Ok _ _ _ _ _ E1).
    apply (preserves_addTracksToMirrorPlaylist Spotify.api sound) in E1.
    apply (Ready_sound _ _ _ _ R) in E1.
    destruct (_ || _).
    + rewrite (bind_eq_Ok _ _ _ _ _ (log_eq _ _)). apply IH; [by apply Ready_log|lia].
    + unfold bind at 1, ret. apply IH; [done|lia].
Qed.

(** On a host without faults, with the two playlists and enough fuel for
    their pages, a run ends well. *)
Theorem sync_succeeds fuel src mir w :
  Ready src mir w →
  length (Spotify.playlist src (host w)) < 100 * fuel →
  length (Spotify.playlist mir (host w)) < 100 * fuel →
  ∃ w', syncMirrorPlaylist Spotify.api fuel w = (Ok tt, w').
Proof.
  intros R LS LM. unfold syncMirrorPlaylist.
  match goal with |- ∃ w', try_catch ?m ?h w = _ =>
    cut (∃ w', m w = (Ok tt, w'));
      [intros [w' E]; exists w'; by apply try_catch_eq_Ok|]
  end.
  rewrite (bind_eq_Ok _ _ _ _ _ (log_eq _ _)).
  destruct (getSourcePlaylistTracks_succeeds fuel src mir (add_console LogStarting w))
    as (sourceTracks & w1 & E1); [by apply Ready_log|done|].
  rewrite (bind_eq_Ok _ _ _ _ _ E1).
  pose proof (preserves_getSourcePlaylistTracks Spotify.api read_only _ _ _ _ E1) as RO1.
  apply (preserves_getSourcePlaylistTracks Spotify.api sound) in E1.
  apply (Ready_sound _ _ _ _ (Ready_log _ _ _ LogStarting R)) in E1 as R1.
  rewrite (bind_eq_Ok _ _ _ _ _ (log_eq _ _)).
  unfold bind at 1, get. cbn [tza now add_console].
  rewrite (bind_eq_Ok _ _ _ _ _ (log_eq _ _)).
  match goal with |- context [bind (getRecentlyPlayedTracks _) _ ?wk] =>
    destruct (getRecentlyPlayedTracks_succeeds src mir wk)
      as (played & w2 & E2); [by repeat apply Ready_log|];
    pose proof (preserves_getRecentlyPlayedTracks Spotify.api read_only _ _ _ E2) as RO2;
    pose proof (preserves_getRecentlyPlayedTracks Spotify.api sound _ _ _ E2) as S2;
    assert (Ready src mir w2) as R2
      by (eapply Ready_sound; [|exact S2]; by repeat apply Ready_log)
  end.
  rewrite (bind_eq_Ok _ _ _ _ _ E2).
  rewrite (bind_eq_Ok _ _ _ _ _ (log_eq _ _)).
  rewrite (bind_eq_Ok _ _ _ _ _ (log_eq _ _)).
  match goal with |- context [bind (getMirrorPlaylistTracks _ _) _ ?wk] =>
    destruct (getMirrorPlaylistTracks_succeeds fuel src mir wk)
      as (mirrorTracks & w3 & E3); [by repeat apply Ready_log| |];
    [|pose proof (preserves_getMirrorPlaylistTracks Spotify.api sound _ _ _ _ E3) as S3;
      assert (Ready src mir w3) as R3
        by (eapply Ready_sound; [|exact S3]; by repeat apply Ready_log)]
  end.
  { cbn [host add_console].
    rewrite (read_only_playlist mir _ _ RO2). cbn [host add_console].
    by rewrite (read_only_playlist mir _ _ RO1). }
  rewrite (bind_eq_Ok _ _ _ _ _ E3).
  rewrite (bind_eq_Ok _ _ _ _ _ (log_eq _ _)).
  rewrite (bind_eq_Ok _ _ _ _ _ (log_eq _ _)).
  match goal with |- ∃ w', bind ?m ?f ?wk = _ =>
    cut (∃ w6, m wk = (Ok tt, w6));
      [intros [w6 E6]; rewrite (bind_eq_Ok _ _ _ _ _ E6); by eexists|]
  end.
  destruct (changesDetected _ _ _ _ _).
  - rewrite (bind_eq_Ok _ _ _ _ _ (log_eq _ _)).
    match goal with |- context [bind (if ?c then ?m else ret tt) _ ?wk] =>
      assert (∃ w4, (if c then m else ret tt) wk = (Ok tt, w4) ∧ Ready src mir w4)
        as (w4 & E4 & R4)
    end.
    { destruct (0 <? length _).
      - rewrite (bind_eq_Ok _ _ _ _ _ (log_eq _ _)).
        match goal with |- context [removeTracksFromMirrorPlaylist _ ?us ?wk] =>
          destruct (removeTracksFromMirrorPlaylist_succeeds us src mir wk) as [w4 E4];
            [by repeat apply Ready_log|]
        end.
        exists w4. split; [done|].
        apply (preserves_removeTracksFromMirrorPlaylist Spotify.api sound) in E4.
        eapply Ready_sound; [|exact E4]. by repeat apply Ready_log.
      - eexists. split; [reflexivity|]. by repeat apply Ready_log. }
    rewrite (bind_eq_Ok _ _ _ _ _ E4).
    rewrite (bind_eq_Ok _ _ _ _ _ (log_eq _ _)).
    match goal with |- context [bind (syncAddLoop _ ?n ?us 0) _ ?wk] =>
      destruct (syncAddLoop_succeeds n us 0 src mir wk) as [w5 E5];
        [by apply Ready_log|lia|]
    end.
    rewrite (bind_eq_Ok _ _ _ _ _ E5).
    rewrite (bind_eq_Ok _ _ _ _ _ (log_eq _ _)).
    destruct (0 <? size _); by eexists.
  - by eexists.
Qed.

(** ** The civil calendar *)

Local Open Scope Z_scope.

Lemma all_from_spec n z0 p z :
  all_from n z0 p = true → z0 ≤ z < z0 + Z.of_nat n → p z = true.
Proof.
  revert z0. induction n as [|n IH]; intros z0; [lia|]. cbn [all_from].
  intros [Hp Hn]%andb_true_iff Hz.
  destruct (decide (z = z0)) as [->|Ne]; [done|]. apply (IH (z0 + 1)); [done|lia].
Qed.

Lemma era_days_ok : all_from (Z.to_nat 146097) 0 era_day_ok = true.
Proof. vm_compute. reflexivity. Qed.

Lemma era_day_ranges doe :
  0 ≤ doe < 146097 →
  0 ≤ year_of_era doe ≤ 399 ∧ 0 ≤ day_of_year doe ≤ 365.
Proof.
  intros Hd.
  pose proof (all_from_spec _ _ _ doe era_days_ok) as Ok.
  rewrite Z2Nat.id in Ok by (clear; discriminate).
  specialize (Ok Hd).
  unfold era_day_ok in Ok. cbv zeta in Ok. fold (day_of_year doe) in Ok. rewrite !andb_true_iff in Ok.
  lia.
Qed.

Lemma civil_from_days_spec z :
  let '(y, m, d) := JSDate.civil_from_days z in
  1 ≤ m ≤ 12 ∧ JSDate.days_from_civil y m d = z.
Proof.
  unfold JSDate.civil_from_days.
  set (z' := z + 719468).
  set (era := z' / 146097).
  set (doe := z' - era * 146097).
  assert (0 ≤ doe < 146097) as Hdoe.
  { unfold doe, era. pose proof (Z.div_mod z' 146097). pose proof (Z.mod_pos_bound z' 146097). lia. }
  fold (year_of_era doe).
  set (yoe := year_of_era doe).
  set (doy := doe - (365 * yoe + yoe / 4 - yoe / 100)).
  destruct (era_day_ranges doe Hdoe) as [Hy Hd].
  change (0 ≤ yoe ≤ 399) in Hy. change (0 ≤ doy ≤ 365) in Hd.
  assert (doe = yoe * 365 + yoe / 4 - yoe / 100 + doy) as Edoe by (unfold doy; lia).
  assert (z = era * 146097 + doe - 719468) as Ez by (unfold doe, z'; lia).
  clearbody doy yoe. clear Hdoe. clearbody doe era. subst z. clear z'.
  set (mp := (5 * doy + 2) / 153).
  assert (0 ≤ mp ≤ 11) as Hmp.
  { unfold mp. split; [apply Z.div_pos; lia|].
    assert ((5 * doy + 2) / 153 < 12); [apply Z.div_lt_upper_bound; lia|lia]. }
  clearbody mp.
  assert ((yoe + era * 400) / 400 = era) as Eera.
  { symmetry. apply Z.div_unique with yoe; lia. }
  destruct (mp <? 10) eqn:M.
  - apply Z.ltb_lt in M.
    assert ((mp + 3 <=? 2) = false) as -> by (apply Z.leb_gt; lia).
    split; [lia|]. unfold JSDate.days_from_civil.
    assert ((mp + 3 <=? 2) = false) as -> by (apply Z.leb_gt; lia).
    rewrite Eera.
    assert ((mp + 3 + 9) mod 12 = mp) as ->.
    { symmetry. apply Z.mod_unique with 1; lia. }
    replace (yoe + era * 400 - era * 400) with yoe by lia.
    lia.
  - apply Z.ltb_ge in M.
    assert ((mp - 9 <=? 2) = true) as -> by (apply Z.leb_le; lia).
    split; [lia|]. unfold JSDate.days_from_civil.
    assert ((mp - 9 <=? 2) = true) as -> by (apply Z.leb_le; lia).
    replace (yoe + era * 400 + 1 - 1) with (yoe + era * 400) by lia.
    rewrite Eera.
    assert ((mp - 9 + 9) mod 12 = mp) as ->.
    { symmetry. apply Z.mod_unique with 0; lia. }
    replace (yoe + era * 400 - era * 400) with yoe by lia.
    lia.
Qed.

Lemma days_from_civil_day y m d :
  JSDate.days_from_civil y m d = JSDate.days_from_civil y m 1 + d - 1.
Proof. unfold JSDate.days_from_civil. lia. Qed.

Lemma MakeDay_of_time t date :
  JSDate.MakeDay (JSDate.YearFromTime t) (JSDate.MonthFromTime t) date
  = JSDate.Day t + (date - JSDate.DateFromTime t).
Proof.
  unfold JSDate.MakeDay, JSDate.YearFromTime, JSDate.MonthFromTime, JSDate.DateFromTime.
  pose proof (civil_from_days_spec (JSDate.Day t)) as S.
  destruct (JSDate.civil_from_days (JSDate.Day t)) as [[y m] d]. cbn [fst snd].
  destruct S as [Hm S].
  rewrite Z.div_small, Z.mod_small by lia.
  rewrite (days_from_civil_day y m d) in S.
  replace (m - 1 + 1) with m by lia. rewrite Z.add_0_r. lia.
Qed.

Lemma time_of_day t :
  JSDate.MakeDate (JSDate.Day t) (JSDate.TimeWithinDay t) = t.
Proof.
  unfold JSDate.MakeDate, JSDate.Day, JSDate.TimeWithinDay, JSDate.msPerDay.
  pose proof (Z.div_mod t 86400000). lia.
Qed.

Lemma fiveDaysAgo_exact tza now :
  fiveDaysAgo tza now = now - 5 * JSDate.msPerDay.
Proof.
  unfold fiveDaysAgo, JSDate.setDate, JSDate.getDate.
  rewrite MakeDay_of_time.
  pose proof (time_of_day (JSDate.LocalTime tza now)) as T.
  unfold JSDate.MakeDate, JSDate.UTC in *. unfold JSDate.LocalTime in T at 3.
  lia.
Qed.

(** From one year to the next the days of a date are 365 or 366 apart. *)
Lemma days_from_civil_year y m d :
  let n := JSDate.days_from_civil y m d - JSDate.days_from_civil (y - 1) m d in
  n = 365 ∨ n = 366.
Proof.
  unfold JSDate.days_from_civil.
  set (y' := if m <=? 2 then y - 1 else y).
  assert ((if m <=? 2 then y - 1 - 1 else y - 1) = y' - 1) as ->
    by (unfold y'; destruct (m <=? 2); lia).
  clearbody y'. cbv zeta.
  generalize ((153 * ((m + 9) mod 12) + 2) / 5). intros doy.
  Z.div_mod_to_equations; lia.
Qed.

Lemma MakeDay_year_before t :
  let n := JSDate.Day t
           - JSDate.MakeDay (JSDate.YearFromTime t - 1) (JSDate.MonthFromTime t)
                            (JSDate.DateFromTime t) in
  n = 365 ∨ n = 366.
Proof.
  unfold JSDate.MakeDay, JSDate.YearFromTime, JSDate.MonthFromTime, JSDate.DateFromTime.
  pose proof (civil_from_days_spec (JSDate.Day t)) as S.
  destruct (JSDate.civil_from_days (JSDate.Day t)) as [[y m] d]. cbn [fst snd].
  destruct S as [Hm S].
  rewrite Z.div_small, Z.mod_small by lia.
  replace (m - 1 + 1) with m by lia. rewrite Z.add_0_r.
  rewrite (days_from_civil_day y m d) in S.
  pose proof (days_from_civil_year y m 1) as Y. cbv zeta in Y.
  cbv zeta. lia.
Qed.

Lemma oneYearAgo_days tza now :
  oneYearAgo tza now = now - 365 * JSDate.msPerDay ∨
  oneYearAgo tza now = now - 366 * JSDate.msPerDay.
Proof.
  unfold oneYearAgo, JSDate.setFullYear, JSDate.getFullYear. cbv zeta.
  remember (JSDate.LocalTime tza now) as lt eqn:Elt. unfold JSDate.LocalTime in Elt.
  pose proof (MakeDay_year_before lt) as Y. cbv zeta in Y.
  pose proof (time_of_day lt) as T.
  revert Y T.
  generalize (JSDate.MakeDay (JSDate.YearFromTime lt - 1) (JSDate.MonthFromTime lt)
                (JSDate.DateFromTime lt)).
  generalize (JSDate.Day lt) (JSDate.TimeWithinDay lt).
  intros day time day'.
  unfold JSDate.MakeDate, JSDate.UTC, JSDate.msPerDay. lia.
Qed.

Local Close Scope Z_scope.

(** ** The two windows of the engine, in days *)

(** X1.  The retention window of [isAddedWithinLastYear] is 365 or 366
    days long, whatever the clock and the (constant) time zone offset:
    [oneYearAgo] is the clock minus 365 or minus 366 days.  So a track
    added at most 365 days before the clock is kept, and a track added
    more than 366 days before the clock is not. *)
Theorem retention_window_is_a_year tz nw addedAt :
  (oneYearAgo tz nw = nw - 365 * JSDate.msPerDay ∨
   oneYearAgo tz nw = nw - 366 * JSDate.msPerDay)%Z ∧
  ((nw - addedAt ≤ 365 * JSDate.msPerDay)%Z →
   isAddedWithinLastYear tz nw addedAt = true) ∧
  ((366 * JSDate.msPerDay < nw - addedAt)%Z →
   isAddedWithinLastYear tz nw addedAt = false).
Proof.
  pose proof (oneYearAgo_days tz nw) as Y.
  split; [exact Y|]. unfold isAddedWithinLastYear, JSDate.msPerDay in *.
  split; intros Hd; [apply Z.geb_le|rewrite Z.geb_leb; apply Z.leb_gt]; lia.
Qed.

Lemma retention_window_is_a_year_witness :
  isAddedWithinLastYear 0 Examples.today (Examples.today - 365 * Examples.day) = true ∧
  isAddedWithinLastYear 0 Examples.today (Examples.today - 367 * Examples.day) = false.
Proof.
  split.
  - apply (retention_window_is_a_year 0 Examples.today). vm_compute. discriminate.
  - apply (retention_window_is_a_year 0 Examples.today). vm_compute. reflexivity.
Defined.

(** X2.  The lock period of [isPlayedRecentlyWithinLockPeriod] is
    exactly five days of 24 hours, whatever the clock and the (constant)
    time zone offset, across the ends of months and years too:
    [fiveDaysAgo] is the clock minus 432000000 ms, and a play is in the
    lock period exactly when it is at most that old. *)
Theorem lock_period_is_five_days tz nw playedAt :
  fiveDaysAgo tz nw = (nw - 5 * JSDate.msPerDay)%Z ∧
  (isPlayedRecentlyWithinLockPeriod tz nw playedAt = true
   ↔ (nw - playedAt ≤ 5 * JSDate.msPerDay)%Z).
Proof.
  split; [apply fiveDaysAgo_exact|].
  unfold isPlayedRecentlyWithinLockPeriod. rewrite fiveDaysAgo_exact.
  unfold JSDate.msPerDay. rewrite Z.geb_le. lia.
Qed.

(** ** The engine and the words of the specification *)

Local Open Scope Z_scope.






Local Close Scope Z_scope.
















(** ** Convergence *)





(** ** Duplicates in the mirror *)




(** ** The decision rule *)



(** ** The access token *)

Lemma ensureAccessToken_valid {H} (api : HostApi H) w :
  token_valid w → ensureAccessToken api w = (Ok tt, w).
Proof.
  unfold token_valid, ensureAccessToken. intros V.
  unfold bind at 1, get.
  assert ((tokenExpirationTime w >? now w / 1000 + 60)%Z = true) as ->
    by (apply Z.gtb_lt; lia).
  done.
Qed.

Lemma ensureAccessToken_expired {H} (api : HostApi H) w :
  ¬ token_valid w →
  ensureAccessToken api w =
    match refreshAccessToken api (host w) with
    | (Resolved data, h) => (Ok tt, refreshed data h w)
    | (Rejected e, h) =>
        (Throw e, add_console (LogErrorRefreshing e)
                    (set_host h (add_request ReqRefreshAccessToken w)))
    end.
Proof.
  unfold token_valid, ensureAccessToken. intros V.
  unfold bind at 1, get.
  assert ((tokenExpirationTime w >? now w / 1000 + 60)%Z = false) as ->.
  { apply not_true_is_false. rewrite Z.gtb_lt. lia. }
  unfold try_catch, bind at 1, request. cbn [host add_request].
  by destruct (refreshAccessToken api (host w)) as [[data|e] h].
Qed.

(** X3.  When the token the client holds is not valid and the host
    grants a new one, [ensureAccessToken] sends one refresh request,
    stores the access token and sets the expiration time to the clock (in
    seconds) plus the lifetime minus 300; a lifetime that is missing or 0
    counts as 3600.  If the lifetime is more than 360 seconds a call that
    follows at the same clock sends nothing and changes nothing; if it is
    360 seconds or less that call refreshes the token again. *)
Theorem token_reused_when_it_lasts {H} (api : HostApi H) w data h :
  ¬ token_valid w →
  refreshAccessToken api (host w) = (Resolved data, h) →
  let expiresIn := number_or (expires_in data) 3600 in
  ∃ w1,
    ensureAccessToken api w = (Ok tt, w1) ∧
    requests w1 = requests w ++ [ReqRefreshAccessToken] ∧
    accessToken w1 = Some (access_token data) ∧
    tokenExpirationTime w1 = (now w / 1000 + expiresIn - 300)%Z ∧
    ((360 < expiresIn)%Z → ensureAccessToken api w1 = (Ok tt, w1)) ∧
    ((expiresIn ≤ 360)%Z → ∀ r w2, ensureAccessToken api w1 = (r, w2) →
       requests w2 = requests w ++ [ReqRefreshAccessToken; ReqRefreshAccessToken]) ∧
    (expires_in data = None ∨ expires_in data = Some 0%Z → expiresIn = 3600%Z).
Proof.
  intros V E expiresIn. exists (refreshed data h w).
  split; [by rewrite ensureAccessToken_expired, E|].
  split; [done|]. split; [done|]. split; [done|]. split; [|split].
  - intros L. apply ensureAccessToken_valid. unfold token_valid. cbn. fold expiresIn. lia.
  - intros L r w2. rewrite ensureAccessToken_expired.
    2:{ unfold token_valid. cbn. fold expiresIn. lia. }
    destruct (refreshAccessToken api (host (refreshed data h w))) as [[d|e] h'];
      intros [= _ <-]; cbn; by rewrite <- app_assoc.
  - unfold expiresIn. by intros [->| ->].
Qed.

Lemma token_reused_when_it_lasts_witness :
  ∃ w1, ensureAccessToken Spotify.api Examples.spec_example = (Ok tt, w1) ∧
        ensureAccessToken Spotify.api w1 = (Ok tt, w1).
Proof.
  assert (¬ token_valid Examples.spec_example) as V.
  { unfold token_valid. vm_compute. discriminate. }
  destruct (token_reused_when_it_lasts Spotify.api Examples.spec_example _ _ V eq_refl)
    as (w1 & E & _ & _ & _ & C & _).
  exists w1. split; [exact E|]. apply C. vm_compute. reflexivity.
Defined.

(** ** Positions of the mirror tracks *)

Lemma elem_of_mirrorPush_position o i items t :
  t ∈ mirrorPush o i items ↔
  ∃ j item tr, items !! j = Some item ∧ item_track item = Some tr ∧
               track_uri tr ≠ ""%string ∧
               t = {| m_uri := track_uri tr; position := o + (i + j) |}.
Proof.
  revert i. induction items as [|x items IH]; intros i; simpl.
  - split; [by intros ?%elem_of_nil|]. by intros (j & ? & ? & ? & _).
  - assert (t ∈ mirrorPush o (S i) items ↔
            ∃ j item tr, (x :: items) !! S j = Some item ∧ item_track item = Some tr ∧
                         track_uri tr ≠ ""%string ∧
                         t = {| m_uri := track_uri tr; position := o + (i + S j) |}) as Tl.
    { rewrite IH. split; intros (j & item & tr & L & T' & N & ->);
        exists j, item, tr; (split; [done|split; [done|split; [done|]]]);
        f_equal; lia. }
    destruct (item_track x) as [tx|] eqn:T;
      [destruct (truthy_string (track_uri tx)) eqn:F|].
    + rewrite elem_of_cons, Tl. split.
      * intros [->|(j & item & tr & ?)].
        -- exists 0, x, tx. rewrite Nat.add_0_r. split; [done|]. split; [done|].
           split; [by apply truthy_string_true|done].
        -- by exists (S j), item, tr.
      * intros ([|j] & item & tr & L & T' & N & ->).
        -- left. simpl in L. simplify_eq. by rewrite Nat.add_0_r.
        -- right. by exists j, item, tr.
    + rewrite Tl. split.
      * intros (j & item & tr & ?). by exists (S j), item, tr.
      * intros ([|j] & item & tr & L & T' & N & ->).
        -- simpl in L. simplify_eq. apply truthy_string_true in N. congruence.
        -- by exists j, item, tr.
    + rewrite Tl. split.
      * intros (j & item & tr & ?). by exists (S j), item, tr.
      * intros ([|j] & item & tr & L & T' & N & ->).
        -- simpl in L. simplify_eq.
        -- by exists j, item, tr.
Qed.

Lemma mirrorPush_positions_from o i items :
  Forall (λ t, o + i ≤ position t) (mirrorPush o i items).
Proof.
  apply Forall_forall. intros t (j & ? & ? & _ & _ & _ & ->)%elem_of_mirrorPush_position.
  simpl. lia.
Qed.

Lemma mirrorPush_increasing o i items :
  StronglySorted (λ a b, position a < position b) (mirrorPush o i items).
Proof.
  revert i. induction items as [|x items IH]; intros i; simpl; [constructor|].
  destruct (item_track x) as [tx|]; [destruct (truthy_string (track_uri tx))|];
    try apply IH.
  constructor; [apply IH|].
  eapply Forall_impl; [apply (mirrorPush_positions_from o (S i))|].
  simpl. intros; lia.
Qed.

(** X4.  On the host model, the tracks [getMirrorPlaylistTracks]
    returns are exactly the entries of the mirror playlist that have a track
    with a non-empty URI, each with its index in the playlist as [position]
    (entries without a track are skipped but counted), in strictly
    increasing order of position; the call changes no playlist. *)
Theorem mirror_positions_index_the_playlist fuel w r w' mir :
  getMirrorPlaylistTracks Spotify.api fuel w = (Ok r, w') →
  MIRROR_PLAYLIST_ID w = Some mir →
  let items := Spotify.playlist mir (host w) in
  (∀ t, t ∈ r ↔
        ∃ item tr, items !! position t = Some item ∧ item_track item = Some tr ∧
                   track_uri tr = m_uri t ∧ m_uri t ≠ ""%string) ∧
  StronglySorted (λ a b, position a < position b) r ∧
  Spotify.playlists (host w') = Spotify.playlists (host w).
Proof.
  intros E Mir items.
  apply getMirrorPlaylistTracks_Ok with (mir := mir) in E as [-> R]; [|done].
  split; [|split; [apply mirrorPush_increasing|apply R]].
  intros t. rewrite elem_of_mirrorPush_position. fold items. split.
  - intros (j & item & tr & L & T & N & ->). by exists item, tr.
  - intros (item & tr & L & T & U & N). exists (position t), item, tr.
    rewrite U. by destruct t.
Qed.

Lemma mirror_positions_index_the_playlist_witness :
  (getMirrorPlaylistTracks Spotify.api 1 with_gap).1
  = Ok [ {| m_uri := "A"; position := 0 |}; {| m_uri := "B"; position := 2 |} ] ∧
  StronglySorted (λ a b, position a < position b)
    [ {| m_uri := "A"; position := 0 |}; {| m_uri := "B"; position := 2 |} ].
Proof.
  assert (∃ w', getMirrorPlaylistTracks Spotify.api 1 with_gap
                = (Ok [ {| m_uri := "A"; position := 0 |};
                        {| m_uri := "B"; position := 2 |} ], w')) as [w' E].
  { eexists. vm_compute. reflexivity. }
  split; [by rewrite E|].
  exact (proj1 (proj2 (mirror_positions_index_the_playlist 1 with_gap _ w' "mirror"
                         E eq_refl))).
Defined.

(** ** Adding at a position *)

Lemma add_at_Resolved id uris p s s' :
  Spotify.answering (Spotify.add id uris (Some p)) s = (Resolved tt, s') →
  ∃ items, Spotify.playlists s !! id = Some items ∧
    Spotify.clock s' = Spotify.clock s ∧
    Spotify.playlists s' =
      <[id := take p items ++ map (Spotify.new_item (Spotify.clock s)) uris ++ drop p items]>
        (Spotify.playlists s).
Proof.
  intros [(? & _)|[f E]]%answering_inv; [done|].
  unfold Spotify.add in E.
  cbn [Spotify.playlists Spotify.set_faults Spotify.clock] in E.
  destruct (Spotify.playlists s !! id) as [items|] eqn:L; [|done].
  destruct (100 <? length uris); [done|]. simplify_eq. by exists items.
Qed.

Lemma insert_next {A} (old new1 new2 : list A) q :
  q ≤ length old →
  (length new1 = 100 ∨ new2 = []) →
  take (q + 100) (take q old ++ new1 ++ drop q old) ++ new2
    ++ drop (q + 100) (take q old ++ new1 ++ drop q old)
  = take q old ++ (new1 ++ new2) ++ drop q old.
Proof.
  intros Le [Full| ->].
  - assert (length (take q old) = q) as Lq by (rewrite length_take; lia).
    rewrite take_app_ge, drop_app_ge by lia. rewrite Lq.
    replace (q + 100 - q) with 100 by lia.
    rewrite take_app_ge, drop_app_ge by lia.
    rewrite Full, Nat.sub_diag, drop_0, take_0, app_nil_r. by rewrite <- !app_assoc.
  - simpl. by rewrite take_drop, app_nil_r.
Qed.

Lemma addLoop_at_Ok fuel id uris p i w w' :
  addLoop Spotify.api fuel id uris (Some p) i w = (Ok tt, w') →
  (i < length uris → p + i ≤ length (Spotify.playlist id (host w))) →
  rewrites id
    (λ items, take (p + i) items
              ++ map (Spotify.new_item (Spotify.clock (host w))) (drop i uris)
              ++ drop (p + i) items)
    (imap (λ k c, ReqAddTracksToPlaylist id c (Some (p + i + 100 * k)))
          (chunksFrom fuel uris i)) w w'.
Proof.
  revert i w. induction fuel as [|fuel IH]; intros i w; cbn [addLoop chunksFrom];
    destruct (i <? length uris) eqn:Lt.
  - done.
  - intros [= <-] _. apply Nat.ltb_ge in Lt. rewrite drop_ge by done.
    split; [|split]; [|done|by rewrite app_nil_r]. simpl. by rewrite take_drop.
  - intros ([] & w1 & E1 & E)%bind_Ok Le.
    apply request_Ok in E1 as (h & E1 & ->).
    apply add_at_Resolved in E1 as (items & L & C & P).
    assert (Spotify.playlist id (host w) = items) as Ei
      by (unfold Spotify.playlist; by rewrite L).
    apply Nat.ltb_lt in Lt.
    rewrite Ei in Le. specialize (Le Lt).
    apply IH in E as (P2 & O2 & W2).
    2:{ intros Lt'. unfold Spotify.playlist. cbn. rewrite P, lookup_insert_eq. simpl.
        rewrite !length_app, length_take, length_map, length_drop, slice_100.
        rewrite length_take, length_drop. lia. }
    split; [|split].
    + rewrite P2, Ei. unfold Spotify.playlist at 1 2. cbn.
      rewrite P, lookup_insert_eq, C. simpl.
      replace (p + (i + 100)) with (p + i + 100) by lia.
      rewrite slice_100.
      rewrite insert_next.
      * by rewrite <- map_app, next_page.
      * done.
      * rewrite length_map, length_take, length_drop.
        destruct (decide (i + 100 ≤ length uris)); [left; lia|right].
        rewrite drop_ge by lia. done.
    + intros id' Ne. rewrite O2 by done. cbn. rewrite P. by apply lookup_insert_ne.
    + rewrite W2. cbn [requests set_host add_request]. rewrite writes_app.
      cbn [imap]. rewrite Nat.mul_0_r, Nat.add_0_r. simpl. rewrite <- app_assoc.
      do 2 f_equal. apply imap_ext. intros k c _. simpl. do 2 f_equal. lia.
  - intros [= <-] _. apply Nat.ltb_ge in Lt. rewrite drop_ge by done.
    split; [|split]; [|done|by rewrite app_nil_r]. simpl. by rewrite take_drop.
Qed.

(** X5.  On the host model, a successful
    [addTracksToMirrorPlaylist(trackUris, position)] with a position inside
    the mirror inserts the URIs there in the order given, also when they
    are sent in several batches: batch [k] is sent for position
    [position + 100 * k].  The other playlists are not changed. *)
Theorem tracks_added_at_a_position_stay_in_order uris p w w' mir :
  addTracksToMirrorPlaylist Spotify.api uris (Some p) w = (Ok tt, w') →
  MIRROR_PLAYLIST_ID w = Some mir →
  p ≤ length (Spotify.playlist mir (host w)) →
  let items := Spotify.playlist mir (host w) in
  Spotify.playlist mir (host w')
  = take p items ++ map (Spotify.new_item (Spotify.clock (host w))) uris ++ drop p items ∧
  writes (requests w')
  = writes (requests w)
    ++ imap (λ k c, ReqAddTracksToPlaylist mir c (Some (p + 100 * k))) (chunks uris) ∧
  (∀ id, id ≠ mir → Spotify.playlists (host w') !! id = Spotify.playlists (host w) !! id).
Proof.
  intros E Mir Le items. unfold addTracksToMirrorPlaylist in E.
  destruct (length uris =? 0) eqn:Len.
  - apply Nat.eqb_eq in Len. unfold ret in E. simplify_eq.
    apply nil_length_inv in Len as ->. simpl.
    split; [by rewrite take_drop|]. split; [by rewrite app_nil_r|done].
  - apply bind_Ok in E as ([] & w1 & E1 & E).
    apply (preserves_ensureAccessToken Spotify.api read_only) in E1 as R1.
    apply bind_Ok in E as (w2 & ? & [= <- <-] & E).
    pose proof R1 as ((_ & _ & _ & Mir1) & (_ & C) & _).
    rewrite Mir1, Mir in E. destruct (truthy_string mir); [|done].
    apply addLoop_at_Ok in E.
    2:{ intros _. rewrite (read_only_playlist mir _ _ R1). lia. }
    rewrite C, Nat.add_0_r, drop_0 in E.
    destruct (rewrites_trans _ _ _ _ _ _ _ _ (rewrites_read mir _ _ R1) E)
      as (P & O & W).
    split; [exact P|]. split; [exact W|exact O].
Qed.

Lemma tracks_added_at_a_position_stay_in_order_witness :
  ∃ w', addTracksToMirrorPlaylist Spotify.api ["X"; "Y"]%string (Some 1) three_in_mirror
        = (Ok tt, w') ∧
        Spotify.uris_of (Spotify.playlist "mirror" (host w'))
        = [Some "A"; Some "X"; Some "Y"; Some "B"; Some "C"]%string.
Proof.
  assert (∃ w', addTracksToMirrorPlaylist Spotify.api ["X"; "Y"]%string (Some 1)
                  three_in_mirror = (Ok tt, w')) as [w' E].
  { eexists. vm_compute. reflexivity. }
  exists w'. split; [exact E|].
  assert (1 ≤ length (Spotify.playlist "mirror" (host three_in_mirror))) as Le
    by (vm_compute; lia).
  rewrite (proj1 (tracks_added_at_a_position_stay_in_order
                    ["X"; "Y"]%string 1 three_in_mirror w' "mirror" E eq_refl Le)).
  vm_compute. reflexivity.
Defined.

(** ** Removing tracks *)

Lemma mirrorPush_removed uris o i o' i' items :
  map m_uri (mirrorPush o i (List.filter (λ item, negb (Spotify.holds uris item)) items))
  = List.filter (λ u, negb (bool_decide (u ∈ uris))) (map m_uri (mirrorPush o' i' items)).
Proof.
  revert i i'. induction items as [|x items IH]; intros i i'; simpl; [done|].
  unfold Spotify.holds at 1.
  destruct (item_track x) as [t|] eqn:T; simpl.
  - destruct (truthy_string (track_uri t)) eqn:F; simpl.
    + destruct (bool_decide (track_uri t ∈ uris)); simpl; [apply IH|].
      rewrite T, F. simpl. f_equal. apply IH.
    + destruct (bool_decide (track_uri t ∈ uris)); simpl; [apply IH|].
      rewrite T, F. apply IH.
  - rewrite T. apply IH.
Qed.

(** X6.  On the host model, after a successful
    [removeTracksFromMirrorPlaylist(trackUris)] a fetch of the mirror
    returns the tracks it held before, in their order, without those whose
    URI is in [trackUris]: every occurrence of a removed URI is gone.  The
    URIs are sent in batches of 1 to 100 that make up [trackUris]. *)
Theorem removed_tracks_are_gone uris fuel w w1 r w2 mir :
  removeTracksFromMirrorPlaylist Spotify.api uris w = (Ok tt, w1) →
  getMirrorPlaylistTracks Spotify.api fuel w1 = (Ok r, w2) →
  MIRROR_PLAYLIST_ID w = Some mir →
  map m_uri r
  = List.filter (λ u, negb (bool_decide (u ∈ uris))) (map m_uri (fetchedMirror mir w)) ∧
  (∀ t, t ∈ r → m_uri t ∉ uris) ∧
  writes (requests w2)
  = writes (requests w) ++ map (ReqRemoveTracksFromPlaylist mir) (chunks uris) ∧
  Forall (λ c, 0 < length c ≤ 100) (chunks uris) ∧ concat (chunks uris) = uris.
Proof.
  intros E1 E2 Mir.
  apply (preserves_removeTracksFromMirrorPlaylist Spotify.api same_env) in E1 as K.
  destruct K as (_ & _ & _ & Mir1).
  apply removeTracksFromMirrorPlaylist_Ok with (mir := mir) in E1 as (P & _ & W); [|done].
  apply getMirrorPlaylistTracks_Ok with (mir := mir) in E2 as [-> R]; [|congruence].
  assert (map m_uri (mirrorPush 0 0 (Spotify.playlist mir (host w1)))
          = List.filter (λ u, negb (bool_decide (u ∈ uris)))
              (map m_uri (fetchedMirror mir w))) as Eu.
  { rewrite P. apply mirrorPush_removed. }
  split; [exact Eu|]. split; [|split; [|split]].
  - intros t Ht Hu.
    assert (m_uri t ∈ map m_uri (mirrorPush 0 0 (Spotify.playlist mir (host w1)))) as Hin
      by (apply list_elem_of_In, in_map; by apply list_elem_of_In).
    rewrite Eu in Hin. apply list_elem_of_In, filter_In in Hin as [_ N].
    apply negb_true_iff, bool_decide_eq_false in N. done.
  - destruct R as (_ & _ & _ & ->). exact W.
  - apply chunks_bounded.
  - apply concat_chunks.
Qed.

Lemma removed_tracks_are_gone_witness :
  ∃ w1 r w2,
    removeTracksFromMirrorPlaylist Spotify.api ["B"; "Z"]%string Examples.misordered
    = (Ok tt, w1) ∧
    getMirrorPlaylistTracks Spotify.api 1 w1 = (Ok r, w2) ∧
    map m_uri r = ["A"%string].
Proof.
  assert (∃ w1, removeTracksFromMirrorPlaylist Spotify.api ["B"; "Z"]%string
                  Examples.misordered = (Ok tt, w1)) as [w1 E1].
  { eexists. vm_compute. reflexivity. }
  assert (∃ r w2, getMirrorPlaylistTracks Spotify.api 1
                    (removeTracksFromMirrorPlaylist Spotify.api ["B"; "Z"]%string
                       Examples.misordered).2 = (Ok r, w2)) as (r & w2 & E2).
  { eexists _, _. vm_compute. reflexivity. }
  rewrite E1 in E2. exists w1, r, w2. split; [exact E1|]. split; [exact E2|].
  rewrite (proj1 (removed_tracks_are_gone ["B"; "Z"]%string 1 Examples.misordered
                    w1 r w2 "mirror" E1 E2 eq_refl)).
  vm_compute. reflexivity.
Defined.

Lemma filter_all_in {A} (p : A → bool) l :
  (∀ x, x ∈ l → p x = true) → List.filter p l = l.
Proof.
  induction l as [|x l IH]; simpl; intros Hp; [done|].
  rewrite Hp by left. f_equal. apply IH. intros; apply Hp; by right.
Qed.

(** X7.  On the host model, adding URIs at the end of the mirror and
    then removing the same URIs leaves the entries the mirror had before
    without those that hold one of the URIs: the mirror is as before when
    none of its entries held one of them, and otherwise the old entries with
    these URIs are removed too. *)
Theorem add_then_remove_restores uris w w1 w2 mir :
  addTracksToMirrorPlaylist Spotify.api uris None w = (Ok tt, w1) →
  removeTracksFromMirrorPlaylist Spotify.api uris w1 = (Ok tt, w2) →
  MIRROR_PLAYLIST_ID w = Some mir →
  let items := Spotify.playlist mir (host w) in
  Spotify.playlist mir (host w2)
  = List.filter (λ item, negb (Spotify.holds uris item)) items ∧
  ((∀ item, item ∈ items → Spotify.holds uris item = false) →
   Spotify.playlist mir (host w2) = items).
Proof.
  intros E1 E2 Mir items.
  apply (preserves_addTracksToMirrorPlaylist Spotify.api same_env) in E1 as K.
  destruct K as (_ & _ & _ & Mir1).
  apply addTracksToMirrorPlaylist_Ok with (mir := mir) in E1 as (P1 & _ & _); [|done].
  apply removeTracksFromMirrorPlaylist_Ok with (mir := mir) in E2 as (P2 & _ & _);
    [|congruence].
  assert (Spotify.playlist mir (host w2)
          = List.filter (λ item, negb (Spotify.holds uris item)) items) as E.
  { rewrite P2, P1. fold items. rewrite List.filter_app.
    rewrite (proj2 (filter_nil_iff _ (map _ uris))), app_nil_r; [done|].
    intros item (u & <- & Hu%list_elem_of_In)%list_elem_of_In%in_map_iff.
    apply negb_false_iff. unfold Spotify.holds, Spotify.new_item. simpl.
    by apply bool_decide_eq_true. }
  split; [exact E|]. intros N. rewrite E. apply filter_all_in.
  intros item Hin. by rewrite N.
Qed.

Lemma add_then_remove_restores_witness :
  ∃ w1 w2,
    addTracksToMirrorPlaylist Spotify.api ["X"; "Y"]%string None Examples.misordered
    = (Ok tt, w1) ∧
    removeTracksFromMirrorPlaylist Spotify.api ["X"; "Y"]%string w1 = (Ok tt, w2) ∧
    Spotify.playlist "mirror" (host w2)
    = Spotify.playlist "mirror" (host Examples.misordered).
Proof.
  assert (∃ w1, addTracksToMirrorPlaylist Spotify.api ["X"; "Y"]%string None
                  Examples.misordered = (Ok tt, w1)) as [w1 E1].
  { eexists. vm_compute. reflexivity. }
  assert (∃ w2, removeTracksFromMirrorPlaylist Spotify.api ["X"; "Y"]%string
                  (addTracksToMirrorPlaylist Spotify.api ["X"; "Y"]%string None
                     Examples.misordered).2 = (Ok tt, w2)) as [w2 E2].
  { eexists. vm_compute. reflexivity. }
  rewrite E1 in E2. exists w1, w2. split; [exact E1|]. split; [exact E2|].
  apply (add_then_remove_restores ["X"; "Y"]%string Examples.misordered w1 w2 "mirror"
           E1 E2 eq_refl).
  clear. intros item Hin. vm_compute in Hin. apply list_elem_of_In in Hin.
  destruct Hin as [<-|[<-|[]]]; vm_compute; reflexivity.
Defined.

(** ** The play history the client collects *)

Lemma playedPages_stop fuel history tracks before requestCount :
  playedPages fuel history tracks before false requestCount = tracks.
Proof. by destruct fuel. Qed.

Lemma played_before_None history :
  List.filter (Spotify.played_before None) history = history.
Proof. by apply filter_all. Qed.

Lemma event_time_eq e t : played_at e = Some t → event_time e = t.
Proof. unfold event_time. by intros ->. Qed.

(** The events before the time of an event are the events after it. *)
Lemma played_before_split l1 e l2 b :
  well_formed_history (l1 ++ e :: l2) → played_at e = Some b →
  List.filter (Spotify.played_before (Some b)) (l1 ++ e :: l2) = l2.
Proof.
  intros [F S] Eb. rewrite List.filter_app. cbn [List.filter].
  apply Forall_app in F as [F1 F2]. apply Forall_cons in F2 as [_ F2].
  pose proof (event_time_eq _ _ Eb) as Et.
  assert (Spotify.played_before (Some b) e = false) as ->.
  { unfold Spotify.played_before. rewrite Eb. apply Z.ltb_irrefl. }
  assert (∀ x, x ∈ l1 → (b < event_time x)%Z) as Before.
  { intros x Hx. clear F1 F2. induction l1 as [|y l1 IH]; [by apply elem_of_nil in Hx|].
    simpl in S. apply StronglySorted_inv in S as [S Fy].
    apply elem_of_cons in Hx as [->|Hx]; [|by apply IH].
    rewrite Forall_forall in Fy. rewrite <- Et. apply Fy.
    apply elem_of_app. right. by left. }
  assert (∀ x, x ∈ l2 → (event_time x < b)%Z) as After.
  { intros x Hx. clear F1 F2 Before. induction l1 as [|y l1 IH].
    - simpl in S. apply StronglySorted_inv in S as [_ Fe].
      rewrite Forall_forall in Fe. rewrite <- Et. by apply Fe.
    - simpl in S. apply StronglySorted_inv in S as [S _]. by apply IH. }
  rewrite (proj2 (filter_nil_iff _ l1)).
  - simpl. apply filter_all_in. intros x Hx.
    rewrite Forall_forall in F2. destruct (F2 x Hx) as (_ & t & Ex & _).
    unfold Spotify.played_before. rewrite Ex. apply Z.ltb_lt.
    rewrite <- (event_time_eq _ _ Ex). by apply After.
  - intros x Hx.
    rewrite Forall_forall in F1. destruct (F1 x Hx) as (_ & t & Ex & _).
    unfold Spotify.played_before. rewrite Ex. apply Z.ltb_ge.
    rewrite <- (event_time_eq _ _ Ex). apply Z.lt_le_incl. by apply Before.
Qed.

Lemma playedPush_length l :
  Forall (λ e, is_Some (ph_track e) ∧ ∃ t, played_at e = Some t ∧ t ≠ 0%Z) l →
  length (playedPush l) = length l.
Proof.
  induction 1 as [|e l ([tr Tr] & t & Et & _) _ IH]; [done|].
  unfold playedPush in *. simpl. rewrite Tr, Et. simpl. by rewrite IH.
Qed.

(** One iteration of the loop. *)
Lemma playedPages_step fuel history tracks before requestCount :
  length tracks < 100 → requestCount < 3 →
  playedPages (S fuel) history tracks before true requestCount =
    let items :=
      take 50 (List.filter
                 (Spotify.played_before
                    (if truthy_number before then before else None)) history) in
    if length items =? 0 then tracks
    else if length (tracks ++ playedPush items) <? 100
         then playedPages fuel history (tracks ++ playedPush items)
                (last items ≫= played_at) true (S requestCount)
         else tracks ++ playedPush items.
Proof.
  intros Lt Rc. cbn [playedPages].
  apply Nat.ltb_lt in Lt as ->. apply Nat.ltb_lt in Rc as ->. cbn [andb]. cbv zeta.
  destruct (length _ =? 0) eqn:Z; [apply playedPages_stop|].
  apply Nat.eqb_neq in Z.
  assert ((0 <? length (take 50 (List.filter
             (Spotify.played_before (if truthy_number before then before else None))
             history))) = true) as -> by (apply Nat.ltb_lt; lia).
  cbn [andb]. destruct (_ <? 100); [done|apply playedPages_stop].
Qed.

(** The client collects the first hundred events of a well formed
    history. *)
Lemma playedPages_latest history :
  well_formed_history history →
  playedPages 3 history [] None true 0 = playedPush (take 100 history).
Proof.
  intros WF. pose proof WF as [F S].
  rewrite playedPages_step by (simpl; lia). cbv zeta.
  cbn [truthy_number]. rewrite played_before_None, app_nil_l.
  set (page1 := take 50 history).
  assert (length page1 = 50 `min` length history) as L1 by apply length_take.
  destruct (length page1 =? 0) eqn:Z1.
  { apply Nat.eqb_eq in Z1. assert (length history = 0) as Z by lia.
    apply nil_length_inv in Z as ->. done. }
  apply Nat.eqb_neq in Z1.
  assert (Forall (λ e, is_Some (ph_track e) ∧ ∃ t, played_at e = Some t ∧ t ≠ 0%Z) page1)
    as F1 by (by apply Forall_take).
  assert (length (playedPush page1) < 100) as P1
    by (rewrite playedPush_length by done; lia).
  pose proof P1 as P1'. apply Nat.ltb_lt in P1' as ->.
  (* the last event of the first page *)
  destruct (last page1) as [e1|] eqn:Last1.
  2:{ apply last_None in Last1. rewrite Last1 in Z1. done. }
  apply last_Some in Last1 as [l1 E1].
  assert (history = l1 ++ e1 :: drop 50 history) as Eh.
  { rewrite <- (take_drop 50 history) at 1. fold page1. rewrite E1.
    by rewrite <- app_assoc. }
  assert (∃ b1, played_at e1 = Some b1 ∧ b1 ≠ 0%Z) as (b1 & B1 & N1).
  { rewrite Forall_forall in F1. apply F1. rewrite E1. apply elem_of_app.
    right. by left. }
  cbn [mbind option_bind]. rewrite B1.
  rewrite playedPages_step by (done || lia). cbv zeta.
  assert (truthy_number (Some b1) = true) as ->
    by (simpl; by apply negb_true_iff, Z.eqb_neq).
  assert (List.filter (Spotify.played_before (Some b1)) history = drop 50 history) as ->.
  { rewrite Eh at 1. apply played_before_split; [by rewrite <- Eh|done]. }
  set (page2 := take 50 (drop 50 history)).
  assert (length page2 = 50 `min` (length history - 50)) as L2
    by (unfold page2; by rewrite length_take, length_drop).
  destruct (length page2 =? 0) eqn:Z2.
  { apply Nat.eqb_eq in Z2. unfold page1. rewrite !take_ge by lia. done. }
  apply Nat.eqb_neq in Z2.
  assert (playedPush page1 ++ playedPush page2 = playedPush (take 100 history)) as E12.
  { rewrite <- playedPush_app. f_equal. unfold page1, page2.
    rewrite <- (take_drop 50 (take 100 history)).
    rewrite take_take, Nat.min_l by lia. f_equal.
    by rewrite take_drop_commute. }
  rewrite E12.
  destruct (length (playedPush (take 100 history)) <? 100) eqn:P2; [|done].
  (* a third request: nothing is left *)
  apply Nat.ltb_lt in P2. pose proof P2 as P2'.
  rewrite playedPush_length in P2 by (by apply Forall_take).
  rewrite length_take in P2.
  assert (Forall (λ e, is_Some (ph_track e) ∧ ∃ t, played_at e = Some t ∧ t ≠ 0%Z) page2)
    as F2 by (by apply Forall_take, Forall_drop).
  destruct (last page2) as [e2|] eqn:Last2.
  2:{ apply last_None in Last2. rewrite Last2 in Z2. done. }
  apply last_Some in Last2 as [l2 E2].
  assert (page2 = drop 50 history) as Ep
    by (unfold page2; apply take_ge; rewrite length_drop; lia).
  assert (history = (page1 ++ l2) ++ e2 :: []) as Eh2.
  { rewrite <- (take_drop 50 history) at 1. fold page1. rewrite <- Ep, E2.
    by rewrite <- app_assoc. }
  assert (∃ b2, played_at e2 = Some b2 ∧ b2 ≠ 0%Z) as (b2 & B2 & N2).
  { rewrite Forall_forall in F2. apply F2. rewrite E2. apply elem_of_app.
    right. by left. }
  cbn [mbind option_bind]. rewrite B2.
  rewrite playedPages_step by (done || lia). cbv zeta.
  assert (truthy_number (Some b2) = true) as ->
    by (simpl; by apply negb_true_iff, Z.eqb_neq).
  assert (List.filter (Spotify.played_before (Some b2)) history = []) as ->.
  { rewrite Eh2 at 1. apply played_before_split; [by rewrite <- Eh2|done]. }
  done.
Qed.

(** X8.  On the host model, when every event of the play history has
    a track and a time other than the epoch and the events are in strictly
    decreasing order of time, a successful [getRecentlyPlayedTracks] returns the latest 100
    events (all of them if there are fewer), one track per URI. *)
Theorem recently_played_are_the_latest_hundred w r w' :
  getRecentlyPlayedTracks Spotify.api w = (Ok r, w') →
  well_formed_history (Spotify.history (host w)) →
  r = uniqueTracks (playedPush (take 100 (Spotify.history (host w)))) ∧
  length (playedPush (take 100 (Spotify.history (host w))))
  = 100 `min` length (Spotify.history (host w)) ∧
  NoDup (map p_uri r).
Proof.
  intros E WF. apply getRecentlyPlayedTracks_Ok in E as [-> _].
  unfold recentlyPlayed. rewrite playedPages_latest by done.
  split; [done|]. split; [|apply uniqueTracks_NoDup].
  rewrite playedPush_length by (apply Forall_take, WF). apply length_take.
Qed.

Lemma recently_played_are_the_latest_hundred_witness :
  ∃ r w', getRecentlyPlayedTracks Spotify.api three_plays = (Ok r, w') ∧
          map p_uri r = ["B"; "A"]%string.
Proof.
  assert (∃ r w', getRecentlyPlayedTracks Spotify.api three_plays = (Ok r, w'))
    as (r & w' & E).
  { eexists _, _. vm_compute. reflexivity. }
  exists r, w'. split; [exact E|].
  assert (well_formed_history (Spotify.history (host three_plays))) as WF.
  { clear. split.
    - repeat constructor; try (by eexists); eexists; (split; [reflexivity|discriminate]).
    - repeat constructor; vm_compute; reflexivity. }
  rewrite (proj1 (recently_played_are_the_latest_hundred three_plays r w' E WF)).
  vm_compute. reflexivity.
Defined.

(** ** What every step of a run keeps *)

Section Keeping.
Context {H : Type} (api : HostApi H) (senv menv : option string).
Context (I E : World H → Prop) {K : Keeps api senv menv I E}.



























End Keeping.

(** [ensureAccessToken] keeps what the refresh request and the update of
    the token keep. *)
Lemma keeps_ensureAccessToken_plain {H} (api : HostApi H) (I E : World H → Prop) :
  (∀ w, I w → E w) →
  (∀ l w, I w → I (add_console l w)) →
  (∀ l w, E w → E (add_console l w)) →
  (∀ t w, I w → I (set_accessToken t w)) →
  (∀ t w, I w → I (set_tokenExpirationTime t w)) →
  (∀ w, I w → I (set_host (answered api ReqRefreshAccessToken (host w))
                          (add_request ReqRefreshAccessToken w))) →
  keeps I E (ensureAccessToken api).
Proof.
  intros IE Ic Ec Ia It Ir w r w' Hw.
  destruct (decide (token_valid w)) as [V|V].
  - rewrite ensureAccessToken_valid by done. by intros [= <- <-].
  - rewrite ensureAccessToken_expired by done.
    specialize (Ir w Hw). cbn [answered] in Ir.
    destruct (refreshAccessToken api (host w)) as [[data|e] h]; intros [= <- <-].
    + apply Ic, It, Ia, Ir.
    + apply Ec, IE, Ir.
Qed.

(** ** The requests of a run *)

Lemma conforms_step {H} (w0 w w' : World H) r :
  conforms w0 w → same_env w w' → requests w' = requests w ++ [r] →
  permitted (SOURCE_PLAYLIST_ID w0) (MIRROR_PLAYLIST_ID w0) r →
  conforms w0 w'.
Proof.
  intros [Env (rs & Er & F)] Env' Er' P. split.
  - destruct Env as (?&?&?&?), Env' as (?&?&?&?). repeat split; congruence.
  - exists (rs ++ [r]). split; [by rewrite Er', Er, app_assoc|].
    apply Forall_app. split; [done|]. by constructor.
Qed.

Lemma conforms_same {H} (w0 w w' : World H) :
  conforms w0 w → same_env w w' → requests w' = requests w → conforms w0 w'.
Proof.
  intros [Env (rs & Er & F)] Env' Er'. split.
  - destruct Env as (?&?&?&?), Env' as (?&?&?&?). repeat split; congruence.
  - exists rs. split; [congruence|done].
Qed.

Global Instance conforms_keeps {H} (api : HostApi H) (w0 : World H) :
  Keeps api (SOURCE_PLAYLIST_ID w0) (MIRROR_PLAYLIST_ID w0) (conforms w0) (conforms w0).
Proof.
  split.
  - done.
  - intros w [(_ & _ & ? & ?) _]. done.
  - intros l w C. by eapply conforms_same.
  - intros l w C. by eapply conforms_same.
  - intros r w _ P C. by eapply conforms_step.
  - apply keeps_ensureAccessToken_plain; try done; intros;
      (by eapply conforms_same) || (by eapply conforms_step).
Qed.



(** ** Failures during the rebuild *)

Lemma effects_app clock rs1 rs2 items :
  effects clock (rs1 ++ rs2) items = effects clock rs2 (effects clock rs1 items).
Proof. unfold effects. apply fold_left_app. Qed.

Lemma carried_out_read mir ok w w' : read_only w w' → carried_out mir [] ok w w'.
Proof.
  intros R. exists [], []. split; [done|]. split; [simpl; lia|]. split; [done|].
  split; [by apply rewrites_read|by apply read_only_env_kept].
Qed.

Lemma carried_out_abrupt mir todo1 todo2 w w' :
  carried_out mir todo1 false w w' → carried_out mir (todo1 ++ todo2) false w w'.
Proof.
  intros (done & failed & P & L & _ & R & K). exists done, failed.
  split; [by apply prefix_app_r|]. done.
Qed.

Lemma carried_out_seq mir todo1 todo2 ok w1 w2 w3 :
  carried_out mir todo1 true w1 w2 → carried_out mir todo2 ok w2 w3 →
  carried_out mir (todo1 ++ todo2) ok w1 w3.
Proof.
  intros (d1 & f1 & _ & _ & E1 & R1 & K1) (d2 & f2 & P2 & L2 & E2 & R2 & K2).
  destruct E1 as [-> ->]; [done|]. rewrite app_nil_r in R1.
  exists (todo1 ++ d2), f2. split; [|split; [done|split; [|split]]].
  - rewrite <- app_assoc. by apply prefix_app.
  - intros ->. destruct E2 as [-> ->]; done.
  - replace (Spotify.clock (host w2)) with (Spotify.clock (host w1)) in R2
      by (symmetry; apply K1).
    eapply rewrites_ext; [exact (rewrites_trans _ _ _ _ _ _ _ _ R1 R2)| |].
    + intros items. by rewrite effects_app.
    + by rewrite app_assoc.
  - by eapply env_kept_trans.
Qed.

Lemma carried_out_log_r mir todo ok l w w' :
  carried_out mir todo ok w w' → carried_out mir todo ok w (add_console l w').
Proof.
  intros (done & failed & P & L & E & R & K). exists done, failed.
  repeat (split; [done|]). by apply env_kept_log_r.
Qed.

Lemma carried_out_log_l mir todo ok l w w' :
  carried_out mir todo ok (add_console l w) w' → carried_out mir todo ok w w'.
Proof.
  intros (done & failed & P & L & E & R & K). exists done, failed.
  repeat (split; [done|]). eapply env_kept_trans; [apply (R_console l)|exact K].
Qed.

Lemma carried_out_weaken mir todo w w' :
  carried_out mir todo true w w' → carried_out mir todo false w w'.
Proof.
  intros (done & failed & P & L & E & R & K). exists done, failed. done.
Qed.

(** A request the host model refuses leaves the playlists as they are. *)
Lemma remove_Rejected id uris s e s' :
  Spotify.answering (Spotify.remove id uris) s = (Rejected e, s') →
  Spotify.playlists s' = Spotify.playlists s.
Proof.
  intros [(_ & f & _ & ->)|[f E]]%answering_inv; [done|].
  unfold Spotify.remove in E.
  cbn [Spotify.playlists Spotify.set_faults Spotify.clock] in E.
  destruct (Spotify.playlists s !! id); [destruct (100 <? length uris)|]; by simplify_eq.
Qed.

Lemma add_Rejected id uris pos s e s' :
  Spotify.answering (Spotify.add id uris pos) s = (Rejected e, s') →
  Spotify.playlists s' = Spotify.playlists s.
Proof.
  intros [(_ & f & _ & ->)|[f E]]%answering_inv; [done|].
  unfold Spotify.add in E.
  cbn [Spotify.playlists Spotify.set_faults Spotify.clock] in E.
  destruct (Spotify.playlists s !! id); [destruct (100 <? length uris)|]; by simplify_eq.
Qed.

Lemma request_remove_carried_out id uris w r w' :
  request (ReqRemoveTracksFromPlaylist id uris)
          (removeTracksFromPlaylist Spotify.api id uris) w = (r, w') →
  carried_out id [ReqRemoveTracksFromPlaylist id uris] (succeeded r) w w'.
Proof.
  intros E.
  pose proof (preserves_request_remove Spotify.api env_kept id uris _ _ _ E) as K.
  destruct r as [[]|e|].
  - apply request_Ok in E as (h & E & ->).
    apply remove_Resolved in E as (items & L & P).
    exists [ReqRemoveTracksFromPlaylist id uris], []. split; [done|].
    split; [simpl; lia|]. split; [done|]. split; [|done].
    split; [|split].
    + unfold Spotify.playlist. cbn. by rewrite P, lookup_insert_eq, L.
    + intros id' Ne. cbn. rewrite P. by apply lookup_insert_ne.
    + cbn. by rewrite writes_app.
  - apply request_Throw in E as (h & E & ->).
    apply remove_Rejected in E as P.
    exists [], [ReqRemoveTracksFromPlaylist id uris]. split; [done|].
    split; [simpl; lia|]. split; [done|]. split; [|done].
    split; [|split].
    + unfold Spotify.playlist. cbn. by rewrite P.
    + intros id' Ne. cbn. by rewrite P.
    + cbn. by rewrite writes_app.
  - by apply request_not_Diverge in E.
Qed.

Lemma request_add_carried_out id uris w r w' :
  request (ReqAddTracksToPlaylist id uris None)
          (addTracksToPlaylist Spotify.api id uris None) w = (r, w') →
  carried_out id [ReqAddTracksToPlaylist id uris None] (succeeded r) w w'.
Proof.
  intros E.
  pose proof (preserves_request_add Spotify.api env_kept id uris None _ _ _ E) as K.
  destruct r as [[]|e|].
  - apply request_Ok in E as (h & E & ->).
    apply add_Resolved in E as (items & L & C & P).
    exists [ReqAddTracksToPlaylist id uris None], []. split; [done|].
    split; [simpl; lia|]. split; [done|]. split; [|done].
    split; [|split].
    + unfold Spotify.playlist. cbn. by rewrite P, lookup_insert_eq, L.
    + intros id' Ne. cbn. rewrite P. by apply lookup_insert_ne.
    + cbn. by rewrite writes_app.
  - apply request_Throw in E as (h & E & ->).
    apply add_Rejected in E as P.
    exists [], [ReqAddTracksToPlaylist id uris None]. split; [done|].
    split; [simpl; lia|]. split; [done|]. split; [|done].
    split; [|split].
    + unfold Spotify.playlist. cbn. by rewrite P.
    + intros id' Ne. cbn. by rewrite P.
    + cbn. by rewrite writes_app.
  - by apply request_not_Diverge in E.
Qed.

Lemma bind_inv {H A B} (m : M H A) (f : A → M H B) w r w' :
  bind m f w = (r, w') →
  (∃ a w1, m w = (Ok a, w1) ∧ f a w1 = (r, w')) ∨
  (∃ e, m w = (Throw e, w') ∧ r = Throw e) ∨
  (m w = (Diverge, w') ∧ r = Diverge).
Proof.
  unfold bind. destruct (m w) as [[a|e|] w1]; intros E.
  - left. by exists a, w1.
  - right. left. simplify_eq. by exists e.
  - right. right. by simplify_eq.
Qed.

(** The outcome of a block that logs and throws again is the outcome of
    the block. *)
Lemma try_rethrow_inv {H A} (m : M H A) (l : Error → LogLine) w r w' :
  try_catch m (λ e, bind (log (l e)) (λ _, throw e)) w = (r, w') →
  ∃ w1, m w = (r, w1) ∧
        (w' = w1 ∨ ∃ e, r = Throw e ∧ w' = add_console (l e) w1).
Proof.
  unfold try_catch. destruct (m w) as [[a|e|] w1]; intros E.
  - simplify_eq. exists w'. by split; [|left].
  - unfold bind, log, modify, throw in E. simplify_eq.
    exists w1. split; [done|]. right. by exists e.
  - simplify_eq. exists w'. by split; [|left].
Qed.

Lemma carried_out_refl mir ok w : carried_out mir [] ok w w.
Proof. apply carried_out_read, R_refl. Qed.

Lemma removeLoop_carried_out fuel id uris i w r w' :
  removeLoop Spotify.api fuel id uris i w = (r, w') →
  carried_out id (map (ReqRemoveTracksFromPlaylist id) (chunksFrom fuel uris i))
              (succeeded r) w w'.
Proof.
  revert i w. induction fuel as [|fuel IH]; intros i w; cbn [removeLoop chunksFrom];
    destruct (i <? length uris) eqn:Lt.
  - intros [= <- <-]. apply carried_out_refl.
  - intros [= <- <-]. apply carried_out_refl.
  - intros [(a & w1 & E1 & E)|[(e & E1 & ->)|[E1 ->]]]%bind_inv.
    + apply request_remove_carried_out in E1. apply IH in E.
      exact (carried_out_seq _ [_] _ _ _ _ _ E1 E).
    + apply request_remove_carried_out in E1.
      exact (carried_out_abrupt _ [_] _ _ _ E1).
    + by apply request_not_Diverge in E1.
  - intros [= <- <-]. apply carried_out_refl.
Qed.

Lemma addLoop_carried_out fuel id uris i w r w' :
  addLoop Spotify.api fuel id uris None i w = (r, w') →
  carried_out id (map (λ c, ReqAddTracksToPlaylist id c None) (chunksFrom fuel uris i))
              (succeeded r) w w'.
Proof.
  revert i w. induction fuel as [|fuel IH]; intros i w; cbn [addLoop chunksFrom];
    destruct (i <? length uris) eqn:Lt.
  - intros [= <- <-]. apply carried_out_refl.
  - intros [= <- <-]. apply carried_out_refl.
  - intros [(a & w1 & E1 & E)|[(e & E1 & ->)|[E1 ->]]]%bind_inv.
    + apply request_add_carried_out in E1. apply IH in E.
      exact (carried_out_seq _ [_] _ _ _ _ _ E1 E).
    + apply request_add_carried_out in E1.
      exact (carried_out_abrupt _ [_] _ _ _ E1).
    + by apply request_not_Diverge in E1.
  - intros [= <- <-]. apply carried_out_refl.
Qed.

(** After [ensureAccessToken] and the look at the environment: the rest
    [k] runs with the mirror of the environment. *)
Lemma with_mirror_carried_out {A} (k : string → M Spotify.State A) todo mir w r w' :
  (ensureAccessToken Spotify.api ;;;
   w0 <- get ;;
   match MIRROR_PLAYLIST_ID w0 with
   | Some mirrorPlaylistId =>
       if truthy_string mirrorPlaylistId then k mirrorPlaylistId
       else throw (EnvNotSet "MIRROR_PLAYLIST_ID")
   | None => throw (EnvNotSet "MIRROR_PLAYLIST_ID")
   end)%prog w = (r, w') →
  MIRROR_PLAYLIST_ID w = Some mir →
  (∀ w1 r w', k mir w1 = (r, w') → carried_out mir todo (succeeded r) w1 w') →
  carried_out mir todo (succeeded r) w w'.
Proof.
  intros E Mir Hk.
  apply bind_inv in E as [(a & w1 & E1 & E)|[(e & E1 & ->)|[E1 ->]]].
  - apply (preserves_ensureAccessToken Spotify.api read_only) in E1 as R1.
    unfold bind at 1, get in E.
    pose proof R1 as ((_ & _ & _ & Mir1) & _). rewrite Mir1, Mir in E.
    destruct (truthy_string mir).
    + apply Hk in E.
      exact (carried_out_seq _ [] _ _ _ _ _ (carried_out_read _ _ _ _ R1) E).
    + unfold throw in E. simplify_eq.
      exact (carried_out_abrupt _ [] _ _ _ (carried_out_read _ _ _ _ R1)).
  - apply (preserves_ensureAccessToken Spotify.api read_only) in E1 as R1.
    exact (carried_out_abrupt _ [] _ _ _ (carried_out_read _ _ _ _ R1)).
  - apply (preserves_ensureAccessToken Spotify.api read_only) in E1 as R1.
    exact (carried_out_abrupt _ [] _ _ _ (carried_out_read _ _ _ _ R1)).
Qed.

Lemma removeTracksFromMirrorPlaylist_carried_out uris mir w r w' :
  removeTracksFromMirrorPlaylist Spotify.api uris w = (r, w') →
  MIRROR_PLAYLIST_ID w = Some mir →
  carried_out mir (map (ReqRemoveTracksFromPlaylist mir) (chunks uris))
              (succeeded r) w w'.
Proof.
  unfold removeTracksFromMirrorPlaylist. intros E Mir.
  destruct (length uris =? 0) eqn:Len.
  - apply Nat.eqb_eq in Len. unfold ret in E. simplify_eq.
    unfold chunks. rewrite chunksFrom_ge by lia. apply carried_out_refl.
  - eapply with_mirror_carried_out; [exact E|exact Mir|].
    intros w1 r1 w1'. apply removeLoop_carried_out.
Qed.

Lemma addTracksToMirrorPlaylist_carried_out uris mir w r w' :
  addTracksToMirrorPlaylist Spotify.api uris None w = (r, w') →
  MIRROR_PLAYLIST_ID w = Some mir →
  carried_out mir (map (λ c, ReqAddTracksToPlaylist mir c None) (chunks uris))
              (succeeded r) w w'.
Proof.
  unfold addTracksToMirrorPlaylist. intros E Mir.
  destruct (length uris =? 0) eqn:Len.
  - apply Nat.eqb_eq in Len. unfold ret in E. simplify_eq.
    unfold chunks. rewrite chunksFrom_ge by lia. apply carried_out_refl.
  - eapply with_mirror_carried_out; [exact E|exact Mir|].
    intros w1 r1 w1'. apply addLoop_carried_out.
Qed.

Lemma syncAddLoop_carried_out fuel uris i mir w r w' :
  syncAddLoop Spotify.api fuel uris i w = (r, w') →
  MIRROR_PLAYLIST_ID w = Some mir →
  carried_out mir (map (λ c, ReqAddTracksToPlaylist mir c None) (chunksFrom fuel uris i))
              (succeeded r) w w'.
Proof.
  revert i w. induction fuel as [|fuel IH]; intros i w; cbn [syncAddLoop chunksFrom];
    destruct (i <? length uris) eqn:Lt.
  - intros [= <- <-] _. apply carried_out_refl.
  - intros [= <- <-] _. apply carried_out_refl.
  - intros E Mir. apply Nat.ltb_lt in Lt.
    apply bind_inv in E as [(a & w1 & E1 & E)|[(e & E1 & ->)|[E1 ->]]].
    + apply addTracksToMirrorPlaylist_carried_out with (mir := mir) in E1; [|done].
      rewrite chunks_small in E1 by apply slice_chunk, Lt.
      assert (MIRROR_PLAYLIST_ID w1 = Some mir) as Mir1.
      { destruct E1 as (_ & _ & _ & _ & _ & _ & (_ & _ & _ & ->) & _). done. }
      apply bind_inv in E as [(a2 & w2 & E2 & E)|[(e & E2 & _)|[E2 _]]];
        [|destruct (_ || _); discriminate E2..].
      assert (w2 = w1 ∨ ∃ l, w2 = add_console l w1) as Hw2.
      { destruct (_ || _); unfold log, modify, ret in E2; simplify_eq; eauto. }
      apply IH in E.
      2:{ destruct Hw2 as [->|[l ->]]; done. }
      eapply (carried_out_seq _ [_]); [exact E1|].
      destruct Hw2 as [->|[l ->]]; [done|]. by eapply carried_out_log_l.
    + apply addTracksToMirrorPlaylist_carried_out with (mir := mir) in E1; [|done].
      rewrite chunks_small in E1 by apply slice_chunk, Lt.
      exact (carried_out_abrupt _ [_] _ _ _ E1).
    + apply addTracksToMirrorPlaylist_carried_out with (mir := mir) in E1; [|done].
      rewrite chunks_small in E1 by apply slice_chunk, Lt.
      exact (carried_out_abrupt _ [_] _ _ _ E1).
  - intros [= <- <-] _. apply carried_out_refl.
Qed.

Lemma carried_out_read_abrupt mir todo w w' :
  read_only w w' → carried_out mir todo false w w'.
Proof.
  intros R. exact (carried_out_abrupt _ [] _ _ _ (carried_out_read _ _ _ _ R)).
Qed.

Lemma carried_out_after_read mir todo ok w w1 w' :
  read_only w w1 → carried_out mir todo ok w1 w' → carried_out mir todo ok w w'.
Proof.
  intros R C. exact (carried_out_seq _ [] _ _ _ _ _ (carried_out_read _ _ _ _ R) C).
Qed.

(** The removal step of a rebuild, whatever its outcome. *)
Lemma removal_carried_out uris mir w r w' :
  (if 0 <? length uris
   then bind (log LogRemovingAll)
             (λ _, removeTracksFromMirrorPlaylist Spotify.api uris)
   else ret tt) w = (r, w') →
  MIRROR_PLAYLIST_ID w = Some mir →
  carried_out mir (map (ReqRemoveTracksFromPlaylist mir) (chunks uris))
              (succeeded r) w w'.
Proof.
  intros E Mir. destruct (0 <? length uris) eqn:Pos.
  - rewrite (bind_eq_Ok _ _ _ _ _ (log_eq _ _)) in E.
    apply removeTracksFromMirrorPlaylist_carried_out with (mir := mir) in E; [|done].
    by eapply carried_out_log_l.
  - unfold ret in E. simplify_eq. apply Nat.ltb_ge in Pos.
    unfold chunks. rewrite chunksFrom_ge by lia. apply carried_out_refl.
Qed.

Lemma syncMirrorPlaylist_carried_out fuel w r w' src mir :
  syncMirrorPlaylist Spotify.api fuel w = (r, w') →
  SOURCE_PLAYLIST_ID w = Some src →
  MIRROR_PLAYLIST_ID w = Some mir →
  carried_out mir (plan src mir w) (succeeded r) w w'.
Proof.
  intros E Src Mir. unfold syncMirrorPlaylist in E.
  apply try_rethrow_inv in E as (w0 & E & Hw').
  assert (carried_out mir (plan src mir w) (succeeded r) w w0) as C;
    [|destruct Hw' as [->|(e & _ & ->)]; [done|by apply carried_out_log_r]].
  clear w' Hw'.
  rewrite (bind_eq_Ok _ _ _ _ _ (log_eq _ _)) in E.
  (* the source *)
  apply bind_inv in E as [(sourceTracks & w1 & E1 & E)|[(e & E1 & ->)|[E1 ->]]];
    try (apply (preserves_getSourcePlaylistTracks Spotify.api read_only) in E1;
         apply carried_out_read_abrupt; by eapply read_only_log_l).
  apply getSourcePlaylistTracks_Ok with (src := src) in E1 as [ES R1]; [|done].
  apply read_only_log_l in R1.
  change (sourceTracks = fetchedSource src w) in ES. subst sourceTracks.
  rewrite (bind_eq_Ok _ _ _ _ _ (log_eq _ _)) in E.
  apply (read_only_log_r (LogFoundSource (length (fetchedSource src w)))) in R1.
  unfold bind at 1, get in E. cbn [tza now add_console] in E.
  pose proof R1 as ((Hnow & Htza & _ & Mir1) & _).
  cbn [tza now add_console MIRROR_PLAYLIST_ID] in Hnow, Htza, Mir1.
  rewrite Hnow, Htza in E. clear Hnow Htza.
  rewrite (bind_eq_Ok _ _ _ _ _ (log_eq _ _)) in E.
  apply (read_only_log_r (LogWithinLastYear (length (tracksWithinLastYear (tza w) (now w) (fetchedSource src w))))) in R1.
  (* the play history *)
  apply bind_inv in E as [(played & w2 & E2 & E)|[(e & E2 & ->)|[E2 ->]]];
    try (apply (preserves_getRecentlyPlayedTracks Spotify.api read_only) in E2;
         apply carried_out_read_abrupt; by eapply R_trans).
  apply getRecentlyPlayedTracks_Ok in E2 as [EP R2].
  pose proof (R_trans _ _ _ R1 R2) as R12. clear R2.
  assert (played = fetchedPlayed w) as ->.
  { subst played. unfold fetchedPlayed. by destruct R1 as (_ & [-> _] & _). }
  clear EP R1.
  rewrite (bind_eq_Ok _ _ _ _ _ (log_eq _ _)) in E.
  apply (read_only_log_r (LogFoundRecentlyPlayed (length (fetchedPlayed w)))) in R12.
  rewrite (bind_eq_Ok _ _ _ _ _ (log_eq _ _)) in E.
  apply (read_only_log_r (LogInLockPeriod (size (recentlyPlayedUris (tza w) (now w) (fetchedPlayed w))))) in R12.
  (* the mirror *)
  apply bind_inv in E as [(mirrorTracks & w3 & E3 & E)|[(e & E3 & ->)|[E3 ->]]];
    try (apply (preserves_getMirrorPlaylistTracks Spotify.api read_only) in E3;
         apply carried_out_read_abrupt; by eapply R_trans).
  apply getMirrorPlaylistTracks_Ok with (mir := mir) in E3 as [EM R3].
  2:{ destruct R12 as ((_ & _ & _ & ->) & _). done. }
  pose proof (R_trans _ _ _ R12 R3) as R123. clear R3.
  assert (mirrorTracks = fetchedMirror mir w) as ->.
  { subst mirrorTracks. unfold fetchedMirror. f_equal.
    apply (read_only_playlist mir) in R12. by rewrite <- R12. }
  clear EM R12 Mir1.
  rewrite (bind_eq_Ok _ _ _ _ _ (log_eq _ _)) in E.
  apply (read_only_log_r (LogFoundMirror (length (fetchedMirror mir w)))) in R123.
  rewrite (bind_eq_Ok _ _ _ _ _ (log_eq _ _)) in E.
  apply (read_only_log_r (LogEligible (length (eligibleTracks (tza w) (now w) (fetchedSource src w) (fetchedPlayed w))))) in R123.
  match type of R123 with read_only _ ?x => set (w5 := x) in * end. clearbody w5.
  clear w1 w2 w3.
  assert (MIRROR_PLAYLIST_ID w5 = Some mir) as Mir5
    by (destruct R123 as ((_ & _ & _ & ->) & _); done).
  eapply carried_out_after_read; [exact R123|]. clear R123.
  fold (rebuilds src mir w) in E. unfold plan.
  (* the writes *)
  destruct (rebuilds src mir w).
  - assert (∀ r' w6,
      (log LogChangesDetected ;;;
       (if 0 <? length (allCurrentUris (fetchedMirror mir w)) then
          log LogRemovingAll ;;;
          removeTracksFromMirrorPlaylist Spotify.api (allCurrentUris (fetchedMirror mir w))
        else ret tt) ;;;
       log LogAddingNewestFirst ;;;
       syncAddLoop Spotify.api (length (desired src w)) (desired src w) 0 ;;;
       log LogPlaylistUpdated ;;;
       (if 0 <? size (recentlyPlayedUris (tza w) (now w) (fetchedPlayed w))
        then log (LogExcluded (size (recentlyPlayedUris (tza w) (now w) (fetchedPlayed w))))
        else ret tt))%prog w5 = (r', w6) →
      carried_out mir (rebuildRequests src mir w) (succeeded r') w5 w6) as Rebuild.
    { clear E r w0. intros r w6 E.
      rewrite (bind_eq_Ok _ _ _ _ _ (log_eq _ _)) in E.
      apply (carried_out_log_l _ _ _ LogChangesDetected).
      unfold rebuildRequests.
      apply bind_inv in E as [(a & w7 & E7 & E)|[(e & E7 & ->)|[E7 ->]]];
        try (apply removal_carried_out with (mir := mir) in E7; [|done];
             by apply carried_out_abrupt).
      apply removal_carried_out with (mir := mir) in E7 as C7; [|done].
      assert (MIRROR_PLAYLIST_ID w7 = Some mir) as Mir7.
      { destruct C7 as (_ & _ & _ & _ & _ & _ & (_ & _ & _ & ->) & _). done. }
      eapply carried_out_seq; [exact C7|]. clear C7 E7.
      rewrite (bind_eq_Ok _ _ _ _ _ (log_eq _ _)) in E.
      apply (carried_out_log_l _ _ _ LogAddingNewestFirst).
      apply bind_inv in E as [(a8 & w8 & E8 & E)|[(e & E8 & ->)|[E8 ->]]];
        try (by apply syncAddLoop_carried_out with (mir := mir) in E8).
      apply syncAddLoop_carried_out with (mir := mir) in E8; [|done].
      rewrite (bind_eq_Ok _ _ _ _ _ (log_eq _ _)) in E.
      destruct (0 <? size _); unfold log, modify, ret in E; simplify_eq;
        repeat apply carried_out_log_r; exact E8. }
    apply bind_inv in E as [(a & w6 & E6 & E)|[(e & E6 & ->)|[E6 ->]]];
      try (by apply Rebuild in E6).
    apply Rebuild in E6. unfold log, modify in E. simplify_eq. by apply carried_out_log_r.
  - rewrite (bind_eq_Ok _ _ _ _ _ (log_eq _ _)) in E.
    unfold log, modify in E. simplify_eq.
    apply carried_out_log_r, carried_out_log_r, carried_out_refl.
Qed.

(** X11.  On the host model, however a run of
    [syncMirrorPlaylist] ends, the write requests it has sent are a prefix
    of the planned ones (the removals of the mirror tracks, then the
    additions of the wanted tracks, if a rebuild is due); all but at most
    the last one, which the host refused, have taken effect on the mirror,
    and nothing is rolled back; a run that returns has sent them all.  The
    other playlists and the play history are not changed. *)
Theorem completed_writes_are_kept fuel w r w' src mir :
  syncMirrorPlaylist Spotify.api fuel w = (r, w') →
  SOURCE_PLAYLIST_ID w = Some src →
  MIRROR_PLAYLIST_ID w = Some mir →
  ∃ done failed,
    done ++ failed `prefix_of` plan src mir w ∧
    length failed ≤ 1 ∧
    (r = Ok tt → done = plan src mir w ∧ failed = []) ∧
    writes (requests w') = writes (requests w) ++ done ++ failed ∧
    Spotify.playlist mir (host w')
    = effects (Spotify.clock (host w)) done (Spotify.playlist mir (host w)) ∧
    (∀ id, id ≠ mir →
       Spotify.playlists (host w') !! id = Spotify.playlists (host w) !! id) ∧
    Spotify.history (host w') = Spotify.history (host w).
Proof.
  intros E Src Mir.
  destruct (syncMirrorPlaylist_carried_out fuel w r w' src mir E Src Mir)
    as (done & failed & P & L & Ok & (Pl & O & W) & (_ & Hh & _)).
  exists done, failed. repeat (split; [done|]). split; [|done].
  intros ->. by apply Ok.
Qed.

Example rebuild_interrupted :
  let r := syncMirrorPlaylist Spotify.api 1 addition_refused in
  r.1 = Throw (ApiError 500) ∧ Examples.mirror_after r = [] ∧
  writes (requests r.2) =
    [ReqRemoveTracksFromPlaylist "mirror" ["A"%string];
     ReqAddTracksToPlaylist "mirror" ["C"%string] None].
Proof. vm_compute. done. Qed.

Lemma completed_writes_are_kept_witness :
  ∃ w' done failed,
    syncMirrorPlaylist Spotify.api 1 addition_refused = (Throw (ApiError 500), w') ∧
    done ++ failed `prefix_of` plan "source" "mirror" addition_refused ∧
    Spotify.playlist "mirror" (host w')
    = effects Examples.today done [Examples.entry "A" 0].
Proof.
  assert (∃ w', syncMirrorPlaylist Spotify.api 1 addition_refused
                = (Throw (ApiError 500), w')) as [w' E].
  { eexists. vm_compute. reflexivity. }
  destruct (completed_writes_are_kept 1 addition_refused _ w' "source" "mirror"
              E eq_refl eq_refl) as (done & failed & P & _ & _ & _ & Pl & _).
  exists w', done, failed. split; [exact E|]. split; [exact P|exact Pl].
Defined.

(** ** The requests for the play history *)

Lemma ensureAccessToken_requests {H} (api : HostApi H) w r w' :
  ensureAccessToken api w = (r, w') →
  requests w' = requests w ∨ requests w' = requests w ++ [ReqRefreshAccessToken].
Proof.
  destruct (decide (token_valid w)) as [V|V].
  - rewrite ensureAccessToken_valid by done. intros [= _ <-]. by left.
  - rewrite ensureAccessToken_expired by done.
    destruct (refreshAccessToken api (host w)) as [[data|e] h]; intros [= _ <-];
      by right.
Qed.

Lemma playedLoop_requests {H} (api : HostApi H) fuel tracks before more requestCount
    w r w' :
  playedLoop api fuel tracks before more requestCount w = (r, w') →
  ∃ rs, requests w' = requests w ++ rs ∧
        length rs ≤ 3 - requestCount ∧
        Forall plays_request rs ∧
        (∀ q, head rs = Some q →
              q = ReqGetMyRecentlyPlayedTracks 50
                    (if truthy_number before then before else None)).
Proof.
  revert tracks before more requestCount w r w'.
  induction fuel as [|fuel IH]; intros tracks before more requestCount w r w';
    cbn [playedLoop]; destruct (more && (length tracks <? 100) && (requestCount <? 3))
      eqn:C;
    try (intros [= _ <-]; exists []; rewrite app_nil_r;
         by repeat split; [simpl; lia|constructor|]).
  apply andb_true_iff in C as [_ Rc%Nat.ltb_lt].
  rewrite (bind_eq_Ok _ _ _ _ _ (log_eq _ _)).
  set (before' := if truthy_number before then before else None).
  assert (plays_request (ReqGetMyRecentlyPlayedTracks 50 before')) as P.
  { exists before'. split; [done|]. unfold before'.
    destruct before as [z|]; simpl; [|done].
    destruct (z =? 0)%Z eqn:Z; simpl; [done|]. apply Z.eqb_neq in Z. congruence. }
  assert (∀ w1 x : World H, requests w1 = requests (add_console (LogMakingRequest (S requestCount)) w)
                                ++ [ReqGetMyRecentlyPlayedTracks 50 before'] →
            (∃ rs, requests x = requests w1 ++ rs ∧ length rs ≤ 3 - S requestCount ∧
                   Forall plays_request rs) →
            ∃ rs, requests x = requests w ++ rs ∧ length rs ≤ 3 - requestCount ∧
                  Forall plays_request rs ∧
                  (∀ q, head rs = Some q →
                        q = ReqGetMyRecentlyPlayedTracks 50 before')) as Step.
  { intros w1 x E1 (rs & Er & L & F).
    exists (ReqGetMyRecentlyPlayedTracks 50 before' :: rs).
    split; [|split; [simpl; lia|split; [by constructor|]]].
    - rewrite Er, E1. cbn. by rewrite <- app_assoc.
    - by intros q [= <-]. }
  intros [(items & w1 & E1 & E)|[(e & E1 & ->)|[E1 ->]]]%bind_inv.
  - apply request_Ok in E1 as (h & _ & ->).
    apply (Step (set_host h (add_request (ReqGetMyRecentlyPlayedTracks 50 before')
                               (add_console (LogMakingRequest (S requestCount)) w))));
      [done|].
    destruct (length items =? 0).
    + apply IH in E as (rs & ? & ? & ? & _). by exists rs.
    + destruct (_ && _); rewrite (bind_eq_Ok _ _ _ _ _ (log_eq _ _)) in E;
        apply IH in E as (rs & ? & ? & ? & _); by exists rs.
  - apply request_Throw in E1 as (h & _ & ->).
    apply (Step (set_host h (add_request (ReqGetMyRecentlyPlayedTracks 50 before')
                               (add_console (LogMakingRequest (S requestCount)) w))));
      [done|].
    exists []. rewrite app_nil_r. split; [done|]. split; [simpl; lia|constructor].
  - by apply request_not_Diverge in E1.
Qed.

(** X12.  Whatever the host answers and however the call ends,
    [getRecentlyPlayedTracks] sends, after at most one token refresh, at
    most three requests for the play history, each for 50 events, the first
    one without [before]; the tracks it returns have distinct URIs. *)
Theorem play_history_takes_three_requests_at_most {H} (api : HostApi H) w r w' :
  getRecentlyPlayedTracks api w = (r, w') →
  ∃ rs,
    (requests w' = requests w ++ rs ∨
     requests w' = requests w ++ ReqRefreshAccessToken :: rs) ∧
    length rs ≤ 3 ∧
    Forall plays_request rs ∧
    (∀ q, head rs = Some q → q = ReqGetMyRecentlyPlayedTracks 50 None) ∧
    (∀ tracks, r = Ok tracks → NoDup (map p_uri tracks)).
Proof.
  unfold getRecentlyPlayedTracks.
  intros [([] & w1 & E1 & E)|[(e & E1 & ->)|[E1 ->]]]%bind_inv.
  - apply ensureAccessToken_requests in E1 as R1.
    apply try_rethrow_inv in E as (w2 & E & Hw').
    assert (requests w' = requests w2) as -> by (by destruct Hw' as [->|(? & _ & ->)]).
    clear Hw'.
    assert (∃ rs, requests w2 = requests w1 ++ rs ∧ length rs ≤ 3 ∧
                  Forall plays_request rs ∧
                  (∀ q, head rs = Some q → q = ReqGetMyRecentlyPlayedTracks 50 None) ∧
                  (∀ tracks, r = Ok tracks → NoDup (map p_uri tracks)))
      as (rs & Er & L & F & Hd & N).
    { apply bind_inv in E as [(tracks & w3 & E3 & E)|[(e & E3 & ->)|[E3 ->]]].
      - apply playedLoop_requests in E3 as (rs & Er & L & F & Hd).
        rewrite (bind_eq_Ok _ _ _ _ _ (log_eq _ _)) in E. unfold ret in E.
        simplify_eq. exists rs. repeat (split; [done|]).
        intros ? [= <-]. apply uniqueTracks_NoDup.
      - apply playedLoop_requests in E3 as (rs & Er & L & F & Hd).
        exists rs. by repeat (split; [done|]).
      - apply playedLoop_requests in E3 as (rs & Er & L & F & Hd).
        exists rs. by repeat (split; [done|]). }
    exists rs. split; [|done].
    destruct R1 as [R1|R1]; rewrite Er, R1; [by left|right]. by rewrite <- app_assoc.
  - apply ensureAccessToken_requests in E1 as R1. exists [].
    split; [destruct R1 as [->| ->]; [left; by rewrite app_nil_r|by right]|].
    split; [simpl; lia|]. by repeat split; [constructor|..].
  - apply ensureAccessToken_requests in E1 as R1. exists [].
    split; [destruct R1 as [->| ->]; [left; by rewrite app_nil_r|by right]|].
    split; [simpl; lia|]. by repeat split; [constructor|..].
Qed.

Lemma play_history_takes_three_requests_at_most_witness :
  length (requests (getRecentlyPlayedTracks Spotify.api three_plays).2) ≤ 4.
Proof.
  destruct (play_history_takes_three_requests_at_most Spotify.api three_plays
              (getRecentlyPlayedTracks Spotify.api three_plays).1
              (getRecentlyPlayedTracks Spotify.api three_plays).2)
    as (rs & E & L & _).
  - by destruct (getRecentlyPlayedTracks _ _).
  - destruct E as [E|E]; rewrite E; cbn; lia.
Defined.

(** ** A run that ends well *)

(** X13.  On a host that refuses no request, with both playlists
    configured and present and with fuel for their pages,
    [syncMirrorPlaylist] returns: it sends exactly the planned write
    requests, all of which take effect on the mirror, and leaves the process
    ready for the next run. *)
Theorem run_ends_well_on_a_faultless_host fuel src mir w :
  Ready src mir w →
  length (Spotify.playlist src (host w)) < 100 * fuel →
  length (Spotify.playlist mir (host w)) < 100 * fuel →
  ∃ w', syncMirrorPlaylist Spotify.api fuel w = (Ok tt, w') ∧
        writes (requests w') = writes (requests w) ++ plan src mir w ∧
        Spotify.playlist mir (host w')
        = effects (Spotify.clock (host w)) (plan src mir w)
            (Spotify.playlist mir (host w)) ∧
        Ready src mir w'.
Proof.
  intros R LS LM. destruct (sync_succeeds fuel src mir w R LS LM) as [w' E].
  exists w'. split; [exact E|].
  destruct (syncMirrorPlaylist_carried_out fuel w _ w' src mir E
              (ready_source _ _ _ R) (ready_mirror _ _ _ R))
    as (done & failed & _ & _ & Ok & (Pl & _ & W) & _).
  destruct Ok as [-> ->]; [done|]. rewrite app_nil_r in W.
  split; [exact W|]. split; [exact Pl|].
  eapply Ready_sound; [exact R|].
  by eapply (preserves_syncMirrorPlaylist Spotify.api sound).
Qed.

Lemma spec_example_Ready : Ready "source" "mirror" Examples.spec_example.
Proof.
  split; [reflexivity|reflexivity|reflexivity|discriminate|discriminate|..];
    eexists; vm_compute; reflexivity.
Qed.

Lemma run_ends_well_on_a_faultless_host_witness :
  ∃ w', syncMirrorPlaylist Spotify.api 1 Examples.spec_example = (Ok tt, w') ∧
        Ready "source" "mirror" w'.
Proof.
  destruct (run_ends_well_on_a_faultless_host 1 "source" "mirror" Examples.spec_example
              spec_example_Ready) as (w' & E & _ & _ & R).
  - vm_compute. lia.
  - vm_compute. lia.
  - exists w'. split; [exact E|exact R].
Defined.

(** ** The run after a failure *)

(** X14.  On the host model, with two different playlists configured
    and no empty URI in the source: a run, however it ends, leaves the
    source playlist and the play history as they were, so when a later run
    (at any clock) returns, the mirror holds exactly the tracks wanted at
    that time, and in the wanted order if that run rebuilt the mirror. *)
Theorem next_run_repairs_the_mirror fuel fuel' w r w1 t w2 src mir :
  syncMirrorPlaylist Spotify.api fuel w = (r, w1) →
  syncMirrorPlaylist Spotify.api fuel' (at_time t w1) = (Ok tt, w2) →
  SOURCE_PLAYLIST_ID w = Some src →
  MIRROR_PLAYLIST_ID w = Some mir →
  src ≠ mir →
  uris_nonempty (Spotify.playlist src (host w)) →
  desired src (at_time t w1) = desired src (at_time t w) ∧
  currentMirrorUris (fetchedMirror mir w2) = list_to_set (desired src (at_time t w)) ∧
  (rebuilds src mir (at_time t w1) = true →
   map m_uri (fetchedMirror mir w2) = desired src (at_time t w)).
Proof.
  intros E1 E2 Src Mir Ne N.
  destruct (syncMirrorPlaylist_carried_out fuel w r w1 src mir E1 Src Mir)
    as (done & failed & _ & _ & _ & (_ & O & _) & ((Hnow & Htza & Src1 & Mir1) & (Hh & _))).
  assert (Spotify.playlist src (host w1) = Spotify.playlist src (host w)) as Ps
    by (unfold Spotify.playlist; by rewrite O).
  assert (fetchedSource src (at_time t w1) = fetchedSource src (at_time t w)) as ES
    by (unfold fetchedSource; cbn [host at_time]; by rewrite Ps).
  assert (fetchedPlayed (at_time t w1) = fetchedPlayed (at_time t w)) as EP
    by (unfold fetchedPlayed; cbn [host at_time]; by rewrite Hh).
  assert (desired src (at_time t w1) = desired src (at_time t w)) as ED
    by (unfold desired; rewrite ES, EP; cbn [tza now at_time]; by rewrite Htza).
  split; [exact ED|].
  apply syncMirrorPlaylist_Ok with (src := src) (mir := mir) in E2 as [_ E2];
    [|cbn [SOURCE_PLAYLIST_ID MIRROR_PLAYLIST_ID at_time]; congruence..].
  rewrite <- ED.
  destruct (rebuilds src mir (at_time t w1)) eqn:C.
  - destruct E2 as (P & _).
    assert (map m_uri (fetchedMirror mir w2) = desired src (at_time t w1)) as Em.
    { unfold fetchedMirror. rewrite P. apply rebuilt_fetched.
      cbn [host at_time]. by rewrite Ps. }
    split; [|done]. unfold currentMirrorUris. by rewrite Em.
  - destruct E2 as (P & _). split; [|done].
    unfold rebuilds in C. apply no_changes_sets in C.
    unfold fetchedMirror in *. rewrite P, C. symmetry. apply desired_set.
Qed.

Lemma next_run_repairs_the_mirror_witness :
  let t := (Examples.today + 30 * 60 * 1000)%Z in
  let w1 := (syncMirrorPlaylist Spotify.api 1 addition_refused).2 in
  let w2 := (syncMirrorPlaylist Spotify.api 1 (at_time t w1)).2 in
  currentMirrorUris (fetchedMirror "mirror" w2)
  = list_to_set (desired "source" (at_time t addition_refused)).
Proof.
  intros t w1 w2.
  assert (syncMirrorPlaylist Spotify.api 1 addition_refused
          = (Throw (ApiError 500), w1)) as E1 by (vm_compute; reflexivity).
  assert (syncMirrorPlaylist Spotify.api 1 (at_time t w1) = (Ok tt, w2)) as E2
    by (vm_compute; reflexivity).
  assert ("source" ≠ "mirror")%string as Ne by (clear; discriminate).
  assert (uris_nonempty (Spotify.playlist "source" (host addition_refused))) as N.
  { clear. intros item t Hin. vm_compute in Hin. apply list_elem_of_In in Hin.
    destruct Hin as [<-|[<-|[<-|[]]]]; intros [= <-]; discriminate. }
  exact (proj1 (proj2 (next_run_repairs_the_mirror 1 1 addition_refused _ w1 t w2
                         "source" "mirror" E1 E2 eq_refl eq_refl Ne N))).
Defined.

(** ** A playlist that is not configured *)

Lemma ensure_then_get {H A} (api : HostApi H) (k : World H → M H A) w w1 :
  ensureAccessToken api w = (Ok tt, w1) →
  (ensureAccessToken api ;;; w0 <- get ;; k w0)%prog w = k w1 w1.
Proof. intros E. by rewrite (bind_eq_Ok _ _ _ _ _ E). Qed.

(** X15.  When the id of a playlist is not set or is the empty
    string and [ensureAccessToken] returns, the accessor functions that need
    the id throw the error naming the variable, in the world
    [ensureAccessToken] left: the token may have been refreshed, and no
    playlist request is sent.  With an empty list of
    URIs [addTracksToMirrorPlaylist] and [removeTracksFromMirrorPlaylist]
    return at once instead, without touching the token. *)
Theorem playlist_id_not_configured {H} (api : HostApi H) fuel w w1 :
  ensureAccessToken api w = (Ok tt, w1) →
  (truthy_env (SOURCE_PLAYLIST_ID w) = false →
   getSourcePlaylistTracks api fuel w = (Throw (EnvNotSet "SOURCE_PLAYLIST_ID"), w1)) ∧
  (truthy_env (MIRROR_PLAYLIST_ID w) = false →
   getMirrorPlaylistTracks api fuel w = (Throw (EnvNotSet "MIRROR_PLAYLIST_ID"), w1) ∧
   ∀ trackUris position,
     addTracksToMirrorPlaylist api trackUris position w
     = (if length trackUris =? 0 then (Ok tt, w)
        else (Throw (EnvNotSet "MIRROR_PLAYLIST_ID"), w1)) ∧
     removeTracksFromMirrorPlaylist api trackUris w
     = (if length trackUris =? 0 then (Ok tt, w)
        else (Throw (EnvNotSet "MIRROR_PLAYLIST_ID"), w1))).
Proof.
  intros E.
  pose proof (preserves_ensureAccessToken api same_env _ _ _ E) as (_ & _ & Src & Mir).
  split.
  - intros T. unfold getSourcePlaylistTracks. rewrite (ensure_then_get _ _ _ _ E).
    rewrite Src. destruct (SOURCE_PLAYLIST_ID w) as [id|]; [|done].
    simpl in T. by rewrite T.
  - intros T.
    assert (∀ A (k : string → M H A),
              match MIRROR_PLAYLIST_ID w1 with
              | Some id => if truthy_string id then k id
                           else throw (EnvNotSet "MIRROR_PLAYLIST_ID")
              | None => throw (EnvNotSet "MIRROR_PLAYLIST_ID")
              end w1 = (Throw (EnvNotSet "MIRROR_PLAYLIST_ID"), w1)) as K.
    { intros A k. rewrite Mir. destruct (MIRROR_PLAYLIST_ID w) as [id|]; [|done].
      simpl in T. by rewrite T. }
    split; [|intros trackUris position; split].
    + unfold getMirrorPlaylistTracks. rewrite (ensure_then_get _ _ _ _ E). apply K.
    + unfold addTracksToMirrorPlaylist. destruct (length trackUris =? 0); [done|].
      rewrite (ensure_then_get _ _ _ _ E). apply K.
    + unfold removeTracksFromMirrorPlaylist. destruct (length trackUris =? 0); [done|].
      rewrite (ensure_then_get _ _ _ _ E). apply K.
Qed.

Lemma playlist_id_not_configured_witness :
  ∃ w1, getMirrorPlaylistTracks Spotify.api 1 mirror_not_configured
        = (Throw (EnvNotSet "MIRROR_PLAYLIST_ID"), w1) ∧
        requests w1 = [ReqRefreshAccessToken].
Proof.
  assert (∃ w1, ensureAccessToken Spotify.api mirror_not_configured = (Ok tt, w1) ∧
                requests w1 = [ReqRefreshAccessToken]) as (w1 & E & R).
  { eexists. split; vm_compute; reflexivity. }
  exists w1. split; [|exact R].
  apply (playlist_id_not_configured Spotify.api 1 mirror_not_configured w1 E).
  vm_compute. reflexivity.
Defined.

(** ** Tracks added at the same time *)

(** X16.  The sort of the engine is stable: the eligible tracks
    with the same [addedAt] are in [sortedTracks] in the order they have in
    the source playlist. *)
Theorem tracks_added_together_keep_their_order tz nw sourceTracks played t :
  List.filter (λ a, (addedAt a =? t)%Z) (sortedTracks tz nw sourceTracks played)
  = List.filter (λ a, (addedAt a =? t)%Z) (eligibleTracks tz nw sourceTracks played) ∧
  List.filter (λ a, (addedAt a =? t)%Z) (eligibleTracks tz nw sourceTracks played)
    `sublist_of` sourceTracks.
Proof.
  split; [apply js_sort_stable|].
  unfold eligibleTracks, tracksWithinLastYear.
  induction sourceTracks as [|x l IH]; simpl; [done|].
  repeat (match goal with |- context [if ?b then _ else _] => destruct b end; simpl);
    try (by apply sublist_skip, IH); try (by apply sublist_cons, IH).
Qed.

(** ** The start of the process *)

Lemma firstNotSet_None env vars :
  firstNotSet env vars = None ↔ ∀ v, v ∈ vars → not_set env v = false.
Proof.
  induction vars as [|x vars IH]; simpl.
  - split; [|done]. by intros _ v ?%elem_of_nil.
  - destruct (not_set env x) eqn:N.
    + split; [done|]. intros Hv. specialize (Hv x (list_elem_of_here _ _)). congruence.
    + rewrite IH. split.
      * intros Hv v [->|?]%elem_of_cons; auto.
      * intros Hv v ?. apply Hv. by right.
Qed.

Lemma firstNotSet_Some env vars v :
  firstNotSet env vars = Some v →
  ∃ before after, vars = before ++ v :: after ∧ not_set env v = true ∧
                  ∀ u, u ∈ before → not_set env u = false.
Proof.
  induction vars as [|x vars IH]; simpl; [done|].
  destruct (not_set env x) eqn:N.
  - intros [= <-]. exists [], vars. split; [done|]. split; [done|].
    by intros u ?%elem_of_nil.
  - intros (before & after & -> & Nv & B)%IH. exists (x :: before), after.
    split; [done|]. split; [done|]. intros u [->|?]%elem_of_cons; auto.
Qed.

Lemma client_vars_required v :
  v ∈ ClientModule.requiredEnvVars → v ∈ Index.requiredEnvVars.
Proof.
  unfold ClientModule.requiredEnvVars, Index.requiredEnvVars.
  rewrite !elem_of_cons. intuition.
Qed.

Lemma index_vars_only v :
  v ∈ Index.requiredEnvVars → v ∉ ClientModule.requiredEnvVars →
  (v = "SOURCE_PLAYLIST_ID" ∨ v = "MIRROR_PLAYLIST_ID")%string.
Proof.
  unfold ClientModule.requiredEnvVars, Index.requiredEnvVars.
  rewrite !elem_of_cons. intuition.
Qed.

Lemma source_before_mirror before after :
  Index.requiredEnvVars = before ++ "MIRROR_PLAYLIST_ID"%string :: after →
  "SOURCE_PLAYLIST_ID"%string ∈ before.
Proof.
  unfold Index.requiredEnvVars. intros E.
  destruct before as [|b1 [|b2 [|b3 [|b4 [|b5 [|b6 [|b7 before]]]]]]];
    simpl in E; simplify_eq.
  rewrite !elem_of_cons. auto 10.
Qed.

(** X17.  The process starts its first run exactly when the six
    required variables are set and not empty; then both playlist ids are
    usable by the accessor.  If one of CLIENT_ID, CLIENT_SECRET,
    REFRESH_TOKEN, USER_ID is missing, the import of the client throws
    before [index.ts] checks anything; [index.ts] itself exits with code 1
    only for SOURCE_PLAYLIST_ID or MIRROR_PLAYLIST_ID, and names the mirror
    only if the source is set. *)
Theorem process_starts_when_configured env :
  (Index.startup env = Index.Starts ↔
   ∀ v, v ∈ Index.requiredEnvVars → ∃ s, env !! v = Some s ∧ s ≠ ""%string) ∧
  (∀ code v, Index.startup env = Index.Exits code v →
     code = 1 ∧ (v = "SOURCE_PLAYLIST_ID" ∨ v = "MIRROR_PLAYLIST_ID")%string ∧
     not_set env v = true ∧
     (v = "MIRROR_PLAYLIST_ID"%string → not_set env "SOURCE_PLAYLIST_ID" = false)) ∧
  (∀ v, Index.startup env = Index.ImportThrows v →
     v ∈ ClientModule.requiredEnvVars ∧ not_set env v = true) ∧
  ((∃ v, v ∈ ClientModule.requiredEnvVars ∧ not_set env v = true) →
   ∃ v, Index.startup env = Index.ImportThrows v) ∧
  (Index.startup env = Index.Starts →
   ∀ H (h : H) now tza,
     truthy_env (SOURCE_PLAYLIST_ID (Index.process env h now tza)) = true ∧
     truthy_env (MIRROR_PLAYLIST_ID (Index.process env h now tza)) = true).
Proof.
  assert (∀ v, not_set env v = false ↔ ∃ s, env !! v = Some s ∧ s ≠ ""%string) as NS.
  { intros v. unfold not_set. rewrite negb_false_iff. destruct (env !! v) as [s|]; simpl.
    - rewrite truthy_string_true. split; [by exists s|]. by intros (? & [= <-] & ?).
    - split; [done|]. by intros (? & ? & _). }
  assert (Index.startup env = Index.Starts ↔
          ∀ v, v ∈ Index.requiredEnvVars → not_set env v = false) as St.
  { unfold Index.startup, ClientModule.load.
    destruct (firstNotSet env ClientModule.requiredEnvVars) as [v|] eqn:C.
    - split; [done|]. intros Hv. apply firstNotSet_Some in C as (b & a & E & N & _).
      rewrite Hv in N; [done|]. apply client_vars_required.
      rewrite E. apply elem_of_app. right. by left.
    - destruct (firstNotSet env Index.requiredEnvVars) as [v|] eqn:I.
      + split; [done|]. intros Hv. apply firstNotSet_Some in I as (b & a & E & N & _).
        rewrite Hv in N; [done|]. rewrite E. apply elem_of_app. right. by left.
      + split; [|done]. intros _. by apply firstNotSet_None. }
  split; [|split; [|split; [|split]]].
  - rewrite St. by setoid_rewrite NS.
  - intros code v. unfold Index.startup, ClientModule.load.
    destruct (firstNotSet env ClientModule.requiredEnvVars) as [u|] eqn:C; [done|].
    destruct (firstNotSet env Index.requiredEnvVars) as [u|] eqn:I; [|done].
    intros [= <- ->]. split; [done|].
    pose proof (proj1 (firstNotSet_None _ _) C) as Cl.
    apply firstNotSet_Some in I as (b & a & E & N & B).
    assert (v ∈ Index.requiredEnvVars) as Hin
      by (rewrite E; apply elem_of_app; right; by left).
    assert (v ∉ ClientModule.requiredEnvVars) as Nin
      by (intros Hc; apply Cl in Hc; congruence).
    split; [|split; [done|]].
    + by apply index_vars_only.
    + intros ->. apply B. by eapply source_before_mirror.
  - intros v. unfold Index.startup, ClientModule.load.
    destruct (firstNotSet env ClientModule.requiredEnvVars) as [u|] eqn:C.
    + intros [= <-]. apply firstNotSet_Some in C as (b & a & E & N & _).
      split; [|done]. rewrite E. apply elem_of_app. right. by left.
    + by destruct (firstNotSet env Index.requiredEnvVars).
  - intros (v & Hin & N). unfold Index.startup, ClientModule.load.
    destruct (firstNotSet env ClientModule.requiredEnvVars) as [u|] eqn:C; [by exists u|].
    pose proof (proj1 (firstNotSet_None _ _) C v Hin). congruence.
  - intros S H h now tza. simpl.
    pose proof (proj1 St S) as All. unfold not_set in All.
    split; apply negb_false_iff, All; unfold Index.requiredEnvVars;
      rewrite !elem_of_cons; auto 10.
Qed.

Lemma process_starts_when_configured_witness :
  Index.startup
    {[ "CLIENT_ID" := "id"; "CLIENT_SECRET" := "secret"; "REFRESH_TOKEN" := "token";
       "USER_ID" := "user"; "SOURCE_PLAYLIST_ID" := "source";
       "MIRROR_PLAYLIST_ID" := "mirror" ]}%string
  = Index.Starts.
Proof.
  apply (proj2 (proj1 (process_starts_when_configured _))).
  intros v Hv. unfold Index.requiredEnvVars in Hv.
  repeat (apply elem_of_cons in Hv as [->|Hv];
          [eexists; split; [vm_compute; reflexivity|discriminate]|]).
  by apply elem_of_nil in Hv.
Defined.

Example only_the_mirror_is_missing :
  Index.startup
    {[ "CLIENT_ID" := "id"; "CLIENT_SECRET" := "secret"; "REFRESH_TOKEN" := "token";
       "USER_ID" := "user"; "SOURCE_PLAYLIST_ID" := "source";
       "MIRROR_PLAYLIST_ID" := "" ]}%string
  = Index.Exits 1 "MIRROR_PLAYLIST_ID".
Proof. vm_compute. reflexivity. Qed.

Example the_import_throws_first :
  Index.startup {[ "CLIENT_ID" := "id"; "CLIENT_SECRET" := "secret" ]}%string
  = Index.ImportThrows "REFRESH_TOKEN".
Proof. vm_compute. reflexivity. Qed.
